(** * rxsv: a shallow embedding of [src/index.ts]

    The file models the five exported functions of the library,
    [createAction], [createStore], [combineReducers], [combineEffects] and
    [select], together with the part of the RxJS substrate they are built
    on ([BehaviorSubject], [Subject], [scan], [shareReplay], [mergeMap],
    [merge], [map], [pluck], [distinctUntilChanged]). What the JavaScript
    runtime itself provides to a property read, the members of
    [Object.prototype] and the properties of primitives, is a parameter of
    the development, the class [Runtime]; the examples run on a sample
    runtime.

    Part I holds the definitions, Part II the lemmas and theorems. *)

From Stdlib Require Import List String Ascii ZArith Arith Bool Lia Permutation.
Import ListNotations.

Set Implicit Arguments.
Local Open Scope list_scope.

(* ===================================================================== *)
(** * Part I. Definitions                                                  *)
(* ===================================================================== *)

(* --------------------------------------------------------------------- *)
(** ** JavaScript values

    Numbers are integers plus [NaN]; objects live in a heap and are named
    by their address, so that [===] on objects is identity of references.
    The objects and functions the runtime comes with ([Object],
    [Object.prototype.toString], ...) are named by their path; the code
    modelled here never creates one. *)

Definition loc := nat.

Inductive value : Type :=
| VUndefined
| VNull
| VBool (b : bool)
| VNum (n : Z)
| VNaN
| VStr (s : string)
| VRef (l : loc)
| VNative (name : string).

(** [a === b]: primitives by value, objects by reference, [NaN] equal to
    nothing. *)
Definition strict_eq (a b : value) : bool :=
  match a, b with
  | VUndefined, VUndefined => true
  | VNull, VNull => true
  | VBool x, VBool y => Bool.eqb x y
  | VNum x, VNum y => Z.eqb x y
  | VStr x, VStr y => String.eqb x y
  | VRef x, VRef y => Nat.eqb x y
  | VNative x, VNative y => String.eqb x y
  | _, _ => false
  end.

(** [a !== b] *)
Definition strict_neq (a b : value) : bool := negb (strict_eq a b).

(** An object: its own enumerable string-keyed properties, in insertion
    order (the order of [Object.entries] and of the spread [{...o}]). The
    objects the code modelled here allocates are object literals: their
    prototype is [Object.prototype]. *)
Definition object := list (string * value).

(** The heap: the object at address [l] is the [l]-th element. Objects are
    never updated in place by the code modelled here; allocation appends. *)
Definition heap := list object.

Definition alloc (h : heap) (o : object) : loc * heap := (List.length h, h ++ [o]).

Definition obj_at (h : heap) (l : loc) : object := nth l h [].

(** The own property [k] of [o], if [o] has one. *)
Fixpoint find_own (o : object) (k : string) : option value :=
  match o with
  | [] => None
  | (k', v) :: o' => if String.eqb k' k then Some v else find_own o' k
  end.

(** [{...o, [k]: v}] restricted to the last step: an existing key keeps
    its position and takes the new value, a new key goes last. *)
Fixpoint set_own (o : object) (k : string) (v : value) : object :=
  match o with
  | [] => [(k, v)]
  | (k', v') :: o' =>
      if String.eqb k' k then (k', v) :: o' else (k', v') :: set_own o' k v
  end.

(** What a property read finds beyond the own properties of an object
    literal belongs to the JavaScript runtime, not to the library: the
    members of [Object.prototype], and the properties of primitives and of
    built-ins. The development is parameterised by them. *)
Class Runtime : Type := {
  (** [Object.prototype[k]], as an object without an own property [k]
      reads it; [undefined] for a key the prototype does not have *)
  inherited : string -> value;
  (** [x[k]] for a primitive or a built-in [x]: the length and the
      characters of a string, the methods of the wrapper prototypes, ... *)
  primitive_prop : value -> string -> value
}.

Section Reading.

Context {RT : Runtime}.

(** [x[k]]: an object is looked up in the heap, its own properties first
    and then its prototype; a primitive or a built-in is read by the
    runtime. On [null] and [undefined] the read throws a [TypeError]; the
    code modelled here never reads from them ([pluck] tests for them
    first, and the accumulator of [combineReducers] is an object), and the
    model answers [undefined]. *)
Definition get_prop (h : heap) (x : value) (k : string) : value :=
  match x with
  | VRef l =>
      match find_own (obj_at h l) k with
      | Some v => v
      | None => inherited k
      end
  | VUndefined | VNull => VUndefined
  | _ => primitive_prop x k
  end.

End Reading.

(* --------------------------------------------------------------------- *)
(** ** Actions: [createAction] (index.ts, lines 9-20) *)

(** [Readonly<{ type: T }> | Readonly<{ type: T; payload: P }>]: the
    payload property is present or absent. *)
Record Action : Type := mkAction {
  type : string;
  payload : option value
}.

(** [return payload === void 0 ? { type } : { type, payload };]
    The one-argument overload is the call with [payload = undefined].
    The body has no [throw]: the function is total. *)
Definition createAction (ty : string) (pl : value) : Action :=
  if strict_eq pl VUndefined
  then {| type := ty; payload := None |}
  else {| type := ty; payload := Some pl |}.

(** What section 7 of the specification calls a malformed type, for a type
    that is a string as the signature [T extends string] requires. *)
Definition malformed_type (ty : string) : Prop := ty = EmptyString.

(* --------------------------------------------------------------------- *)
(** ** [select] (index.ts, lines 81-96)

    A synchronous operator is modelled by what a subscription to its
    result emits, in order, for the values its source emits, in order. *)

(** [pathOrMapper: Mapper<A, B> | string] with [...paths]: the test
    [typeof pathOrMapper === 'function'] tells the two modes apart. *)
Inductive selector : Type :=
| Mapper (f : value -> value)
| Path (p : string) (paths : list string).

Section SelectModel.

Context {RT : Runtime}.

(** RxJS [pluck]'s mapper: descend through [props]; [undefined] as soon as
    the current value is [null] or [undefined] or a property is
    [undefined]. *)
Fixpoint plucker (h : heap) (props : list string) (x : value) : value :=
  match props with
  | [] => x
  | p :: props' =>
      let v := match x with
               | VUndefined | VNull => VUndefined
               | _ => get_prop h x p
               end in
      match v with
      | VUndefined => VUndefined
      | _ => plucker h props' v
      end
  end.

(** [haveMapperFunc ? map(source => pathOrMapper(source))
                   : pluck(...[pathOrMapper, ...paths])] *)
Definition projection (h : heap) (sel : selector) : value -> value :=
  match sel with
  | Mapper f => f
  | Path p paths => plucker h (p :: paths)
  end.

(** The state of one [distinctUntilChanged()] subscriber: the key of the
    last value it let through ([hasKey] false is [None]), and what it has
    emitted so far. *)
Record distinct_state : Type := mkDistinct {
  d_key : option value;
  d_out : list value
}.

(** [_next(value)]: with a key, compare by [===] and drop the value when
    equal; otherwise store the key and emit. *)
Definition distinct_next (st : distinct_state) (v : value) : distinct_state :=
  match d_key st with
  | Some k =>
      if strict_eq k v then st
      else {| d_key := Some v; d_out := (d_out st ++ [v])%list |}
  | None => {| d_key := Some v; d_out := (d_out st ++ [v])%list |}
  end.

Definition distinctUntilChanged (src : list value) : list value :=
  d_out (fold_left distinct_next src {| d_key := None; d_out := [] |}).

(** [source$.pipe(map-or-pluck, distinctUntilChanged())] *)
Definition select (h : heap) (sel : selector) (src : list value) : list value :=
  distinctUntilChanged (map (projection h sel) src).

End SelectModel.

(** The last value of a list, if any. *)
Definition last_emitted (out : list value) : option value :=
  match rev out with
  | [] => None
  | v :: _ => Some v
  end.

(* --------------------------------------------------------------------- *)
(** ** [combineReducers] (index.ts, lines 56-75) *)

(** A field reducer as JavaScript runs it: it reads its previous sub-state
    (possibly [undefined]) and the action, may allocate, and returns the
    next sub-state. *)
Definition FieldReducer : Type := heap -> value -> Action -> value * heap.

(** A field reducer that leaves the objects that exist alone. *)
Definition allocates_only (r : FieldReducer) : Prop :=
  forall h v a, exists ext, snd (r h v a) = (h ++ ext)%list.

(** One call of a field reducer, as a spy on it would record it. *)
Record field_call : Type := mkCall {
  c_field : string;
  c_prev : value;
  c_next : value
}.

(** The accumulator of the [reduce]: the heap, the reference [acc], and
    the calls made so far. *)
Record combine_state : Type := mkCombine {
  cs_heap : heap;
  cs_acc : loc;
  cs_calls : list field_call
}.

Section CombineModel.

Context {RT : Runtime}.

(** The callback of [Object.entries(reducers).reduce(...)], lines 64-74. *)
Definition combine_step (action : Action) (st : combine_state)
  (entry : string * FieldReducer) : combine_state :=
  let field := fst entry in
  let reducer := snd entry in
  let prevSubState := get_prop (cs_heap st) (VRef (cs_acc st)) field in
  let '(nextSubState, h1) := reducer (cs_heap st) prevSubState action in
  let calls := (cs_calls st ++ [mkCall field prevSubState nextSubState])%list in
  if strict_neq prevSubState nextSubState
  then
    let '(l, h2) := alloc h1 (set_own (obj_at h1 (cs_acc st)) field nextSubState) in
    {| cs_heap := h2; cs_acc := l; cs_calls := calls |}
  else {| cs_heap := h1; cs_acc := cs_acc st; cs_calls := calls |}.

(** [(prevState = {}, action) => Object.entries(reducers).reduce(..., prevState)]
    [reducers] is the list [Object.entries] returns; the previous aggregate
    is a reference or [undefined], and the default parameter allocates the
    empty object. *)
Definition combine_run (reducers : list (string * FieldReducer))
  (h : heap) (prevState : option loc) (action : Action) : combine_state :=
  let '(prev, h0) := match prevState with
                     | Some l => (l, h)
                     | None => alloc h []
                     end in
  fold_left (combine_step action) reducers
            {| cs_heap := h0; cs_acc := prev; cs_calls := [] |}.

Definition combineReducers (reducers : list (string * FieldReducer))
  (h : heap) (prevState : option loc) (action : Action) : loc * heap :=
  let st := combine_run reducers h prevState action in
  (cs_acc st, cs_heap st).

End CombineModel.

(** A call that returned its previous sub-state, by [===]. *)
Definition unchanged (c : field_call) : bool := strict_eq (c_prev c) (c_next c).

(* --------------------------------------------------------------------- *)
(** ** Effects

    [Effect<A, S> = (action$, state$) => Observable<A>]. The observable an
    effect returns is modelled by how its subscription behaves: which of
    its inputs it subscribes to, in which order, and what it emits,
    synchronously, each time one of them delivers a value. The subscription
    has a memory of type [Mem]. Channel [k] of an effect is the [k]-th
    input it opens; besides the two streams it is given, an effect may
    listen to something of its own (a timer, a response), channel
    [ChOther], whose deliveries are events of the environment. *)

Inductive channel : Type := ChAction | ChState | ChOther.

Inductive input (State : Type) : Type :=
| InAction (a : Action)
| InState (s : State)
| InOther (n : nat).

Arguments InAction {State} a.
Arguments InState {State} s.
Arguments InOther {State} n.

Record Effect (State Mem : Type) : Type := mkEffect {
  eff_channels : list channel;
  eff_init : Mem;
  eff_handle : nat -> input State -> Mem -> Mem * list Action
}.

(** An effect whose subscription never emits. *)
Definition silent {State Mem : Type} (eff : Effect State Mem) : Prop :=
  forall k i m, snd (eff_handle eff k i m) = [].

(* --------------------------------------------------------------------- *)
(** ** [combineEffects] (index.ts, lines 77-79)

    [merge(...effects.map(effect => effect(action$, state$)))]: [merge]
    subscribes to the results in order, so the channels of the composed
    effect are the channels of the first effect, then those of the second,
    and so on; a delivery on a channel goes to the effect that opened it,
    and what that effect emits is emitted by the composed effect at once. *)

Fixpoint route {State Mem : Type} (effects : list (Effect State Mem))
  (ms : list Mem) (k : nat) (i : input State) : list Mem * list Action :=
  match effects, ms with
  | eff :: effects', m :: ms' =>
      let n := List.length (eff_channels eff) in
      if k <? n
      then let '(m', out) := eff_handle eff k i m in (m' :: ms', out)
      else let '(ms'', out) := route effects' ms' (k - n) i in (m :: ms'', out)
  | _, _ => (ms, [])
  end.

Definition combineEffects {State Mem : Type}
  (effects : list (Effect State Mem)) : Effect State (list Mem) :=
  {| eff_channels := List.concat (map (@eff_channels State Mem) effects);
     eff_init := map (@eff_init State Mem) effects;
     eff_handle := fun k i ms => route effects ms k i |}.

(* --------------------------------------------------------------------- *)
(** ** [createStore] (index.ts, lines 23-54) *)

Section StoreModel.

Variables State Mem : Type.

(** [Reducer<A, S> = (state: S | undefined, action: A) => S] *)
Definition Reducer : Type := option State -> Action -> State.

(** Who listens to [action$]: an outside subscriber [x], the [scan] of the
    state pipeline, or channel [k] of the root effect. *)
Inductive action_observer : Type :=
| AExt (x : nat)
| AScan
| AChan (k : nat).

(** Who listens to [state$]: an outside subscriber or a channel of the
    root effect. *)
Inductive state_observer : Type :=
| SExt (x : nat)
| SChan (k : nat).

(** What outside subscribers are handed, in the order of the calls of
    their [next] callbacks. *)
Inductive observation : Type :=
| SawAction (x : nat) (a : Action)
| SawState (x : nat) (s : State).

(** The mutable state behind one store. *)
Record store : Type := mkStore {
  (** [action$._value] of the [BehaviorSubject] *)
  act_value : Action;
  (** [action$.observers], in subscription order *)
  act_observers : list action_observer;
  (** every argument [action$.next] was called with, in call order *)
  act_published : list Action;
  (** how many times [effect$.next] was called *)
  eff_published : nat;
  (** the inner subscription of the [mergeMap]: the effect and its memory *)
  eff_running : option (Effect State Mem * Mem);
  (** the subscriber of line 46 was handed an error *)
  eff_failed : bool;
  (** the accumulator of [scan] *)
  scan_acc : State;
  (** [shareReplay] has created its [ReplaySubject] and subscribed to the
      source *)
  connected : bool;
  (** the buffer of the [ReplaySubject] *)
  replay_events : list State;
  (** the observers of the [ReplaySubject], in subscription order *)
  state_observers : list state_observer;
  (** the calls of the root reducer, as a spy on it would record them *)
  reducer_calls : list (option State * Action);
  (** the values handed to outside subscribers *)
  seen : list observation
}.

(** *** The elementary updates *)

(** [this._value = value] in [BehaviorSubject.next] *)
Definition publish (a : Action) (s : store) : store :=
  mkStore a (act_observers s) (act_published s ++ [a]) (eff_published s)
    (eff_running s) (eff_failed s) (scan_acc s) (connected s)
    (replay_events s) (state_observers s) (reducer_calls s) (seen s).

(** the [next] callback of an outside subscriber *)
Definition see (o : observation) (s : store) : store :=
  mkStore (act_value s) (act_observers s) (act_published s) (eff_published s)
    (eff_running s) (eff_failed s) (scan_acc s) (connected s)
    (replay_events s) (state_observers s) (reducer_calls s) (seen s ++ [o]).

(** the [next] callback of outside subscribers, several calls in a row *)
Definition see_all (os : list observation) (s : store) : store :=
  fold_left (fun s' o => see o s') os s.

(** the effect's subscription moves to memory [m] *)
Definition remember (eff : Effect State Mem) (m : Mem) (s : store) : store :=
  mkStore (act_value s) (act_observers s) (act_published s) (eff_published s)
    (Some (eff, m)) (eff_failed s) (scan_acc s) (connected s)
    (replay_events s) (state_observers s) (reducer_calls s) (seen s).

(** [scan]'s [_next], then [_events.push] of the [ReplaySubject]: the
    reducer is called on the accumulator and the action, the result is the
    new accumulator and the newest replayed event. *)
Definition scan_push (R : Reducer) (a : Action) (s : store) : store :=
  mkStore (act_value s) (act_observers s) (act_published s) (eff_published s)
    (eff_running s) (eff_failed s) (R (Some (scan_acc s)) a) (connected s)
    (replay_events s ++ [R (Some (scan_acc s)) a]) (state_observers s)
    (reducer_calls s ++ [(Some (scan_acc s), a)]) (seen s).

(** [this.observers.push(subscriber)] on [action$] *)
Definition add_action_observer (o : action_observer) (s : store) : store :=
  mkStore (act_value s) (act_observers s ++ [o]) (act_published s)
    (eff_published s) (eff_running s) (eff_failed s) (scan_acc s)
    (connected s) (replay_events s) (state_observers s) (reducer_calls s)
    (seen s).

(** [this.observers.push(subscriber)] on the [ReplaySubject] *)
Definition add_state_observer (o : state_observer) (s : store) : store :=
  mkStore (act_value s) (act_observers s) (act_published s) (eff_published s)
    (eff_running s) (eff_failed s) (scan_acc s) (connected s)
    (replay_events s) (state_observers s ++ [o]) (reducer_calls s) (seen s).

(** [subject = new ReplaySubject(...)] in [shareReplay] *)
Definition connect (s : store) : store :=
  mkStore (act_value s) (act_observers s) (act_published s) (eff_published s)
    (eff_running s) (eff_failed s) (scan_acc s) true
    (replay_events s) (state_observers s) (reducer_calls s) (seen s).

(** What the first subscription to [state$] has done when [scan] hands
    its first result to the [ReplaySubject]: the subject exists, [o] is
    its observer, [scan] listens to [action$] and has folded the action
    [action$] held. *)
Definition start_sharing (R : Reducer) (o : state_observer) (s : store) : store :=
  scan_push R (act_value s)
    (add_action_observer AScan (add_state_observer o (connect s))).

(** one more call of [effect$.next] *)
Definition count_registration (s : store) : store :=
  mkStore (act_value s) (act_observers s) (act_published s)
    (Datatypes.S (eff_published s)) (eff_running s) (eff_failed s)
    (scan_acc s) (connected s) (replay_events s) (state_observers s)
    (reducer_calls s) (seen s).

(** the projection of the [mergeMap] threw: the error reaches the
    subscriber of line 46, which has no error callback *)
Definition fail_effects (s : store) : store :=
  mkStore (act_value s) (act_observers s) (act_published s) (eff_published s)
    None true (scan_acc s) (connected s) (replay_events s)
    (state_observers s) (reducer_calls s) (seen s).

(** Run [f] on each element in turn, stopping at the first failure. *)
Fixpoint each {X : Type} (f : X -> store -> option store) (l : list X)
  (s : store) : option store :=
  match l with
  | [] => Some s
  | x :: l' =>
      match f x s with
      | Some s' => each f l' s'
      | None => None
      end
  end.

(** *** Delivery

    Everything below runs synchronously inside [action$.next], and an
    effect that emits while it is being delivered to calls [action$.next]
    again from inside that delivery (line 46). [dispatch] stands for that
    nested call. *)

Section Delivery.

Variable R : Reducer.
Variable dispatch : Action -> store -> option store.

(** line 46: [.subscribe(action => action$.next(action))], for the values
    one delivery makes the effect emit *)
Definition emit (out : list Action) (s : store) : option store :=
  each dispatch out s.

(** a value arrives on channel [k] of the running effect *)
Definition to_effect (k : nat) (i : input State) (s : store) : option store :=
  match eff_running s with
  | Some (eff, m) =>
      let '(m', out) := eff_handle eff k i m in
      emit out (remember eff m' s)
  | None => Some s
  end.

(** [observer.next(v)] for one observer of the [ReplaySubject] *)
Definition notify_state (v : State) (o : state_observer) (s : store)
  : option store :=
  match o with
  | SExt x => Some (see (SawState x v) s)
  | SChan k => to_effect k (InState v) s
  end.

(** [scan]'s subscriber receives [a]: fold, push into the replay buffer,
    then [Subject.next] over a copy of the observers. *)
Definition scan_next (a : Action) (s : store) : option store :=
  let s1 := scan_push R a s in
  each (notify_state (scan_acc s1)) (state_observers s1) s1.

(** [observer.next(a)] for one observer of [action$] *)
Definition notify_action (a : Action) (o : action_observer) (s : store)
  : option store :=
  match o with
  | AExt x => Some (see (SawAction x a) s)
  | AScan => scan_next a s
  | AChan k => to_effect k (InAction a) s
  end.

(** [BehaviorSubject.next(a)]: store the value, then [Subject.next] over a
    copy of the observers. *)
Definition next_body (a : Action) (s : store) : option store :=
  let s1 := publish a s in
  each (notify_action a) (act_observers s1) s1.

(** [BehaviorSubject._subscribe]: register, then hand over the current
    value. *)
Definition subscribe_action (o : action_observer) (s : store) : option store :=
  let s1 := add_action_observer o s in
  notify_action (act_value s1) o s1.

(** Subscribing to [state$], that is to [shareReplay()] (RxJS 6.4 and
    later): the first subscription creates the [ReplaySubject], subscribes
    to it, and only then subscribes [scan] to [action$]; a later one
    subscribes to the [ReplaySubject], which registers it and replays its
    whole buffer, [shareReplay()] being called without a buffer size. *)
Definition subscribe_state (o : state_observer) (s : store) : option store :=
  if connected s
  then
    let s1 := add_state_observer o s in
    each (fun v => notify_state v o) (replay_events s1) s1
  else
    subscribe_action AScan (add_state_observer o (connect s)).

(** The [mergeMap] subscribes to what the effect returned: the effect
    opens its channels in order. *)
Definition open_channel (k : nat) (c : channel) (s : store) : option store :=
  match c with
  | ChAction => subscribe_action (AChan k) s
  | ChState => subscribe_state (SChan k) s
  | ChOther => Some s
  end.

Fixpoint open_channels (k : nat) (cs : list channel) (s : store)
  : option store :=
  match cs with
  | [] => Some s
  | c :: cs' =>
      match open_channel k c s with
      | Some s' => open_channels (Datatypes.S k) cs' s'
      | None => None
      end
  end.

(** line 48, [effect$.next(rootEffect)], through lines 44-46: the
    [mergeMap] calls the effect and subscribes to its result. When the
    argument is [undefined] the call throws a [TypeError], which the
    [mergeMap] hands to its subscriber. *)
Definition register (rootEffect : option (Effect State Mem)) (s : store)
  : option store :=
  let s1 := count_registration s in
  match rootEffect with
  | Some eff => open_channels 0 (eff_channels eff) (remember eff (eff_init eff) s1)
  | None => Some (fail_effects s1)
  end.

End Delivery.

(** [action$.next(a)]. The nesting of deliveries is bounded by [fuel]:
    [None] is a delivery that nests deeper than that. *)
Fixpoint next (R : Reducer) (fuel : nat) (a : Action) (s : store)
  : option store :=
  match fuel with
  | O => None
  | Datatypes.S fuel' => next_body R (next R fuel') a s
  end.

(** [createAction('@@INIT')] and [createAction('@@INIT/state')] *)
Definition INIT : Action := createAction "@@INIT" VUndefined.
Definition INIT_STATE : Action := createAction "@@INIT/state" VUndefined.

(** Lines 34-41: the [BehaviorSubject] holds [@@INIT], nobody listens, and
    the seed of the [scan] has been computed by the first call of the
    reducer. *)
Definition initial (R : Reducer) : store :=
  {| act_value := INIT;
     act_observers := [];
     act_published := [];
     eff_published := 0;
     eff_running := None;
     eff_failed := false;
     scan_acc := R None INIT_STATE;
     connected := false;
     replay_events := [];
     state_observers := [];
     reducer_calls := [(None, INIT_STATE)];
     seen := [] |}.

(** [createStore(rootReducer, rootEffect)]. The result stands for the pair
    [{ action$, state$ }]: what the two streams do next is a function of
    it. *)
Definition createStore (fuel : nat) (rootReducer : Reducer)
  (rootEffect : option (Effect State Mem)) : option store :=
  register rootReducer (next rootReducer fuel) rootEffect (initial rootReducer).

(** *** What the outside does with a store *)

Inductive event : Type :=
| Dispatch (a : Action)          (* action$.next(a) *)
| SubscribeState (x : nat)       (* state$.subscribe(x) *)
| SubscribeAction (x : nat)      (* action$.subscribe(x) *)
| Stimulus (k n : nat).          (* the effect's own source [k] fires *)

Definition step (R : Reducer) (fuel : nat) (ev : event) (s : store)
  : option store :=
  match ev with
  | Dispatch a => next R fuel a s
  | SubscribeState x => subscribe_state R (next R fuel) (SExt x) s
  | SubscribeAction x => subscribe_action R (next R fuel) (AExt x) s
  | Stimulus k n => to_effect (next R fuel) k (InOther n) s
  end.

Definition run (R : Reducer) (fuel : nat) (evs : list event) (s : store)
  : option store :=
  each (step R fuel) evs s.

(** [createStore], then the events. *)
Definition session (fuel : nat) (R : Reducer)
  (rootEffect : option (Effect State Mem)) (evs : list event) : option store :=
  match createStore fuel R rootEffect with
  | Some s => run R fuel evs s
  | None => None
  end.

(** The states subscriber [x] of [state$] was handed, in order. *)
Fixpoint states_of (x : nat) (l : list observation) : list State :=
  match l with
  | [] => []
  | SawState y v :: l' =>
      if Nat.eqb y x then v :: states_of x l' else states_of x l'
  | SawAction _ _ :: l' => states_of x l'
  end.

Definition states_seen (x : nat) (s : store) : list State := states_of x (seen s).

(** The actions subscriber [x] of [action$] was handed, in order. *)
Fixpoint actions_of (x : nat) (l : list observation) : list Action :=
  match l with
  | [] => []
  | SawAction y a :: l' =>
      if Nat.eqb y x then a :: actions_of x l' else actions_of x l'
  | SawState _ _ :: l' => actions_of x l'
  end.

Definition actions_seen (x : nat) (s : store) : list Action := actions_of x (seen s).

(** Folding [R] by hand over a list of actions from [acc]: the successive
    states. *)
Fixpoint fold_states (R : Reducer) (acc : State) (actions : list Action)
  : list State :=
  match actions with
  | [] => []
  | a :: actions' => R (Some acc) a :: fold_states R (R (Some acc) a) actions'
  end.

(** The states the reducer has produced after the seed. *)
Definition computed_states (R : Reducer) (s : store) : list State :=
  map (fun c => R (fst c) (snd c)) (tl (reducer_calls s)).

(** The actions the outside dispatched. *)
Fixpoint dispatched (evs : list event) : list Action :=
  match evs with
  | [] => []
  | Dispatch a :: evs' => a :: dispatched evs'
  | _ :: evs' => dispatched evs'
  end.

(** How many times [Subject.prototype.next] has run on the two subjects
    of the store: once for every [effect$.next], and once for every
    [action$.next], which reaches it through [super.next]. *)
Definition subject_next_calls (s : store) : nat :=
  eff_published s + List.length (act_published s).

(** The events that are not subscriptions to [state$]. *)
Definition is_state_subscription (ev : event) : bool :=
  match ev with
  | SubscribeState _ => true
  | _ => false
  end.

Definition without_state_subscriptions (evs : list event) : list event :=
  filter (fun ev => negb (is_state_subscription ev)) evs.

(** The observer lists and the sharing flag: deliveries never touch them,
    only subscriptions do. *)
Definition same_wiring (s s' : store) : Prop :=
  act_observers s' = act_observers s /\
  state_observers s' = state_observers s /\
  connected s' = connected s.

(** [f], where it succeeds, leaves the wiring alone and preserves [P]. *)
Definition keeps (P : store -> Prop) (f : store -> option store) : Prop :=
  forall s s', f s = Some s' -> same_wiring s s' /\ (P s -> P s').

(** *** The store seen from outside when the effect is silent

    When the running effect never emits, a delivery changes the memory of
    the effect and, besides that, does what the functions below say. *)

(** The store with the effect's subscription forgotten. *)
Definition erase (s : store) : store :=
  mkStore (act_value s) (act_observers s) (act_published s) (eff_published s)
    None (eff_failed s) (scan_acc s) (connected s) (replay_events s)
    (state_observers s) (reducer_calls s) (seen s).

(** The running effect, if any, is silent. *)
Definition quiet (s : store) : Prop :=
  forall eff m, eff_running s = Some (eff, m) -> silent eff.

Definition is_scan (o : action_observer) : bool :=
  match o with
  | AScan => true
  | _ => false
  end.

Definition is_ext (x : nat) (o : state_observer) : bool :=
  match o with
  | SExt y => Nat.eqb y x
  | SChan _ => false
  end.

Definition is_chan (o : state_observer) : bool :=
  match o with
  | SChan _ => true
  | SExt _ => false
  end.

(** What the outside subscribers among [l] are handed when [v] is
    delivered to all of [l]. *)
Fixpoint state_notes (v : State) (l : list state_observer) : list observation :=
  match l with
  | [] => []
  | SExt x :: l' => SawState x v :: state_notes v l'
  | SChan _ :: l' => state_notes v l'
  end.

Definition quiet_scan (R : Reducer) (a : Action) (s : store) : store :=
  see_all (state_notes (R (Some (scan_acc s)) a) (state_observers s))
          (scan_push R a s).

Definition quiet_notify (R : Reducer) (a : Action) (s : store)
  (o : action_observer) : store :=
  match o with
  | AExt x => see (SawAction x a) s
  | AScan => quiet_scan R a s
  | AChan _ => s
  end.

Definition quiet_next (R : Reducer) (a : Action) (s : store) : store :=
  fold_left (quiet_notify R a) (act_observers s) (publish a s).

(** The store with the outside subscribers of [state$], and what they
    were handed, forgotten. *)
Definition strip (s : store) : store :=
  mkStore (act_value s) (act_observers s) (act_published s) (eff_published s)
    (eff_running s) (eff_failed s) (scan_acc s) (connected s)
    (replay_events s) (filter is_chan (state_observers s)) (reducer_calls s)
    (filter (fun o => match o with SawState _ _ => false | SawAction _ _ => true end)
            (seen s)).

End StoreModel.

Arguments SawAction {State} x a.
Arguments SawState {State} x s.
Arguments strip {State Mem} s.
Arguments erase {State Mem} s.

(* --------------------------------------------------------------------- *)
(** ** Invariants *)

Section CombineInvariant.

Context {RT : Runtime}.

(** What holds of the accumulator of the [reduce] once the entries [done]
    have been processed, starting from the aggregate [prev] in heap [h0]. *)
Record combine_inv (h0 : heap) (prev : loc) (done : list (string * FieldReducer))
  (st : combine_state) : Prop := {
  ci_heap : exists ext, cs_heap st = h0 ++ ext;
  ci_acc : cs_acc st < List.length (cs_heap st);
  ci_same : forallb unchanged (cs_calls st) = true -> cs_acc st = prev;
  ci_fresh : forallb unchanged (cs_calls st) = false -> List.length h0 <= cs_acc st;
  ci_fields : map c_field (cs_calls st) = map fst done;
  ci_prev : forall c, In c (cs_calls st) ->
            c_prev c = get_prop h0 (VRef prev) (c_field c);
  ci_next : forall c, In c (cs_calls st) ->
            get_prop (cs_heap st) (VRef (cs_acc st)) (c_field c) = c_next c;
  ci_rest : forall f, ~ In f (map fst done) ->
            get_prop (cs_heap st) (VRef (cs_acc st)) f = get_prop h0 (VRef prev) f
}.

(** The recorded call [c] is the call of the entry [e] of the mapping: the
    entry's reducer was called on the sub-state the aggregate [prev] of
    heap [h0] holds for the entry's field, in a heap that extends [h0],
    and [c] records what it returned. *)
Definition call_of (h0 : heap) (prev : loc) (action : Action)
  (c : field_call) (e : string * FieldReducer) : Prop :=
  c_field c = fst e /\
  c_prev c = get_prop h0 (VRef prev) (fst e) /\
  exists ext, c_next c = fst (snd e (h0 ++ ext) (c_prev c) action).

(** The reducer of the entry [e], called on the sub-state the aggregate
    [prev] of heap [h0] holds for its field, returns a value [===] to that
    sub-state, whatever has been allocated since [h0]. *)
Definition returns_same (h0 : heap) (prev : loc) (action : Action)
  (e : string * FieldReducer) : Prop :=
  forall ext,
    strict_eq (get_prop h0 (VRef prev) (fst e))
              (fst (snd e (h0 ++ ext) (get_prop h0 (VRef prev) (fst e)) action))
    = true.

(** It returns a value [!==] to that sub-state. *)
Definition returns_other (h0 : heap) (prev : loc) (action : Action)
  (e : string * FieldReducer) : Prop :=
  forall ext,
    strict_eq (get_prop h0 (VRef prev) (fst e))
              (fst (snd e (h0 ++ ext) (get_prop h0 (VRef prev) (fst e)) action))
    = false.

End CombineInvariant.

Section SoundStore.

Variables State Mem : Type.
Variable R : Reducer State.

(** What holds of every store that [createStore] has returned and the
    outside has used. *)
Record sound (s : store State Mem) : Prop := {
  w_value : act_value s = last (act_published s) INIT;
  w_registered : eff_published s = 1;
  w_replay : replay_events s = computed_states R s;
  w_idle : connected s = false ->
           state_observers s = [] /\
           reducer_calls s = [(None, INIT_STATE)] /\
           scan_acc s = R None INIT_STATE;
  w_live : connected s = true ->
           exists a0 rest,
             reducer_calls s
             = (None, INIT_STATE) :: (Some (R None INIT_STATE), a0) :: rest;
  w_scan : In AScan (act_observers s) -> connected s = true;
  w_joined : forall x, In (SExt x) (state_observers s) -> states_seen x s <> [];
  w_first : forall x v, hd_error (states_seen x s) = Some v ->
            hd_error (replay_events s) = Some v;
  w_boot : act_published s = [] ->
           forall st a0 rest,
             reducer_calls s = (None, INIT_STATE) :: (st, a0) :: rest ->
             a0 = INIT;
  w_one_scan : List.length (filter is_scan (act_observers s))
               = if connected s then 1 else 0;
  w_acc : scan_acc s = last (replay_events s) (R None INIT_STATE)
}.

(** What [createStore] leaves behind when the effect is silent: nothing
    published, nothing handed out, only channels listening. *)
Record booted (t : store State Mem) : Prop := {
  b_published : act_published t = [];
  b_value : act_value t = INIT;
  b_seen : seen t = [];
  b_chans : forallb is_chan (state_observers t) = true;
  b_scan : List.length (filter is_scan (act_observers t))
           = if connected t then 1 else 0;
  b_idle : connected t = false ->
           state_observers t = [] /\ scan_acc t = R None INIT_STATE /\
           replay_events t = [];
  b_live : connected t = true ->
           scan_acc t = R (Some (R None INIT_STATE)) INIT /\
           replay_events t = [R (Some (R None INIT_STATE)) INIT]
}.

(** Subscriber [x] listens to [state$] once, [scan] to [action$] once, and
    [x] has been handed everything that was replayed. *)
Record following (x : nat) (t : store State Mem) : Prop := {
  f_connected : connected t = true;
  f_once : List.length (filter (is_ext x) (state_observers t)) = 1;
  f_scan : List.length (filter is_scan (act_observers t)) = 1;
  f_seen : states_seen x t = replay_events t;
  f_acc : scan_acc t = last (replay_events t) (R None INIT_STATE)
}.

End SoundStore.

(* --------------------------------------------------------------------- *)
(** ** Sample inputs *)

(** A runtime for the examples: [Object.prototype] and the prototypes of
    the wrappers with the members ECMAScript 5 gives them, and strings
    with their length and their characters. What later editions add, and
    the members of the built-ins themselves, are not tabulated: there the
    sample answers [undefined]. *)
Definition digit (c : ascii) : option nat :=
  let n := nat_of_ascii c in
  if (48 <=? n) && (n <=? 57) then Some (n - 48) else None.

Fixpoint decimal (k : string) (acc : nat) : option nat :=
  match k with
  | EmptyString => Some acc
  | String c k' =>
      match digit c with
      | Some d => decimal k' (10 * acc + d)
      | None => None
      end
  end.

(** The array index a key denotes: a decimal numeral without a leading
    zero. *)
Definition array_index (k : string) : option nat :=
  match k with
  | EmptyString => None
  | String c EmptyString => digit c
  | String c _ => if Ascii.eqb c "0" then None else decimal k 0
  end.

Definition object_prototype : list string :=
  ["hasOwnProperty"; "isPrototypeOf"; "propertyIsEnumerable";
   "toLocaleString"; "toString"; "valueOf"]%string.

Definition string_prototype : list string :=
  ["charAt"; "charCodeAt"; "concat"; "indexOf"; "lastIndexOf";
   "localeCompare"; "match"; "replace"; "search"; "slice"; "split";
   "substring"; "toLowerCase"; "toLocaleLowerCase"; "toUpperCase";
   "toLocaleUpperCase"; "trim"; "toString"; "valueOf"]%string.

Definition number_prototype : list string :=
  ["toString"; "toLocaleString"; "valueOf"; "toFixed"; "toExponential";
   "toPrecision"]%string.

Definition boolean_prototype : list string := ["toString"; "valueOf"]%string.

(** [k] read from a prototype named [owner] with the own members
    [members]; [next] is what the rest of the chain answers. *)
Definition prototype_prop (owner : string) (members : list string)
  (next : string -> value) (k : string) : value :=
  if String.eqb k "constructor" then VNative owner
  else if existsb (String.eqb k) members
       then VNative (owner ++ ".prototype." ++ k)
       else next k.

Definition sample_inherited : string -> value :=
  prototype_prop "Object" object_prototype (fun _ => VUndefined).

Definition sample_primitive_prop (x : value) (k : string) : value :=
  match x with
  | VStr s =>
      if String.eqb k "length" then VNum (Z.of_nat (String.length s))
      else match array_index k with
           | Some i =>
               match String.get i s with
               | Some c => VStr (String c EmptyString)
               | None => VUndefined
               end
           | None => prototype_prop "String" string_prototype sample_inherited k
           end
  | VNum _ | VNaN => prototype_prop "Number" number_prototype sample_inherited k
  | VBool _ => prototype_prop "Boolean" boolean_prototype sample_inherited k
  | _ => VUndefined
  end.

Definition sample_runtime : Runtime :=
  {| inherited := sample_inherited; primitive_prop := sample_primitive_prop |}.

(** Two field reducers: one returns what it is given, the other counts. *)
Definition keep_field : FieldReducer := fun h v _ => (v, h).
Definition bump_field : FieldReducer :=
  fun h v _ => (match v with VNum n => VNum (n + 1) | _ => VNum 0 end, h).
Definition sample_reducers : list (string * FieldReducer) :=
  [("a"%string, keep_field); ("b"%string, bump_field)].
(** A mapping with a field named like a member of [Object.prototype]. *)
Definition prototype_reducers : list (string * FieldReducer) :=
  [("constructor"%string, keep_field); ("b"%string, bump_field)].
Definition sample_heap : heap := [[("a"%string, VNum 1); ("b"%string, VNum 2)]].
Definition TICK : Action := createAction "TICK" VUndefined.

(** A root reducer that counts the actions it folds: [undefined] gives 0. *)
Definition counter : Reducer nat :=
  fun st _ => match st with None => 0 | Some n => S n end.
Definition ignoring : Effect nat unit :=
  {| eff_channels := [ChAction]; eff_init := tt; eff_handle := fun _ _ m => (m, []) |}.
Definition ACTION_A : Action := createAction "A" VUndefined.
Definition ACTION_B : Action := createAction "B" VUndefined.
(** An effect in the manner of the repository's tests,
    [action$ => action$.pipe(ofType('A'), mapTo({type: 'B'}))]. *)
Definition answering : Effect nat unit :=
  {| eff_channels := [ChAction];
     eff_init := tt;
     eff_handle := fun _ i m =>
       match i with
       | InAction a => if String.eqb (type a) "A" then (m, [ACTION_B]) else (m, [])
       | _ => (m, [])
       end |}.

(** A heap with the objects [{b: 1}], [{a: #0}], [{b: 2}], [{a: #2}],
    [{c: 0}], and a stream of states over it. *)
Definition nested_heap : heap :=
  [[("b"%string, VNum 1)]; [("a"%string, VRef 0)];
   [("b"%string, VNum 2)]; [("a"%string, VRef 2)];
   [("c"%string, VNum 0)]].
Definition nested_states : list value := [VRef 1; VRef 1; VRef 3; VRef 4; VRef 4; VRef 1].

Definition store_of (o : option (store nat unit)) : store nat unit :=
  match o with
  | Some s => s
  | None => initial unit counter
  end.

(* --------------------------------------------------------------------- *)
(** ** Further notions used in Part II *)

(** *** Notions for [select] *)

(** No two neighbours of the list are [===]. *)
Fixpoint adjacent_distinct (l : list value) : Prop :=
  match l with
  | a :: l' =>
      match l' with
      | b :: _ => strict_eq a b = false /\ adjacent_distinct l'
      | [] => True
      end
  | [] => True
  end.

(** [out] is obtained from [src] by dropping elements. *)
Inductive subsequence : list value -> list value -> Prop :=
| sub_nil : subsequence [] []
| sub_drop : forall v out src, subsequence out src -> subsequence out (v :: src)
| sub_keep : forall v out src, subsequence out src -> subsequence (v :: out) (v :: src).

(** *** Notions for [combineReducers] and [combineEffects] *)

(** A field reducer that is a function of its two arguments only, as the
    [Reducer] type has it: it neither reads nor extends the heap. *)
Definition pure_field (g : value -> Action -> value) : FieldReducer :=
  fun h v a => (g v a, h).

(** The mapping [{ field: reducer }] of pure field reducers, as
    [Object.entries] lists it. *)
Definition pure_mapping (gs : list (string * (value -> Action -> value)))
  : list (string * FieldReducer) :=
  map (fun fg => (fst fg, pure_field (snd fg))) gs.

Definition count_field : value -> Action -> value :=
  fun v _ => match v with VNum n => VNum (n + 1) | _ => VNum 0 end.
Definition same_field : value -> Action -> value := fun v _ => v.
Definition nan_field : value -> Action -> value := fun _ _ => VNaN.
Definition sample_mapping : list (string * (value -> Action -> value)) :=
  [("a"%string, same_field); ("b"%string, count_field)].
Definition wide_heap : heap :=
  [[("a"%string, VNum 1); ("z"%string, VStr "kept"); ("b"%string, VNum 2)]].

(** How many channels a list of effects opens, all together. *)
Definition channel_count {State Mem : Type} (effects : list (Effect State Mem))
  : nat :=
  List.length (List.concat (map (@eff_channels State Mem) effects)).

(** An effect with a memory: it counts the actions it has been shown and
    answers the action [A] with the action [B]. *)
Definition tallying : Effect nat nat :=
  {| eff_channels := [ChAction];
     eff_init := 0;
     eff_handle := fun _ i m =>
       match i with
       | InAction a =>
           if String.eqb (type a) "A" then (S m, [ACTION_B]) else (S m, [])
       | _ => (m, [])
       end |}.

(** An effect that listens to both streams and never emits. *)
Definition watching : Effect nat nat :=
  {| eff_channels := [ChState; ChAction];
     eff_init := 0;
     eff_handle := fun _ _ m => (S m, []) |}.

(** *** Notions for [createStore] *)

Section StoreNotions.

Variables State Mem : Type.

(** The calls a fold of [R] by hand makes: each one on the state the
    previous one returned. *)
Fixpoint calls_of (R : Reducer State) (acc : State) (actions : list Action)
  : list (option State * Action) :=
  match actions with
  | [] => []
  | a :: actions' => (Some acc, a) :: calls_of R (R (Some acc) a) actions'
  end.

(** The actions the reducer was called on after the seed. *)
Definition folded_actions (s : store State Mem) : list Action :=
  map snd (tl (reducer_calls s)).

(** The calls of the reducer are those of one fold from the seed. *)
Record chained (R : Reducer State) (s : store State Mem) : Prop := {
  ch_calls : reducer_calls s
             = (None, INIT_STATE)
               :: calls_of R (R None INIT_STATE) (folded_actions s);
  ch_acc : scan_acc s
           = last (fold_states R (R None INIT_STATE) (folded_actions s))
                  (R None INIT_STATE)
}.

(** The effect subscribes to [state$]. *)
Definition listens_to_state (eff : Effect State Mem) : bool :=
  existsb (fun c => match c with ChState => true | _ => false end)
          (eff_channels eff).

End StoreNotions.

(** The observer of [action$] is the outside subscriber [x]. *)
Definition is_aext (x : nat) (o : action_observer) : bool :=
  match o with
  | AExt y => Nat.eqb y x
  | _ => false
  end.

(** How many times the events subscribe [x] to [state$], to [action$]. *)
Fixpoint subscriptions (x : nat) (evs : list event) : nat :=
  match evs with
  | [] => 0
  | SubscribeState y :: evs' =>
      (if Nat.eqb y x then 1 else 0) + subscriptions x evs'
  | _ :: evs' => subscriptions x evs'
  end.

Fixpoint action_subscriptions (x : nat) (evs : list event) : nat :=
  match evs with
  | [] => 0
  | SubscribeAction y :: evs' =>
      (if Nat.eqb y x then 1 else 0) + action_subscriptions x evs'
  | _ :: evs' => action_subscriptions x evs'
  end.

Section Listeners.

Variables State Mem : Type.

(** How many times [x] is among the observers of [state$], of
    [action$]. *)
Definition listeners (x : nat) (s : store State Mem) : nat :=
  List.length (filter (is_ext x) (state_observers s)).

Definition action_listeners (x : nat) (s : store State Mem) : nat :=
  List.length (filter (is_aext x) (act_observers s)).

(** Who listens to [state$] once has been handed every state replayed so
    far; who does not listen has been handed none. *)
Definition tuned (s : store State Mem) : Prop :=
  forall x,
    (listeners x s = 0 -> states_seen x s = []) /\
    (listeners x s = 1 -> states_seen x s = replay_events s).

End Listeners.

(** Stores at the end of sessions with the effect [answering]. *)
Definition answered_store : store nat unit :=
  store_of (session 2 counter (Some answering)
              [Dispatch ACTION_A; SubscribeState 1; Dispatch ACTION_A]).
Definition unheard_store : store nat unit :=
  store_of (session 2 counter (Some answering)
              [Dispatch ACTION_A; SubscribeAction 3; Dispatch ACTION_B]).
Definition late_store : store nat unit :=
  store_of (session 2 counter (Some answering)
              ([Dispatch ACTION_A; Dispatch ACTION_B] ++ [SubscribeState 1])).

Section FirstSubscription.

Variables State Mem : Type.

(** One of the channels is a subscription to [state$]. *)
Definition opens_state (cs : list channel) : bool :=
  existsb (fun c => match c with ChState => true | _ => false end) cs.

(** [s1] is the store at the moment [state$] is subscribed for the first
    time in the session [createStore; evs]: either an outside subscriber
    is the first, after the events [pre], nobody having subscribed before;
    or the effect is, while [createStore] opens its channels, after the
    channels [cs1], none of which is a subscription to [state$]. *)
Inductive first_subscription (fuel : nat) (R : Reducer State)
  (rootEffect : option (Effect State Mem)) (evs : list event)
  (s1 : store State Mem) : Prop :=
| first_outside (pre post : list event) (x : nat) :
    evs = pre ++ SubscribeState x :: post ->
    session fuel R rootEffect pre = Some s1 ->
    connected s1 = false ->
    first_subscription fuel R rootEffect evs s1
| first_by_effect (eff : Effect State Mem) (cs1 cs2 : list channel) :
    rootEffect = Some eff ->
    eff_channels eff = cs1 ++ ChState :: cs2 ->
    opens_state cs1 = false ->
    open_channels R (next R fuel) 0 cs1
      (remember eff (eff_init eff) (count_registration (initial Mem R)))
    = Some s1 ->
    first_subscription fuel R rootEffect evs s1.

End FirstSubscription.

Section AnchoredStore.

Variables State Mem : Type.
Variable R : Reducer State.

(** The store is sound and the second call of its reducer is [c]. *)
Definition anchored (c : option State * Action) (s : store State Mem) : Prop :=
  sound R s /\ nth_error (reducer_calls s) 1 = Some c.

End AnchoredStore.

Section Deliveries.

Variables State Mem : Type.

(** From [s] to [s'] the states [added] were computed and replayable, and
    subscriber [x] of [state$] was handed [got]: every one of the states
    added, once for each time [x] listens, in some order. *)
Definition delivers (x : nat) (s s' : store State Mem) : Prop :=
  listeners x s' = listeners x s /\
  exists added got,
    replay_events s' = replay_events s ++ added /\
    states_seen x s' = states_seen x s ++ got /\
    Permutation got (flat_map (fun v => repeat v (listeners x s)) added).

End Deliveries.

(** An effect that listens to the state stream and answers the state 2
    with the action [B],
    [(action$, state$) => state$.pipe(filter(s => s === 2), mapTo({type: 'B'}))]. *)
Definition echoing : Effect nat unit :=
  {| eff_channels := [ChState];
     eff_init := tt;
     eff_handle := fun _ i m =>
       match i with
       | InState v => if Nat.eqb v 2 then (m, [ACTION_B]) else (m, [])
       | _ => (m, [])
       end |}.

(** The store with [answering] after one dispatch, and the one in which a
    second subscriber joins after that dispatch. *)
Definition early_store : store nat unit :=
  store_of (session 2 counter (Some answering) [Dispatch ACTION_A]).
Definition joined_store : store nat unit :=
  store_of (session 2 counter (Some answering)
              ([SubscribeState 1; Dispatch ACTION_A]
               ++ SubscribeState 2 :: [Dispatch ACTION_A])).


(* ===================================================================== *)
(** * Part II. Lemmas and theorems                                         *)
(* ===================================================================== *)

(* --------------------------------------------------------------------- *)
(** ** Strict equality and objects *)

Lemma strict_eq_true (a b : value) : strict_eq a b = true -> a = b.
Proof.
  destruct a, b; simpl; try discriminate; intros H; try reflexivity.
  - apply Bool.eqb_prop in H. now subst.
  - apply Z.eqb_eq in H. now subst.
  - apply String.eqb_eq in H. now subst.
  - apply Nat.eqb_eq in H. now subst.
  - apply String.eqb_eq in H. now subst.
Qed.

Lemma strict_eq_NaN (a : value) : strict_eq VNaN a = false.
Proof. reflexivity. Qed.

Lemma find_own_set_same (o : object) (k : string) (v : value) :
  find_own (set_own o k v) k = Some v.
Proof.
  induction o as [|[k' v'] o IH]; simpl.
  - now rewrite String.eqb_refl.
  - destruct (String.eqb k' k) eqn:Hk; simpl; rewrite Hk; auto.
Qed.

Lemma find_own_set_other (o : object) (k k' : string) (v : value) :
  k <> k' -> find_own (set_own o k v) k' = find_own o k'.
Proof.
  intros Hne. induction o as [|[k0 v0] o IH]; simpl.
  - destruct (String.eqb k k') eqn:Hk; [apply String.eqb_eq in Hk; contradiction | reflexivity].
  - destruct (String.eqb k0 k) eqn:Hk; simpl.
    + apply String.eqb_eq in Hk. subst k0.
      destruct (String.eqb k k') eqn:Hk'; [apply String.eqb_eq in Hk'; contradiction | reflexivity].
    + now rewrite IH.
Qed.

Lemma obj_at_old (h ext : heap) (l : loc) :
  l < List.length h -> obj_at (h ++ ext) l = obj_at h l.
Proof. intros Hl. unfold obj_at. now apply app_nth1. Qed.

Lemma obj_at_new (h : heap) (o : object) : obj_at (h ++ [o]) (List.length h) = o.
Proof. unfold obj_at. rewrite app_nth2, Nat.sub_diag; [reflexivity | lia]. Qed.

Section ReadingFacts.

Context {RT : Runtime}.

(** Allocation leaves what the existing objects hold alone. *)
Lemma get_prop_old (h ext : heap) (l : loc) (k : string) :
  l < List.length h -> get_prop (h ++ ext) (VRef l) k = get_prop h (VRef l) k.
Proof. intros Hl. simpl. now rewrite obj_at_old. Qed.

(** [{...o, [k]: v}[k]] is [v], also when [v] is [undefined] and the
    prototype has the key. *)
Lemma get_prop_set_same (h : heap) (o : object) (k : string) (v : value) :
  get_prop (h ++ [set_own o k v]) (VRef (List.length h)) k = v.
Proof. simpl. now rewrite obj_at_new, find_own_set_same. Qed.

Lemma get_prop_set_other (h : heap) (l : loc) (k k' : string) (v : value) :
  l < List.length h -> k <> k' ->
  get_prop (h ++ [set_own (obj_at h l) k v]) (VRef (List.length h)) k'
  = get_prop h (VRef l) k'.
Proof.
  intros Hl Hk. simpl. now rewrite obj_at_new, find_own_set_other.
Qed.

(** The empty object holds what its prototype holds. *)
Lemma get_prop_empty (h : heap) (k : string) :
  get_prop (h ++ [[]]) (VRef (List.length h)) k = inherited k.
Proof. simpl. now rewrite obj_at_new. Qed.

End ReadingFacts.

(* --------------------------------------------------------------------- *)
(** ** [createAction] *)

Lemma createAction_type (ty : string) (pl : value) : type (createAction ty pl) = ty.
Proof. unfold createAction. now destruct (strict_eq pl VUndefined). Qed.

(** C8, as stated, fails: at the empty type, which is malformed, the call
    returns an action that carries it. *)
Lemma createAction_accepts_empty_type :
  malformed_type EmptyString /\
  createAction EmptyString VUndefined = {| type := EmptyString; payload := None |}.
Proof. split; reflexivity. Qed.

(** C8, amended: [createAction] validates nothing. For every type, the
    empty string included, it returns an action whose type is the one it
    was given, and whose payload is absent exactly when the payload
    argument is [undefined]. *)
Theorem createAction_total (ty : string) (pl : value) :
  type (createAction ty pl) = ty /\
  payload (createAction ty pl) =
    match pl with
    | VUndefined => None
    | _ => Some pl
    end.
Proof. destruct pl; split; reflexivity. Qed.

(* --------------------------------------------------------------------- *)
(** ** [select] *)

Lemma last_emitted_snoc (out : list value) (v : value) :
  last_emitted (out ++ [v]) = Some v.
Proof. unfold last_emitted. now rewrite rev_unit. Qed.

(** The key a [distinctUntilChanged] subscriber compares with is the last
    value it emitted. *)
Lemma distinct_key_last (src : list value) (st : distinct_state) :
  d_key st = last_emitted (d_out st) ->
  d_key (fold_left distinct_next src st)
  = last_emitted (d_out (fold_left distinct_next src st)).
Proof.
  revert st. induction src as [|v src IH]; intros st Hst; simpl; [exact Hst|].
  apply IH. unfold distinct_next.
  destruct (d_key st) as [k|] eqn:Hk.
  - destruct (strict_eq k v); simpl.
    + now rewrite Hk in *.
    + now rewrite last_emitted_snoc.
  - simpl. now rewrite last_emitted_snoc.
Qed.

Lemma distinctUntilChanged_snoc (src : list value) (v : value) :
  distinctUntilChanged (src ++ [v]) =
  distinctUntilChanged src ++
    match last_emitted (distinctUntilChanged src) with
    | Some k => if strict_eq k v then [] else [v]
    | None => [v]
    end.
Proof.
  unfold distinctUntilChanged. rewrite fold_left_app. simpl.
  set (st := fold_left distinct_next src _).
  assert (Hk : d_key st = last_emitted (d_out st))
    by (apply distinct_key_last; reflexivity).
  unfold distinct_next. rewrite <- Hk.
  destruct (d_key st) as [k|]; [|reflexivity].
  destruct (strict_eq k v); simpl; [now rewrite app_nil_r | reflexivity].
Qed.

Section SelectFacts.

Context {RT : Runtime}.

(** C9: when the source emits one more value [v], the derived stream
    emits the projection of [v] if and only if it differs, by [===], from
    the last projection the derived stream emitted (or nothing was emitted
    yet); otherwise it emits nothing. This holds in mapper mode and in
    path mode. *)
Theorem select_emits_iff_changed (h : heap) (sel : selector)
  (src : list value) (v : value) :
  select h sel (src ++ [v]) =
  select h sel src ++
    match last_emitted (select h sel src) with
    | Some k => if strict_eq k (projection h sel v) then [] else [projection h sel v]
    | None => [projection h sel v]
    end.
Proof.
  unfold select. rewrite map_app. simpl. apply distinctUntilChanged_snoc.
Qed.

End SelectFacts.

Section SelectSamples.

#[local] Existing Instance sample_runtime.

(** Path mode on [{a: {b: X}}] values: a repeated [X] is dropped, a
    missing key projects to [undefined]. *)
Example select_path :
  select nested_heap (Path "a" ["b"%string]) nested_states
  = [VNum 1; VNum 2; VUndefined; VNum 1].
Proof. reflexivity. Qed.

Example select_mapper :
  select nested_heap (Mapper (fun v => get_prop nested_heap v "a")) nested_states
  = [VRef 0; VRef 2; VUndefined; VRef 0].
Proof. reflexivity. Qed.

(** [NaN] differs from itself, so it is never suppressed. *)
Example select_NaN :
  select [] (Mapper (fun _ => VNaN)) [VNull; VNull] = [VNaN; VNaN].
Proof. reflexivity. Qed.

(** Path mode reads through primitives and through the prototype, as
    [x[k]] does: the length of a string, the constructor of an object. *)
Example select_reads_like_javascript :
  select nested_heap (Path "length" []) [VStr "abc"; VStr "xyz"; VStr "ab"]
  = [VNum 3; VNum 2] /\
  select nested_heap (Path "1" []) [VStr "abc"] = [VStr "b"] /\
  select nested_heap (Path "toFixed" []) [VNum 5]
  = [VNative "Number.prototype.toFixed"] /\
  select nested_heap (Path "a" ["constructor"%string]) [VRef 1]
  = [VNative "Object"].
Proof. repeat split. Qed.

End SelectSamples.

(* --------------------------------------------------------------------- *)
(** ** [combineReducers] *)

Section CombineFacts.

Context {RT : Runtime}.

Lemma combine_inv_start (h0 : heap) (prev : loc) :
  prev < List.length h0 ->
  combine_inv h0 prev [] {| cs_heap := h0; cs_acc := prev; cs_calls := [] |}.
Proof.
  intros Hp. split; simpl; auto; try contradiction; try discriminate.
  exists []. now rewrite app_nil_r.
Qed.

Lemma combine_inv_step (h0 : heap) (prev : loc) (done : list (string * FieldReducer))
  (st : combine_state) (action : Action) (f : string) (r : FieldReducer) :
  combine_inv h0 prev done st ->
  allocates_only r ->
  ~ In f (map fst done) ->
  combine_inv h0 prev (done ++ [(f, r)]) (combine_step action st (f, r)).
Proof.
  intros [[ext Hh] Hacc Hsame Hfresh Hfields Hprev Hnext Hrest] Hr Hf.
  unfold combine_step. cbn [fst snd].
  remember (get_prop (cs_heap st) (VRef (cs_acc st)) f) as p eqn:Hpdef.
  assert (Hp : p = get_prop h0 (VRef prev) f) by (subst p; apply Hrest; exact Hf).
  destruct (Hr (cs_heap st) p action) as [ext' Hext'].
  destruct (r (cs_heap st) p action) as [n h1] eqn:Hcall. simpl in Hext'. subst h1.
  assert (Hold : forall g, get_prop (cs_heap st ++ ext') (VRef (cs_acc st)) g
                           = get_prop (cs_heap st) (VRef (cs_acc st)) g).
  { intros g. now apply get_prop_old. }
  unfold strict_neq. destruct (strict_eq p n) eqn:Heq; simpl.
  - (* the field reducer returned its previous sub-state *)
    pose proof Heq as Heqb. apply strict_eq_true in Heq.
    split; cbn [cs_heap cs_acc cs_calls].
    + exists (ext ++ ext'). now rewrite Hh, app_assoc.
    + rewrite length_app. lia.
    + rewrite forallb_app. intros H. apply andb_true_iff in H. tauto.
    + rewrite forallb_app. simpl. unfold unchanged at 2. simpl.
      rewrite Heqb. rewrite !andb_true_r. exact Hfresh.
    + rewrite !map_app, Hfields. reflexivity.
    + intros c Hc. apply in_app_or in Hc as [Hc|[<-|[]]]; [now apply Hprev | exact Hp].
    + intros c Hc. rewrite Hold.
      apply in_app_or in Hc as [Hc|[<-|[]]]; [now apply Hnext | cbn [c_field c_next]; congruence].
    + intros g Hg. rewrite Hold. apply Hrest.
      intros Hin. apply Hg. rewrite map_app. apply in_or_app. now left.
  - (* it returned something else: a new aggregate is allocated *)
    split; cbn [cs_heap cs_acc cs_calls].
    + exists (ext ++ ext' ++ [set_own (obj_at (cs_heap st ++ ext') (cs_acc st)) f n]).
      now rewrite Hh, <- !app_assoc.
    + rewrite !length_app. simpl. lia.
    + rewrite forallb_app. simpl. unfold unchanged at 2. simpl.
      rewrite Heq. rewrite andb_false_r. discriminate.
    + intros _. rewrite Hh, !length_app. lia.
    + rewrite !map_app, Hfields. reflexivity.
    + intros c Hc. apply in_app_or in Hc as [Hc|[<-|[]]]; [now apply Hprev | exact Hp].
    + assert (Hacc' : cs_acc st < List.length (cs_heap st ++ ext'))
        by (rewrite length_app; lia).
      intros c Hc. apply in_app_or in Hc as [Hc|[<-|[]]]; cbn [c_field c_next].
      * rewrite get_prop_set_other, Hold; [now apply (Hnext c) | exact Hacc' |].
        intros E. apply Hf. rewrite <- Hfields, E. now apply in_map.
      * apply get_prop_set_same.
    + assert (Hacc' : cs_acc st < List.length (cs_heap st ++ ext'))
        by (rewrite length_app; lia).
      intros g Hg.
      assert (Hgf : f <> g).
      { intros <-. apply Hg. rewrite map_app. apply in_or_app. right. now left. }
      rewrite get_prop_set_other, Hold by assumption. apply Hrest.
      intros Hin. apply Hg. rewrite map_app. apply in_or_app. now left.
Qed.

Lemma combine_inv_fold (h0 : heap) (prev : loc) (action : Action)
  (todo done : list (string * FieldReducer)) (st : combine_state) :
  combine_inv h0 prev done st ->
  (forall f r, In (f, r) todo -> allocates_only r) ->
  NoDup (map fst (done ++ todo)) ->
  combine_inv h0 prev (done ++ todo) (fold_left (combine_step action) todo st).
Proof.
  revert done st. induction todo as [|[f r] todo IH]; intros done st Hinv Hall Hnd.
  - now rewrite app_nil_r.
  - simpl. replace (done ++ (f, r) :: todo) with ((done ++ [(f, r)]) ++ todo)
      by (now rewrite <- app_assoc).
    apply IH.
    + apply combine_inv_step; [exact Hinv | apply (Hall f r); now left |].
      rewrite map_app in Hnd. simpl in Hnd.
      apply NoDup_remove_2 in Hnd. intros Hin. apply Hnd.
      apply in_or_app. now left.
    + intros f' r' Hin. apply (Hall f' r'). now right.
    + now rewrite <- app_assoc.
Qed.


(** *** The recorded calls are the calls of the field reducers *)

Lemma combine_step_calls (action : Action) (st : combine_state) (f : string)
  (r : FieldReducer) :
  cs_calls (combine_step action st (f, r))
  = cs_calls st
    ++ [mkCall f (get_prop (cs_heap st) (VRef (cs_acc st)) f)
               (fst (r (cs_heap st)
                       (get_prop (cs_heap st) (VRef (cs_acc st)) f) action))].
Proof.
  unfold combine_step. cbn [fst snd].
  destruct (r (cs_heap st) (get_prop (cs_heap st) (VRef (cs_acc st)) f) action)
    as [n h1].
  now destruct (strict_neq _ n).
Qed.

Lemma combine_calls_fold (h0 : heap) (prev : loc) (action : Action)
  (todo done : list (string * FieldReducer)) (st : combine_state) :
  combine_inv h0 prev done st ->
  Forall2 (call_of h0 prev action) (cs_calls st) done ->
  (forall f r, In (f, r) todo -> allocates_only r) ->
  NoDup (map fst (done ++ todo)) ->
  Forall2 (call_of h0 prev action)
          (cs_calls (fold_left (combine_step action) todo st)) (done ++ todo).
Proof.
  revert done st.
  induction todo as [|[f r] todo IH]; intros done st Hinv Hcalls Hall Hnd.
  - now rewrite app_nil_r.
  - simpl. replace (done ++ (f, r) :: todo) with ((done ++ [(f, r)]) ++ todo)
      by (now rewrite <- app_assoc).
    assert (Hf : ~ In f (map fst done)).
    { rewrite map_app in Hnd. simpl in Hnd. apply NoDup_remove_2 in Hnd.
      intros Hin. apply Hnd. apply in_or_app. now left. }
    apply IH.
    + apply combine_inv_step; [exact Hinv | apply (Hall f r); now left | exact Hf].
    + rewrite combine_step_calls. apply Forall2_app; [exact Hcalls|].
      constructor; [|constructor].
      destruct (ci_heap Hinv) as [ext Hext].
      split; [reflexivity|]. cbn [c_prev c_next fst snd].
      split; [apply (ci_rest Hinv); exact Hf|].
      exists ext. now rewrite Hext.
    + intros f' r' Hin. apply (Hall f' r'). now right.
    + now rewrite <- app_assoc.
Qed.

Lemma Forall2_pick_l (X Y : Type) (P : X -> Y -> Prop) (l1 : list X)
  (l2 : list Y) (x : X) :
  Forall2 P l1 l2 -> In x l1 -> exists y, In y l2 /\ P x y.
Proof.
  induction 1 as [|a b l1 l2 Hab _ IH]; intros Hin; [contradiction|].
  destruct Hin as [<-|Hin].
  - exists b. split; [now left | exact Hab].
  - destruct (IH Hin) as (y & Hy & Hxy). exists y. split; [now right | exact Hxy].
Qed.

Lemma Forall2_pick_r (X Y : Type) (P : X -> Y -> Prop) (l1 : list X)
  (l2 : list Y) (y : Y) :
  Forall2 P l1 l2 -> In y l2 -> exists x, In x l1 /\ P x y.
Proof.
  induction 1 as [|a b l1 l2 Hab _ IH]; intros Hin; [contradiction|].
  destruct Hin as [<-|Hin].
  - exists a. split; [now left | exact Hab].
  - destruct (IH Hin) as (x & Hx & Hxy). exists x. split; [now right | exact Hxy].
Qed.

(** What the [reduce] returns, told by what the field reducers return:
    the accumulator it ends with is [prev] if every reducer returns its
    sub-state, an object allocated since [h0] if one of them does not, and
    it holds for every field what the field's reducer returned. *)
Lemma combine_outcome (h0 : heap) (prev : loc) (action : Action)
  (reducers : list (string * FieldReducer)) :
  prev < List.length h0 ->
  NoDup (map fst reducers) ->
  (forall f r, In (f, r) reducers -> allocates_only r) ->
  let st := fold_left (combine_step action) reducers
                      {| cs_heap := h0; cs_acc := prev; cs_calls := [] |} in
  (exists ext, cs_heap st = h0 ++ ext) /\
  cs_acc st < List.length (cs_heap st) /\
  (cs_acc st = prev \/ List.length h0 <= cs_acc st) /\
  (Forall (returns_same h0 prev action) reducers -> cs_acc st = prev) /\
  (Exists (returns_other h0 prev action) reducers ->
   List.length h0 <= cs_acc st) /\
  (forall f r, In (f, r) reducers ->
     exists ext,
       get_prop (cs_heap st) (VRef (cs_acc st)) f
       = fst (r (h0 ++ ext) (get_prop h0 (VRef prev) f) action)).
Proof.
  intros Hprev Hnd Hall st.
  pose proof (@combine_inv_fold h0 prev action reducers [] _
                (@combine_inv_start h0 prev Hprev) Hall Hnd) as Hinv.
  pose proof (@combine_calls_fold h0 prev action reducers [] _
                (@combine_inv_start h0 prev Hprev) (Forall2_nil _) Hall Hnd)
    as Hcalls.
  cbn [app] in Hinv, Hcalls. fold st in Hinv, Hcalls.
  split; [exact (ci_heap Hinv)|]. split; [exact (ci_acc Hinv)|].
  split; [|split; [|split]].
  - destruct (forallb unchanged (cs_calls st)) eqn:E.
    + left. now apply (ci_same Hinv).
    + right. now apply (ci_fresh Hinv).
  - intros Hsame. apply (ci_same Hinv). apply forallb_forall. intros c Hc.
    destruct (Forall2_pick_l c Hcalls Hc) as (e & He & _ & Hp & ext & Hn).
    rewrite Forall_forall in Hsame. specialize (Hsame e He ext).
    unfold unchanged. now rewrite Hn, Hp.
  - intros Hother. apply (ci_fresh Hinv).
    apply Exists_exists in Hother as (e & He & Hother).
    destruct (Forall2_pick_r e Hcalls He) as (c & Hc & _ & Hp & ext & Hn).
    destruct (forallb unchanged (cs_calls st)) eqn:E; [|reflexivity].
    rewrite forallb_forall in E. specialize (E c Hc). unfold unchanged in E.
    rewrite Hn, Hp, (Hother ext) in E. discriminate.
  - intros f r Hin.
    destruct (Forall2_pick_r (f, r) Hcalls Hin) as (c & Hc & Hf & Hp & ext & Hn).
    cbn [fst snd] in Hf, Hp, Hn. exists ext.
    rewrite <- Hf, (ci_next Hinv c Hc), Hn, Hp, Hf. reflexivity.
Qed.

(** C7: let the composed reducer run on a previous aggregate [prev] that
    exists in the heap [h]. If every field reducer, called on the
    sub-state [prev] holds for its field, returns a value [===] to that
    sub-state, the result is [prev] itself. If some field reducer returns
    another value, the result is an object that did not exist before the
    call. In both cases the result holds, for every field of the mapping,
    the value the field's reducer returned. *)
Theorem combineReducers_reference_stable
  (reducers : list (string * FieldReducer)) (h : heap) (prev : loc)
  (action : Action) :
  prev < List.length h ->
  NoDup (map fst reducers) ->
  (forall f r, In (f, r) reducers -> allocates_only r) ->
  let res := fst (combineReducers reducers h (Some prev) action) in
  let h' := snd (combineReducers reducers h (Some prev) action) in
  (exists ext, h' = h ++ ext) /\
  (Forall (returns_same h prev action) reducers -> res = prev) /\
  (Exists (returns_other h prev action) reducers ->
   List.length h <= res /\ res < List.length h' /\ res <> prev) /\
  (forall f r, In (f, r) reducers ->
     exists ext,
       get_prop h' (VRef res) f
       = fst (r (h ++ ext) (get_prop h (VRef prev) f) action)).
Proof.
  intros Hprev Hnd Hall. unfold combineReducers, combine_run. cbn [fst snd].
  destruct (@combine_outcome h prev action reducers Hprev Hnd Hall)
    as (Hext & Hacc & _ & Hsame & Hother & Hfields).
  split; [exact Hext|]. split; [exact Hsame|]. split; [|exact Hfields].
  intros Hex. specialize (Hother Hex). repeat split; [exact Hother | exact Hacc | lia].
Qed.

End CombineFacts.

Section CombineSamples.

#[local] Existing Instance sample_runtime.

Lemma sample_reducers_NoDup : NoDup (map fst sample_reducers).
Proof. simpl. repeat constructor; simpl; intuition discriminate. Qed.

Lemma sample_reducers_allocate (f : string) (r : FieldReducer) :
  In (f, r) sample_reducers -> allocates_only r.
Proof.
  intros [E|[E|[]]]; inversion E; intros h v a; exists []; simpl;
    now rewrite app_nil_r.
Qed.

(** On [{a: 1, b: 2}] the reducer of [b] returns 3: the result is a new
    object, and it holds 1 and 3. *)
Lemma combineReducers_reference_stable_witness :
  let res := fst (combineReducers sample_reducers sample_heap (Some 0) TICK) in
  let h' := snd (combineReducers sample_reducers sample_heap (Some 0) TICK) in
  (List.length sample_heap <= res /\ res < List.length h' /\ res <> 0) /\
  (exists ext,
     get_prop h' (VRef res) "b"
     = fst (bump_field (sample_heap ++ ext)
                       (get_prop sample_heap (VRef 0) "b") TICK)).
Proof.
  destruct (@combineReducers_reference_stable sample_runtime sample_reducers
              sample_heap 0 TICK)
    as (_ & _ & Hother & Hfields).
  - simpl. lia.
  - exact sample_reducers_NoDup.
  - exact sample_reducers_allocate.
  - split.
    + apply Hother. apply Exists_cons_tl, Exists_cons_hd. intros ext. reflexivity.
    + apply (Hfields "b"%string bump_field). simpl. now right; left.
Defined.

Example combineReducers_changed :
  combineReducers sample_reducers sample_heap (Some 0) TICK
  = (1, sample_heap ++ [[("a"%string, VNum 1); ("b"%string, VNum 3)]]).
Proof. reflexivity. Qed.

(** Without a previous aggregate the default [{}] is allocated first; a
    field whose reducer answers [undefined] to [undefined] stays absent. *)
Example combineReducers_initial :
  combineReducers sample_reducers [] None TICK
  = (1, [[]; [("b"%string, VNum 0)]]).
Proof. reflexivity. Qed.

Example combineReducers_unchanged :
  combineReducers [("a"%string, keep_field)] sample_heap (Some 0) TICK
  = (0, sample_heap).
Proof. reflexivity. Qed.

(** A field named like a member of [Object.prototype]: on the default
    [{}] its reducer is called on what the prototype holds, not on
    [undefined], and a reducer that returns what it is given leaves the
    field absent. *)
Example combineReducers_inherited_key :
  cs_calls (combine_run [("constructor"%string, keep_field)] [] None TICK)
  = [mkCall "constructor" (VNative "Object") (VNative "Object")] /\
  combineReducers [("constructor"%string, keep_field)] [] None TICK = (0, [[]]).
Proof. split; reflexivity. Qed.

End CombineSamples.

(* --------------------------------------------------------------------- *)
(** ** The store: what every delivery preserves *)

Section StoreFacts.

Variables State Mem : Type.
Variable R : Reducer State.

Local Abbreviation store := (store State Mem).

Lemma each_app (X : Type) (f : X -> store -> option store) (l1 l2 : list X)
  (s : store) :
  each f (l1 ++ l2) s =
  match each f l1 s with
  | Some s' => each f l2 s'
  | None => None
  end.
Proof.
  revert s. induction l1 as [|x l1 IH]; intros s; simpl; [reflexivity|].
  destruct (f x s); [apply IH | reflexivity].
Qed.

Lemma same_wiring_refl (s : store) : same_wiring s s.
Proof. repeat split. Qed.

Lemma same_wiring_trans (s1 s2 s3 : store) :
  same_wiring s1 s2 -> same_wiring s2 s3 -> same_wiring s1 s3.
Proof. unfold same_wiring. intuition congruence. Qed.

(** *** Subscriptions from outside, in closed form *)

Lemma see_all_snoc (os : list (observation State)) (o : observation State)
  (s : store) :
  see_all (os ++ [o]) s = see o (see_all os s).
Proof. unfold see_all. now rewrite fold_left_app. Qed.

Lemma replay_to_ext (dispatch : Action -> store -> option store) (x : nat)
  (l : list State) (s : store) :
  each (fun v => notify_state dispatch v (SExt x)) l s
  = Some (see_all (map (SawState x) l) s).
Proof.
  revert s. induction l as [|v l IH]; intros s; simpl; [reflexivity | apply IH].
Qed.

Lemma subscribe_action_ext (dispatch : Action -> store -> option store)
  (x : nat) (s : store) :
  subscribe_action R dispatch (AExt x) s
  = Some (see (SawAction x (act_value s)) (add_action_observer (AExt x) s)).
Proof. reflexivity. Qed.

Lemma subscribe_state_ext_joined (dispatch : Action -> store -> option store)
  (x : nat) (s : store) :
  connected s = true ->
  subscribe_state R dispatch (SExt x) s
  = Some (see_all (map (SawState x) (replay_events s))
                  (add_state_observer (SExt x) s)).
Proof.
  intros Hc. unfold subscribe_state. rewrite Hc. apply replay_to_ext.
Qed.

Lemma subscribe_state_first (dispatch : Action -> store -> option store)
  (o : state_observer) (s : store) :
  connected s = false ->
  subscribe_state R dispatch o s
  = each (notify_state dispatch (R (Some (scan_acc s)) (act_value s)))
         (state_observers s ++ [o]) (start_sharing R o s).
Proof. intros Hc. unfold subscribe_state. now rewrite Hc. Qed.

Lemma subscribe_state_ext_first (dispatch : Action -> store -> option store)
  (x : nat) (s : store) :
  connected s = false ->
  state_observers s = [] ->
  subscribe_state R dispatch (SExt x) s
  = Some (see (SawState x (R (Some (scan_acc s)) (act_value s)))
              (start_sharing R (SExt x) s)).
Proof.
  intros Hc Hso. rewrite subscribe_state_first by exact Hc. now rewrite Hso.
Qed.

Section Invariant.

(** A property of stores is an invariant of everything a store can do as
    soon as the elementary updates preserve it, each where it occurs. *)
Variable P : store -> Prop.

Hypothesis P_publish : forall a s, P s -> P (publish a s).
Hypothesis P_see_action : forall x a s, P s -> P (see (SawAction x a) s).
Hypothesis P_see_state : forall x v s,
  In (SExt x) (state_observers s) -> P s -> P (see (SawState x v) s).
Hypothesis P_remember : forall eff m m' s,
  eff_running s = Some (eff, m) -> P s -> P (remember eff m' s).
Hypothesis P_scan_push : forall a s,
  In (AScan) (act_observers s) -> P s -> P (scan_push R a s).

Lemma each_keeps (X : Type) (f : X -> store -> option store) (l : list X)
  (s0 : store) :
  (forall x s s', In x l -> same_wiring s0 s -> f x s = Some s' ->
                  same_wiring s s' /\ (P s -> P s')) ->
  forall s s', same_wiring s0 s -> each f l s = Some s' ->
               same_wiring s s' /\ (P s -> P s').
Proof.
  induction l as [|x l IH]; intros Hf s s' Hw Hrun; simpl in Hrun.
  - injection Hrun as <-. split; [apply same_wiring_refl | auto].
  - destruct (f x s) as [s1|] eqn:Hx; [|discriminate].
    destruct (Hf x s s1 (or_introl eq_refl) Hw Hx) as [Hw1 Hp1].
    destruct (IH (fun y t t' Hy => Hf y t t' (or_intror Hy)) s1 s'
                 (same_wiring_trans Hw Hw1) Hrun) as [Hw2 Hp2].
    split; [eapply same_wiring_trans; eauto | auto].
Qed.

Section WithDispatch.

Variable dispatch : Action -> store -> option store.
Hypothesis dispatch_keeps : forall a, keeps P (dispatch a).

Lemma emit_keeps (out : list Action) : keeps P (emit dispatch out).
Proof.
  intros s s' Hrun. unfold emit in Hrun.
  apply (@each_keeps _ dispatch out s) with (s := s); auto using same_wiring_refl.
  intros a t t' _ _ Ht. eapply dispatch_keeps; eassumption.
Qed.

Lemma to_effect_keeps (k : nat) (i : input State) : keeps P (to_effect dispatch k i).
Proof.
  intros s s' Hrun. unfold to_effect in Hrun.
  destruct (eff_running s) as [[eff m]|] eqn:Heff.
  - destruct (eff_handle eff k i m) as [m' out].
    destruct (@emit_keeps out _ _ Hrun) as [Hw Hp].
    split; [exact Hw | intros Hs; apply Hp; eapply P_remember; eauto].
  - injection Hrun as <-. split; [apply same_wiring_refl | auto].
Qed.

Lemma notify_state_keeps (v : State) (o : state_observer) (s s' : store) :
  In o (state_observers s) ->
  notify_state dispatch v o s = Some s' ->
  same_wiring s s' /\ (P s -> P s').
Proof.
  intros Hin Hrun. destruct o as [x|k]; simpl in Hrun.
  - injection Hrun as <-. split; [repeat split | intros Hs; now apply P_see_state].
  - eapply to_effect_keeps; eassumption.
Qed.

Lemma notify_all_states_keeps (v : State) (s s' : store) :
  each (notify_state dispatch v) (state_observers s) s = Some s' ->
  same_wiring s s' /\ (P s -> P s').
Proof.
  intros Hrun.
  apply (@each_keeps _ (notify_state dispatch v) (state_observers s) s)
    with (s := s); auto using same_wiring_refl.
  intros o t t' Hin (_ & Hso & _) Ht.
  apply notify_state_keeps with (v := v) (o := o); [now rewrite Hso | exact Ht].
Qed.

Lemma scan_next_keeps (a : Action) (s s' : store) :
  In AScan (act_observers s) ->
  scan_next R dispatch a s = Some s' ->
  same_wiring s s' /\ (P s -> P s').
Proof.
  intros Hin Hrun. unfold scan_next in Hrun.
  destruct (@notify_all_states_keeps _ _ _ Hrun) as [Hw Hp].
  split; [exact Hw | intros Hs; apply Hp; now apply P_scan_push].
Qed.

Lemma notify_action_keeps (a : Action) (o : action_observer) (s s' : store) :
  In o (act_observers s) ->
  notify_action R dispatch a o s = Some s' ->
  same_wiring s s' /\ (P s -> P s').
Proof.
  intros Hin Hrun. destruct o as [x| |k]; simpl in Hrun.
  - injection Hrun as <-. split; [repeat split | intros Hs; now apply P_see_action].
  - now apply scan_next_keeps with (a := a).
  - eapply to_effect_keeps; eassumption.
Qed.

Lemma next_body_keeps (a : Action) : keeps P (next_body R dispatch a).
Proof.
  intros s s' Hrun. unfold next_body in Hrun.
  assert (H : same_wiring (publish a s) s' /\ (P (publish a s) -> P s')).
  { apply (@each_keeps _ (notify_action R dispatch a)
             (act_observers (publish a s)) (publish a s)) with (s := publish a s);
      auto using same_wiring_refl.
    intros o t t' Hin (Hao & _ & _) Ht.
    apply notify_action_keeps with (a := a) (o := o); [now rewrite Hao | exact Ht]. }
  destruct H as [Hw Hp]. split; [exact Hw | auto].
Qed.

End WithDispatch.

Lemma next_keeps (fuel : nat) (a : Action) : keeps P (next R fuel a).
Proof.
  revert a. induction fuel as [|fuel IH]; intros a s s' Hrun; simpl in Hrun.
  - discriminate.
  - eapply next_body_keeps; [exact IH | eassumption].
Qed.

(** *** Subscriptions and whole sessions *)

Hypothesis P_listen : forall o s,
  o <> AScan -> P s -> P (add_action_observer o s).
Hypothesis P_join_chan : forall k s,
  connected s = true -> P s -> P (add_state_observer (SChan k) s).
Hypothesis P_join_ext : forall x s,
  connected s = true -> P s ->
  P (see_all (map (SawState x) (replay_events s)) (add_state_observer (SExt x) s)).
Hypothesis P_share_chan : forall k s,
  connected s = false -> P s -> P (start_sharing R (SChan k) s).
Hypothesis P_share_ext : forall x s,
  connected s = false -> P s ->
  P (see (SawState x (R (Some (scan_acc s)) (act_value s)))
         (start_sharing R (SExt x) s)).
Hypothesis P_tidy : forall s,
  P s -> connected s = false -> state_observers s = [].
Hypothesis P_started : forall eff : Effect State Mem,
  P (remember eff (eff_init eff) (count_registration (initial Mem R))).
Hypothesis P_failed : P (fail_effects (count_registration (initial Mem R))).

Section Subscriptions.

Variable dispatch : Action -> store -> option store.
Hypothesis dispatch_keeps : forall a, keeps P (dispatch a).

Lemma subscribe_action_chan_inv (k : nat) (s s' : store) :
  subscribe_action R dispatch (AChan k) s = Some s' -> P s -> P s'.
Proof.
  unfold subscribe_action. cbn [notify_action]. intros Hrun Hs.
  destruct (@to_effect_keeps _ dispatch_keeps _ _ _ _ Hrun) as [_ Hp].
  apply Hp, P_listen; [discriminate | exact Hs].
Qed.

Lemma subscribe_state_chan_inv (k : nat) (s s' : store) :
  subscribe_state R dispatch (SChan k) s = Some s' -> P s -> P s'.
Proof.
  intros Hrun Hs. destruct (connected s) eqn:Hc.
  - unfold subscribe_state in Hrun. rewrite Hc in Hrun.
    set (s1 := add_state_observer (SChan k) s) in *.
    assert (H : same_wiring s1 s' /\ (P s1 -> P s')).
    { apply (@each_keeps _ (fun v => notify_state dispatch v (SChan k))
               (replay_events s1) s1) with (s := s1);
        auto using same_wiring_refl.
      intros v t t' _ _ Ht. cbn [notify_state] in Ht.
      eapply to_effect_keeps; eassumption. }
    apply H. now apply P_join_chan.
  - rewrite subscribe_state_first in Hrun by exact Hc.
    replace (state_observers s ++ [SChan k])
      with (state_observers (start_sharing R (SChan k) s)) in Hrun by reflexivity.
    replace (R (Some (scan_acc s)) (act_value s))
      with (scan_acc (start_sharing R (SChan k) s)) in Hrun by reflexivity.
    destruct (@notify_all_states_keeps _ dispatch_keeps _ _ _ Hrun) as [_ Hp].
    apply Hp. now apply P_share_chan.
Qed.

Lemma open_channels_inv (cs : list channel) (k : nat) (s s' : store) :
  open_channels R dispatch k cs s = Some s' -> P s -> P s'.
Proof.
  revert k s. induction cs as [|c cs IH]; intros k s Hrun Hs; simpl in Hrun.
  - now injection Hrun as <-.
  - destruct (open_channel R dispatch k c s) as [s1|] eqn:Hc; [|discriminate].
    apply (IH _ _ Hrun). destruct c; unfold open_channel in Hc.
    + eapply subscribe_action_chan_inv; eassumption.
    + eapply subscribe_state_chan_inv; eassumption.
    + now injection Hc as <-.
Qed.

End Subscriptions.

Lemma step_inv (fuel : nat) (ev : event) (s s' : store) :
  step R fuel ev s = Some s' -> P s -> P s'.
Proof.
  intros Hrun Hs. destruct ev as [a|x|x|k n]; unfold step in Hrun.
  - now apply (@next_keeps fuel a s s' Hrun).
  - destruct (connected s) eqn:Hc.
    + rewrite subscribe_state_ext_joined in Hrun by exact Hc.
      injection Hrun as <-. now apply P_join_ext.
    + rewrite subscribe_state_ext_first in Hrun by auto.
      injection Hrun as <-. now apply P_share_ext.
  - rewrite subscribe_action_ext in Hrun. injection Hrun as <-.
    apply P_see_action, P_listen; [discriminate | exact Hs].
  - destruct (@to_effect_keeps _ (next_keeps fuel) _ _ _ _ Hrun) as [_ Hp]. auto.
Qed.

Lemma run_inv (fuel : nat) (evs : list event) (s s' : store) :
  run R fuel evs s = Some s' -> P s -> P s'.
Proof.
  unfold run. revert s. induction evs as [|ev evs IH]; intros s Hrun Hs;
    simpl in Hrun.
  - now injection Hrun as <-.
  - destruct (step R fuel ev s) as [s1|] eqn:Hev; [|discriminate].
    apply (IH _ Hrun). eapply step_inv; eassumption.
Qed.

Lemma createStore_inv (fuel : nat) (rootEffect : option (Effect State Mem))
  (s : store) :
  createStore fuel R rootEffect = Some s -> P s.
Proof.
  unfold createStore, register. destruct rootEffect as [eff|]; intros Hrun.
  - eapply open_channels_inv; [apply next_keeps | eassumption | apply P_started].
  - injection Hrun as <-. apply P_failed.
Qed.

Lemma session_inv (fuel : nat) (rootEffect : option (Effect State Mem))
  (evs : list event) (s : store) :
  session fuel R rootEffect evs = Some s -> P s.
Proof.
  unfold session. destruct (createStore fuel R rootEffect) as [s0|] eqn:H0;
    [|discriminate].
  intros Hrun. eapply run_inv; [eassumption|]. eapply createStore_inv; eassumption.
Qed.

End Invariant.

End StoreFacts.


(* --------------------------------------------------------------------- *)
(** ** The store: the invariant [sound] *)

Create HintDb sound_db.

Section Soundness.

Variables State Mem : Type.
Variable R : Reducer State.

Local Abbreviation store := (store State Mem).

Lemma states_of_app (x : nat) (l1 l2 : list (observation State)) :
  states_of x (l1 ++ l2) = states_of x l1 ++ states_of x l2.
Proof.
  induction l1 as [|[y a|y v] l1 IH]; simpl; auto.
  destruct (Nat.eqb y x); simpl; now rewrite IH.
Qed.

Lemma actions_of_app (x : nat) (l1 l2 : list (observation State)) :
  actions_of x (l1 ++ l2) = actions_of x l1 ++ actions_of x l2.
Proof.
  induction l1 as [|[y a|y v] l1 IH]; simpl; auto.
  destruct (Nat.eqb y x); simpl; now rewrite IH.
Qed.

Lemma seen_see_all (os : list (observation State)) (s : store) :
  seen (see_all os s) = seen s ++ os.
Proof.
  revert s. induction os as [|o os IH]; intros s; simpl.
  - now rewrite app_nil_r.
  - rewrite IH. simpl. now rewrite <- app_assoc.
Qed.

Lemma states_of_replayed (x y : nat) (l : list State) :
  states_of y (map (SawState x) l) = if Nat.eqb x y then l else [].
Proof.
  induction l as [|v l IH]; simpl; [now destruct (Nat.eqb x y)|].
  rewrite IH. now destruct (Nat.eqb x y).
Qed.

Lemma states_seen_see_state (x y : nat) (v : State) (s : store) :
  states_seen y (see (SawState x v) s)
  = states_seen y s ++ (if Nat.eqb x y then [v] else []).
Proof. unfold states_seen. simpl. now rewrite states_of_app. Qed.

Lemma states_seen_see_action (x y : nat) (a : Action) (s : store) :
  states_seen y (see (SawAction x a) s) = states_seen y s.
Proof. unfold states_seen. simpl. rewrite states_of_app. simpl. apply app_nil_r. Qed.

Lemma states_seen_see_all (y : nat) (os : list (observation State)) (s : store) :
  states_seen y (see_all os s) = states_seen y s ++ states_of y os.
Proof. unfold states_seen. now rewrite seen_see_all, states_of_app. Qed.

Lemma hd_error_app_nonempty (X : Type) (l l' : list X) :
  l <> [] -> hd_error (l ++ l') = hd_error l.
Proof. destruct l; [contradiction | reflexivity]. Qed.

Lemma computed_states_snoc (calls : list (option State * Action))
  (c : option State * Action) :
  calls <> [] ->
  map (fun c => R (fst c) (snd c)) (tl (calls ++ [c]))
  = map (fun c => R (fst c) (snd c)) (tl calls) ++ [R (fst c) (snd c)].
Proof.
  destruct calls as [|c0 calls]; [contradiction|]. intros _. simpl.
  now rewrite map_app.
Qed.

(** A store that is not shared yet has replayed nothing and shown no state
    to anybody. *)
Lemma sound_idle_replay (s : store) :
  sound R s -> connected s = false -> replay_events s = [].
Proof.
  intros Hs Hc. rewrite (w_replay Hs). unfold computed_states.
  destruct (w_idle Hs Hc) as (_ & -> & _). reflexivity.
Qed.

Lemma sound_idle_unseen (s : store) (x : nat) :
  sound R s -> connected s = false -> states_seen x s = [].
Proof.
  intros Hs Hc. destruct (states_seen x s) as [|v l] eqn:Hx; [reflexivity|].
  assert (H : hd_error (replay_events s) = Some v)
    by (apply (w_first Hs x); now rewrite Hx).
  rewrite (sound_idle_replay Hs Hc) in H. discriminate.
Qed.

Lemma sound_live_replay (s : store) :
  sound R s -> connected s = true -> replay_events s <> [].
Proof.
  intros Hs Hc. rewrite (w_replay Hs). unfold computed_states.
  destruct (w_live Hs Hc) as (a0 & rest & ->). discriminate.
Qed.

Lemma sound_publish (a : Action) (s : store) : sound R s -> sound R (publish a s).
Proof.
  intros [H1 H2 H3 H4 H5 H6 H7 H8 H9 H10 H11]. split; auto.
  - simpl. now rewrite last_last.
  - simpl. intros E. apply app_eq_nil in E as [_ E]. discriminate.
Qed.

Lemma sound_see_action (x : nat) (a : Action) (s : store) :
  sound R s -> sound R (see (SawAction x a) s).
Proof.
  intros [H1 H2 H3 H4 H5 H6 H7 H8 H9 H10 H11]. split; auto.
  - intros y Hy. rewrite states_seen_see_action. now apply H7.
  - intros y v. rewrite states_seen_see_action. apply H8.
Qed.

Lemma sound_see_state (x : nat) (v : State) (s : store) :
  In (SExt x) (state_observers s) -> sound R s -> sound R (see (SawState x v) s).
Proof.
  intros Hx [H1 H2 H3 H4 H5 H6 H7 H8 H9 H10 H11]. split; auto.
  - intros y Hy. rewrite states_seen_see_state.
    intros E. apply app_eq_nil in E as [E _]. revert E. now apply H7.
  - intros y w. rewrite states_seen_see_state.
    destruct (Nat.eqb x y) eqn:Exy.
    + apply Nat.eqb_eq in Exy. subst y.
      rewrite hd_error_app_nonempty by (now apply H7). apply H8.
    + rewrite app_nil_r. apply H8.
Qed.

Lemma sound_remember (eff : Effect State Mem) (m : Mem) (s : store) :
  sound R s -> sound R (remember eff m s).
Proof. intros [H1 H2 H3 H4 H5 H6 H7 H8 H9 H10 H11]. split; auto. Qed.

Lemma sound_scan_push (a : Action) (s : store) :
  In AScan (act_observers s) -> sound R s -> sound R (scan_push R a s).
Proof.
  intros Hin Hs. pose proof (w_scan Hs Hin) as Hc.
  pose proof (sound_live_replay Hs Hc) as Hne.
  destruct Hs as [H1 H2 H3 H4 H5 H6 H7 H8 H9 H10 H11].
  destruct (H5 Hc) as (a0 & rest & Hcalls).
  split; auto; simpl.
  - rewrite H3. unfold computed_states. simpl.
    rewrite computed_states_snoc; [reflexivity | rewrite Hcalls; discriminate].
  - intros Hc'. simpl in Hc'. congruence.
  - intros _. exists a0, (rest ++ [(Some (scan_acc s), a)]).
    now rewrite Hcalls.
  - intros x v Hx. rewrite hd_error_app_nonempty by exact Hne. now apply (H8 x).
  - intros Hp st a1 rest' E. rewrite Hcalls in E. simpl in E.
    injection E as E1 E2 E3. subst. now apply (H9 Hp _ _ _ Hcalls).
  - now rewrite last_last.
Qed.

Lemma sound_listen (o : action_observer) (s : store) :
  o <> AScan -> sound R s -> sound R (add_action_observer o s).
Proof.
  intros Ho [H1 H2 H3 H4 H5 H6 H7 H8 H9 H10 H11]. split; auto.
  - simpl. intros Hin. apply in_app_or in Hin as [Hin|[E|[]]]; [auto | congruence].
  - simpl. rewrite filter_app, length_app. simpl.
    destruct o; simpl; try congruence; now rewrite Nat.add_0_r.
Qed.

Lemma sound_join_chan (k : nat) (s : store) :
  connected s = true -> sound R s -> sound R (add_state_observer (SChan k) s).
Proof.
  intros Hc [H1 H2 H3 H4 H5 H6 H7 H8 H9 H10 H11]. split; auto; simpl.
  - intros Hc'. simpl in Hc'. congruence.
  - intros x Hin. apply in_app_or in Hin as [Hin|[E|[]]]; [now apply H7 | discriminate].
Qed.

Lemma sound_join_ext (x : nat) (s : store) :
  connected s = true -> sound R s ->
  sound R (see_all (map (SawState x) (replay_events s))
                   (add_state_observer (SExt x) s)).
Proof.
  intros Hc Hs. pose proof (sound_live_replay Hs Hc) as Hne.
  destruct Hs as [H1 H2 H3 H4 H5 H6 H7 H8 H9 H10 H11].
  set (s1 := add_state_observer (SExt x) s).
  set (os := map (SawState x) (replay_events s)).
  assert (Hsame : forall (X : Type) (f : store -> X),
             (forall o t, f (see o t) = f t) -> f (see_all os s1) = f s1).
  { intros X f Hf. unfold see_all. generalize s1.
    induction os as [|o os IH]; intros t; simpl; [reflexivity|].
    now rewrite IH, Hf. }
  split.
  - rewrite (Hsame _ (@act_value _ _)), (Hsame _ (@act_published _ _)); auto.
  - rewrite (Hsame _ (@eff_published _ _)); auto.
  - rewrite (Hsame _ (@replay_events _ _)); auto.
    unfold computed_states. rewrite (Hsame _ (@reducer_calls _ _)); auto.
  - rewrite (Hsame _ (@connected _ _)); auto. simpl. congruence.
  - rewrite (Hsame _ (@connected _ _)), (Hsame _ (@reducer_calls _ _)); auto.
  - rewrite (Hsame _ (@connected _ _)), (Hsame _ (@act_observers _ _)); auto.
  - intros y Hy. rewrite (Hsame _ (@state_observers _ _)) in Hy; auto.
    rewrite states_seen_see_all. unfold os. rewrite states_of_replayed.
    simpl in Hy. apply in_app_or in Hy as [Hy|[E|[]]].
    + intros E. apply app_eq_nil in E as [E _]. revert E. now apply H7.
    + injection E as <-. rewrite Nat.eqb_refl.
      intros E. apply app_eq_nil in E as [_ E]. contradiction.
  - intros y v. rewrite (Hsame _ (@replay_events _ _)); auto.
    rewrite states_seen_see_all. unfold os. rewrite states_of_replayed.
    change (states_seen y s1) with (states_seen y s).
    change (replay_events s1) with (replay_events s).
    destruct (Nat.eqb x y) eqn:Exy.
    + destruct (states_seen y s) as [|w l] eqn:Hy; simpl.
      * auto.
      * intros E. apply (H8 y). now rewrite Hy.
    + rewrite app_nil_r. apply H8.
  - rewrite (Hsame _ (@act_published _ _)), (Hsame _ (@reducer_calls _ _)); auto.
  - rewrite (Hsame _ (@act_observers _ _)), (Hsame _ (@connected _ _)); auto.
  - rewrite (Hsame _ (@scan_acc _ _)), (Hsame _ (@replay_events _ _)); auto.
Qed.

Lemma sound_share_chan (k : nat) (s : store) :
  connected s = false -> sound R s -> sound R (start_sharing R (SChan k) s).
Proof.
  intros Hc Hs. pose proof (sound_idle_replay Hs Hc) as Hrep.
  pose proof (fun x => sound_idle_unseen x Hs Hc) as Hunseen.
  destruct Hs as [H1 H2 H3 H4 H5 H6 H7 H8 H9 H10 H11].
  destruct (H4 Hc) as (Hso & Hcalls & Hacc).
  split; auto; simpl.
  - rewrite Hrep. unfold computed_states. simpl. now rewrite Hcalls.
  - discriminate.
  - intros _. exists (act_value s), []. now rewrite Hcalls, Hacc.
  - rewrite Hso. intros x [E|[]]. discriminate.
  - intros x v Hx.
    change (states_seen x (start_sharing R (SChan k) s))
      with (states_seen x s) in Hx.
    rewrite Hunseen in Hx. discriminate.
  - intros Hp st a1 rest' E. rewrite Hcalls in E. simpl in E.
    injection E as E1 E2 E3. subst a1. now rewrite H1, Hp.
  - rewrite filter_app, length_app, H10, Hc. reflexivity.
  - now rewrite last_last.
Qed.

Lemma sound_share_ext (x : nat) (s : store) :
  connected s = false -> sound R s ->
  sound R (see (SawState x (R (Some (scan_acc s)) (act_value s)))
               (start_sharing R (SExt x) s)).
Proof.
  intros Hc Hs. pose proof (sound_idle_replay Hs Hc) as Hrep.
  pose proof (fun x => sound_idle_unseen x Hs Hc) as Hunseen.
  destruct Hs as [H1 H2 H3 H4 H5 H6 H7 H8 H9 H10 H11].
  destruct (H4 Hc) as (Hso & Hcalls & Hacc).
  split; auto; simpl.
  - rewrite Hrep. unfold computed_states. simpl. now rewrite Hcalls.
  - discriminate.
  - intros _. exists (act_value s), []. now rewrite Hcalls, Hacc.
  - intros y Hy. rewrite states_seen_see_state.
    rewrite Hso in Hy. destruct Hy as [E|[]]. injection E as <-.
    rewrite Nat.eqb_refl. intros E. now apply app_eq_nil in E as [_ E].
  - intros y v. rewrite states_seen_see_state.
    change (states_seen y (start_sharing R (SExt x) s)) with (states_seen y s).
    rewrite Hunseen, Hrep. simpl. now destruct (Nat.eqb x y).
  - intros Hp st a1 rest' E. rewrite Hcalls in E. simpl in E.
    injection E as E1 E2 E3. subst a1. now rewrite H1, Hp.
  - rewrite filter_app, length_app, H10, Hc. reflexivity.
  - now rewrite last_last.
Qed.

Lemma sound_tidy (s : store) :
  sound R s -> connected s = false -> state_observers s = [].
Proof. intros Hs Hc. now destruct (w_idle Hs Hc). Qed.

Lemma sound_started (eff : Effect State Mem) :
  sound R (remember eff (eff_init eff) (count_registration (initial Mem R))).
Proof.
  split; simpl; auto; try discriminate; try contradiction.
Qed.

Lemma sound_failed : sound R (fail_effects (count_registration (initial Mem R))).
Proof.
  split; simpl; auto; try discriminate; try contradiction.
Qed.

#[local] Hint Resolve sound_publish sound_see_action sound_see_state
  sound_remember sound_scan_push sound_listen sound_join_chan sound_join_ext
  sound_share_chan sound_share_ext sound_tidy sound_started sound_failed
  : sound_db.

(** Every store a session reaches is sound. *)
Lemma session_sound (fuel : nat) (rootEffect : option (Effect State Mem))
  (evs : list event) (s : store) :
  session fuel R rootEffect evs = Some s -> sound R s.
Proof. apply (@session_inv State Mem R (sound R)); eauto with sound_db. Qed.

Lemma step_sound (fuel : nat) (ev : event) (s s' : store) :
  step R fuel ev s = Some s' -> sound R s -> sound R s'.
Proof. apply (@step_inv State Mem R (sound R)); eauto with sound_db. Qed.

Lemma run_sound (fuel : nat) (evs : list event) (s s' : store) :
  run R fuel evs s = Some s' -> sound R s -> sound R s'.
Proof. apply (@run_inv State Mem R (sound R)); eauto with sound_db. Qed.

End Soundness.

(* --------------------------------------------------------------------- *)
(** ** [createStore]: registration, first values, replay *)

Section StoreClaims.

Variables State Mem : Type.
Variable R : Reducer State.

Local Abbreviation store := (store State Mem).

Lemma see_all_frame (X : Type) (f : store -> X) :
  (forall o t, f (see o t) = f t) ->
  forall os s, f (see_all os s) = f s.
Proof.
  intros Hf os. unfold see_all.
  induction os as [|o os IH]; intros s; simpl; [reflexivity | now rewrite IH, Hf].
Qed.

(** Every store, created with an effect or without, has published once
    into the effect-registration stream, whatever has happened since. *)
Lemma registration_is_published_once (fuel : nat)
  (rootEffect : option (Effect State Mem)) (evs : list event) (s : store) :
  session fuel R rootEffect evs = Some s -> eff_published s = 1.
Proof. intros Hs. exact (w_registered (session_sound _ _ _ _ Hs)). Qed.

(** C2: the code does not do what the claim says. Called without an
    effect, [createStore] still publishes once into the
    effect-registration stream, line 48 having no guard: the [mergeMap]
    is run on [undefined], its projection throws, and the effects pipeline
    ends in an error with no effect subscribed. [Subject.prototype.next]
    has then run once, where the claim and the repository's test expect
    it not to run at all. *)
Theorem createStore_without_effect_publishes (fuel : nat) :
  exists s,
    createStore fuel R (@None (Effect State Mem)) = Some s /\
    eff_published s = 1 /\
    eff_failed s = true /\
    eff_running s = None /\
    act_published s = [] /\
    subject_next_calls s = 1.
Proof. eexists. repeat split. Qed.


End StoreClaims.

(** The repository's test "should not create effects pipeline if no
    effects are provided" builds one store with an effect that emits
    nothing and one without an effect, and expects [Subject.prototype.next]
    to have run once in all. On this code it runs once for each store. *)
Example no_effect_test_counts_two :
  option_map (@subject_next_calls nat unit) (createStore 1 counter (Some ignoring))
  = Some 1 /\
  option_map (@subject_next_calls nat unit) (createStore 1 counter None)
  = Some 1.
Proof. split; vm_compute; reflexivity. Qed.



(** C6, as stated, fails: after three states have been computed, a new
    subscriber is handed all three, not the latest alone. *)
Lemma late_state_subscriber_gets_three :
  option_map (states_seen 2)
             (session 1 counter (Some ignoring)
                      [SubscribeState 1; Dispatch ACTION_A; Dispatch ACTION_B;
                       SubscribeState 2])
  = Some [1; 2; 3].
Proof. vm_compute. reflexivity. Qed.

(** C4, as stated, fails: the first state a subscriber is handed is the
    reducer's result on the seed and [@@INIT], here [1], and not the seed
    [R(undefined, {type: '@@INIT/state'})], here [0]. *)
Lemma first_state_is_not_the_seed :
  option_map (fun s => hd_error (states_seen 1 s))
             (session 1 counter (Some ignoring) [SubscribeState 1])
  = Some (Some 1) /\
  counter None INIT_STATE = 0.
Proof. split; vm_compute; reflexivity. Qed.

(* --------------------------------------------------------------------- *)
(** ** The store under a silent effect *)

Section Quiet.

Variables State Mem : Type.
Variable R : Reducer State.

Local Abbreviation store := (store State Mem).

Lemma quiet_same (s s' : store) :
  eff_running s' = eff_running s -> quiet s -> quiet s'.
Proof. intros E Hq eff m H. rewrite E in H. eapply Hq; eassumption. Qed.

Lemma quiet_remember (eff : Effect State Mem) (m m' : Mem) (s : store) :
  eff_running s = Some (eff, m) -> quiet s -> quiet (remember eff m' s).
Proof.
  intros E Hq eff' m'' H. simpl in H. injection H as <- _. eapply Hq; eassumption.
Qed.

Section QuietDelivery.

Variable dispatch : Action -> store -> option store.

Lemma quiet_to_effect (k : nat) (i : input State) (s : store) :
  quiet s ->
  exists s', to_effect dispatch k i s = Some s' /\ quiet s' /\ erase s' = erase s.
Proof.
  intros Hq. unfold to_effect.
  destruct (eff_running s) as [[eff m]|] eqn:E.
  - pose proof (Hq eff m E k i m) as Hout.
    destruct (eff_handle eff k i m) as [m' out]. simpl in Hout. subst out.
    exists (remember eff m' s). repeat split. eapply quiet_remember; eassumption.
  - exists s. auto.
Qed.

Lemma quiet_notify_states (v : State) (l : list state_observer) (s : store) :
  quiet s ->
  exists s', each (notify_state dispatch v) l s = Some s' /\ quiet s' /\
             erase s' = see_all (state_notes v l) (erase s).
Proof.
  revert s. induction l as [|[x|k] l IH]; intros s Hq; simpl.
  - exists s. auto.
  - destruct (IH (see (SawState x v) s)) as (s' & H1 & H2 & H3).
    + eapply quiet_same; [|exact Hq]. reflexivity.
    + exists s'. auto.
  - destruct (quiet_to_effect k (InState v) Hq) as (s1 & E1 & Hq1 & Her1).
    rewrite E1. destruct (IH s1 Hq1) as (s' & H1 & H2 & H3).
    exists s'. repeat split; auto. now rewrite H3, Her1.
Qed.

Lemma quiet_scan_next (a : Action) (s : store) :
  quiet s ->
  exists s', scan_next R dispatch a s = Some s' /\ quiet s' /\
             erase s' = quiet_scan R a (erase s).
Proof.
  intros Hq. unfold scan_next.
  destruct (@quiet_notify_states (scan_acc (scan_push R a s))
              (state_observers (scan_push R a s)) (scan_push R a s))
    as (s' & H1 & H2 & H3).
  - eapply quiet_same; [|exact Hq]. reflexivity.
  - exists s'. auto.
Qed.

Lemma quiet_notify_action (a : Action) (o : action_observer) (s : store) :
  quiet s ->
  exists s', notify_action R dispatch a o s = Some s' /\ quiet s' /\
             erase s' = quiet_notify R a (erase s) o.
Proof.
  intros Hq. destruct o as [x| |k]; simpl.
  - exists (see (SawAction x a) s). repeat split.
    eapply quiet_same; [|exact Hq]. reflexivity.
  - now apply quiet_scan_next.
  - now apply quiet_to_effect.
Qed.

Lemma quiet_notify_actions (a : Action) (l : list action_observer) (s : store) :
  quiet s ->
  exists s', each (notify_action R dispatch a) l s = Some s' /\ quiet s' /\
             erase s' = fold_left (quiet_notify R a) l (erase s).
Proof.
  revert s. induction l as [|o l IH]; intros s Hq; simpl.
  - exists s. auto.
  - destruct (quiet_notify_action a o Hq) as (s1 & E1 & Hq1 & Her1).
    rewrite E1. destruct (IH s1 Hq1) as (s' & H1 & H2 & H3).
    exists s'. repeat split; auto. now rewrite H3, Her1.
Qed.

Lemma quiet_next_body (a : Action) (s : store) :
  quiet s ->
  exists s', next_body R dispatch a s = Some s' /\ quiet s' /\
             erase s' = quiet_next R a (erase s).
Proof.
  intros Hq. unfold next_body.
  destruct (@quiet_notify_actions a (act_observers (publish a s)) (publish a s))
    as (s' & H1 & H2 & H3).
  - eapply quiet_same; [|exact Hq]. reflexivity.
  - exists s'. auto.
Qed.

Lemma quiet_listen_chan (k : nat) (s : store) :
  quiet s ->
  exists s', subscribe_action R dispatch (AChan k) s = Some s' /\ quiet s' /\
             erase s' = add_action_observer (AChan k) (erase s).
Proof.
  intros Hq. unfold subscribe_action. cbn [notify_action].
  apply quiet_to_effect. eapply quiet_same; [|exact Hq]. reflexivity.
Qed.

Lemma quiet_replay_chan (k : nat) (l : list State) (s : store) :
  quiet s ->
  exists s', each (fun v => notify_state dispatch v (SChan k)) l s = Some s' /\
             quiet s' /\ erase s' = erase s.
Proof.
  revert s. induction l as [|v l IH]; intros s Hq; simpl.
  - exists s. auto.
  - destruct (quiet_to_effect k (InState v) Hq) as (s1 & E1 & Hq1 & Her1).
    rewrite E1. destruct (IH s1 Hq1) as (s' & H1 & H2 & H3).
    exists s'. repeat split; auto. congruence.
Qed.

Lemma quiet_join_chan (k : nat) (s : store) :
  quiet s -> connected s = true ->
  exists s', subscribe_state R dispatch (SChan k) s = Some s' /\ quiet s' /\
             erase s' = add_state_observer (SChan k) (erase s).
Proof.
  intros Hq Hc. unfold subscribe_state. rewrite Hc.
  apply quiet_replay_chan. eapply quiet_same; [|exact Hq]. reflexivity.
Qed.

Lemma quiet_share_chan (k : nat) (s : store) :
  quiet s -> connected s = false -> state_observers s = [] ->
  exists s', subscribe_state R dispatch (SChan k) s = Some s' /\ quiet s' /\
             erase s' = start_sharing R (SChan k) (erase s).
Proof.
  intros Hq Hc Hso. rewrite subscribe_state_first by exact Hc. rewrite Hso.
  cbn [app each notify_state].
  destruct (@quiet_to_effect k (InState (R (Some (scan_acc s)) (act_value s)))
              (start_sharing R (SChan k) s)) as (s' & H1 & H2 & H3).
  - eapply quiet_same; [|exact Hq]. reflexivity.
  - exists s'. rewrite H1. auto.
Qed.

End QuietDelivery.

Lemma quiet_next_total (fuel : nat) (a : Action) (s : store) :
  quiet s ->
  exists s', next R (S fuel) a s = Some s' /\ quiet s' /\
             erase s' = quiet_next R a (erase s).
Proof. intros Hq. simpl. now apply quiet_next_body. Qed.

End Quiet.

Section QuietSessions.

Variables State Mem : Type.
Variable R : Reducer State.

Local Abbreviation store := (store State Mem).

(** *** What a silent delivery does *)

Lemma states_of_notes (x : nat) (v : State) (l : list state_observer) :
  states_of x (state_notes v l) = repeat v (List.length (filter (is_ext x) l)).
Proof.
  induction l as [|[y|k] l IH]; simpl; auto.
  destruct (Nat.eqb y x); simpl; now rewrite IH.
Qed.

Lemma last_cons (X : Type) (v d : X) (l : list X) : last (v :: l) d = last l v.
Proof.
  revert v d. induction l as [|w l IH]; intros v d; [reflexivity|].
  change (last (v :: w :: l) d) with (last (w :: l) d). now rewrite !IH.
Qed.

Lemma erase_see_all (os : list (observation State)) (s : store) :
  erase (see_all os s) = see_all os (erase s).
Proof.
  revert s. unfold see_all. induction os as [|o os IH]; intros s; simpl; auto.
Qed.

Lemma quiet_fold_spec (a : Action) (x : nat) (l : list action_observer) (t : store) :
  let vs := fold_states R (scan_acc t) (repeat a (List.length (filter is_scan l))) in
  let c := List.length (filter (is_ext x) (state_observers t)) in
  let t' := fold_left (quiet_notify R a) l t in
  scan_acc t' = last vs (scan_acc t) /\
  replay_events t' = replay_events t ++ vs /\
  states_seen x t' = states_seen x t ++ flat_map (fun v => repeat v c) vs /\
  act_published t' = act_published t /\
  act_value t' = act_value t /\
  same_wiring t t'.
Proof.
  revert t. induction l as [|o l IH]; intros t; cbn zeta.
  - simpl. rewrite !app_nil_r. repeat split.
  - destruct o as [y| |k]; cbn [fold_left filter is_scan quiet_notify].
    + specialize (IH (see (SawAction y a) t)). cbn zeta in IH.
      rewrite states_seen_see_action in IH. exact IH.
    + specialize (IH (quiet_scan R a t)). cbn zeta in IH.
      assert (Hf : forall (X : Type) (f : store -> X),
                 (forall o u, f (see o u) = f u) ->
                 f (quiet_scan R a t) = f (scan_push R a t)).
      { intros X f Hf. unfold quiet_scan. now apply see_all_frame. }
      rewrite (Hf _ (@scan_acc _ _)), (Hf _ (@replay_events _ _)),
        (Hf _ (@state_observers _ _)), (Hf _ (@act_published _ _)),
        (Hf _ (@act_value _ _)) in IH by reflexivity.
      assert (Hseen : states_seen x (quiet_scan R a t)
                      = states_seen x t
                        ++ repeat (R (Some (scan_acc t)) a)
                             (List.length (filter (is_ext x) (state_observers t)))).
      { unfold quiet_scan. rewrite states_seen_see_all, states_of_notes.
        reflexivity. }
      rewrite Hseen in IH. cbn [scan_acc replay_events state_observers
                                act_published act_value scan_push] in IH.
      destruct IH as (I1 & I2 & I3 & I4 & I5 & I6).
      cbn [List.length repeat fold_states flat_map].
      rewrite last_cons. rewrite <- !app_assoc in *. simpl in I2.
      repeat split; auto.
      * destruct I6 as (W1 & W2 & W3). rewrite W1.
        now rewrite (Hf _ (@act_observers _ _)) by reflexivity.
      * destruct I6 as (W1 & W2 & W3). rewrite W2.
        now rewrite (Hf _ (@state_observers _ _)) by reflexivity.
      * destruct I6 as (W1 & W2 & W3). rewrite W3.
        now rewrite (Hf _ (@connected _ _)) by reflexivity.
    + apply IH.
Qed.

(** *** [createStore] with a silent effect *)

Lemma booted_start (eff : Effect State Mem) :
  booted R (erase (remember eff (eff_init eff) (count_registration (initial Mem R)))).
Proof. split; simpl; auto; intros; try discriminate; repeat split. Qed.

Lemma booted_listen (k : nat) (t : store) :
  booted R t -> booted R (add_action_observer (AChan k) t).
Proof.
  intros [B1 B2 B3 B4 B5 B6 B7]. split; auto.
  simpl. rewrite filter_app, length_app. simpl. now rewrite Nat.add_0_r.
Qed.

Lemma booted_join (k : nat) (t : store) :
  connected t = true -> booted R t -> booted R (add_state_observer (SChan k) t).
Proof.
  intros Hc [B1 B2 B3 B4 B5 B6 B7]. split; auto; simpl.
  - rewrite forallb_app, B4. reflexivity.
  - intros Hc'. congruence.
Qed.

Lemma booted_share (k : nat) (t : store) :
  connected t = false -> booted R t -> booted R (start_sharing R (SChan k) t).
Proof.
  intros Hc [B1 B2 B3 B4 B5 B6 B7]. destruct (B6 Hc) as (Hso & Hacc & Hrep).
  split; auto; simpl.
  - rewrite forallb_app, B4. reflexivity.
  - rewrite filter_app, length_app, B5, Hc. reflexivity.
  - discriminate.
  - intros _. now rewrite Hacc, B2, Hrep.
Qed.

Lemma quiet_open_channels (fuel : nat) (cs : list channel) (k : nat) (s : store) :
  quiet s -> booted R (erase s) ->
  exists s', open_channels R (next R fuel) k cs s = Some s' /\ quiet s' /\
             booted R (erase s').
Proof.
  revert k s. induction cs as [|c cs IH]; intros k s Hq Hb; simpl.
  - exists s. auto.
  - assert (H1 : exists s1, open_channel R (next R fuel) k c s = Some s1 /\
                            quiet s1 /\ booted R (erase s1)).
    { destruct c; unfold open_channel.
      - destruct (quiet_listen_chan R (next R fuel) k Hq) as (s1 & E & Hq1 & Her).
        exists s1. split; [exact E | split; [exact Hq1|]].
        rewrite Her. now apply booted_listen.
      - destruct (connected s) eqn:Hc.
        + destruct (quiet_join_chan R (next R fuel) k Hq Hc) as (s1 & E & Hq1 & Her).
          exists s1. split; [exact E | split; [exact Hq1|]].
          rewrite Her. now apply booted_join.
        + assert (Hso : state_observers s = [])
            by (now destruct (b_idle Hb Hc)).
          destruct (quiet_share_chan R (next R fuel) k Hq Hc Hso)
            as (s1 & E & Hq1 & Her).
          exists s1. split; [exact E | split; [exact Hq1|]].
          rewrite Her. now apply booted_share.
      - exists s. auto. }
    destruct H1 as (s1 & E & Hq1 & Hb1). rewrite E. now apply IH.
Qed.

Lemma quiet_createStore (fuel : nat) (eff : Effect State Mem) :
  silent eff ->
  exists s, createStore fuel R (Some eff) = Some s /\ quiet s /\
            booted R (erase s).
Proof.
  intros Hs. unfold createStore, register. apply quiet_open_channels.
  - intros eff' m H. simpl in H. now injection H as <- _.
  - apply booted_start.
Qed.

(** *** One subscriber of [state$], then dispatches *)

Lemma no_ext_among_chans (x : nat) (l : list state_observer) :
  forallb is_chan l = true -> filter (is_ext x) l = [].
Proof.
  induction l as [|[y|k] l IH]; simpl; auto; discriminate.
Qed.

Lemma following_subscribe (fuel x : nat) (s : store) :
  quiet s -> booted R (erase s) ->
  exists s', step R fuel (SubscribeState x) s = Some s' /\ quiet s' /\
             following R x (erase s') /\
             replay_events s' = [R (Some (R None INIT_STATE)) INIT].
Proof.
  intros Hq Hb. destruct Hb as [B1 B2 B3 B4 B5 B6 B7]. simpl in *.
  unfold step. destruct (connected s) eqn:Hc.
  - destruct (B7 eq_refl) as (Hacc & Hrep).
    rewrite subscribe_state_ext_joined by exact Hc.
    eexists. split; [reflexivity|].
    set (t1 := see_all _ _).
    assert (Hf : forall (X : Type) (f : store -> X),
               (forall o u, f (see o u) = f u) ->
               f t1 = f (add_state_observer (SExt x) s)).
    { intros X f Hf. unfold t1. now apply see_all_frame. }
    split; [|split; [split|]]; simpl.
    + eapply quiet_same; [|exact Hq].
      rewrite (Hf _ (@eff_running _ _)) by reflexivity. reflexivity.
    + rewrite (Hf _ (@connected _ _)) by reflexivity. exact Hc.
    + rewrite (Hf _ (@state_observers _ _)) by reflexivity. simpl.
      rewrite filter_app, (no_ext_among_chans x _ B4). simpl.
      now rewrite Nat.eqb_refl.
    + rewrite (Hf _ (@act_observers _ _)) by reflexivity. simpl.
      now rewrite B5.
    + rewrite (Hf _ (@replay_events _ _)) by reflexivity.
      change (states_seen x (erase t1)) with (states_seen x t1). unfold t1.
      rewrite states_seen_see_all, states_of_replayed, Nat.eqb_refl.
      unfold states_seen. simpl. now rewrite B3.
    + rewrite (Hf _ (@scan_acc _ _)), (Hf _ (@replay_events _ _)) by reflexivity.
      simpl. now rewrite Hacc, Hrep.
    + rewrite (Hf _ (@replay_events _ _)) by reflexivity. exact Hrep.
  - destruct (B6 eq_refl) as (Hso & Hacc & Hrep).
    rewrite subscribe_state_ext_first by auto.
    eexists. split; [reflexivity|]. repeat split; simpl.
    + eapply quiet_same; [|exact Hq]. reflexivity.
    + rewrite Hso. simpl. now rewrite Nat.eqb_refl.
    + rewrite filter_app, length_app, B5. reflexivity.
    + unfold states_seen. simpl. rewrite B3, Hrep. simpl.
      now rewrite Nat.eqb_refl.
    + now rewrite last_last.
    + now rewrite Hrep, Hacc, B2.
Qed.

Lemma following_dispatch (fuel x : nat) (a : Action) (s : store) :
  quiet s -> following R x (erase s) ->
  exists s', step R (S fuel) (Dispatch a) s = Some s' /\ quiet s' /\
             following R x (erase s') /\
             replay_events s' = replay_events s ++ [R (Some (scan_acc s)) a] /\
             scan_acc s' = R (Some (scan_acc s)) a.
Proof.
  intros Hq [F1 F2 F3 F4 F5]. unfold step.
  destruct (quiet_next_total R fuel a Hq) as (s' & E & Hq' & Her).
  exists s'. split; [exact E|]. split; [exact Hq'|].
  pose proof (quiet_fold_spec a x (act_observers (erase s)) (publish a (erase s)))
    as Hspec.
  cbn zeta in Hspec. fold (quiet_next R a (erase s)) in Hspec. rewrite <- Her in Hspec.
  simpl in F3, F2, Hspec. rewrite F3, F2 in Hspec. simpl in Hspec.
  destruct Hspec as (S1 & S2 & S3 & S4 & S5 & (W1 & W2 & W3)).
  unfold states_seen in F4, S3. simpl in W1, W2, W3, F1, F4, F5, S3.
  repeat split; simpl; auto.
  - congruence.
  - now rewrite W2.
  - now rewrite W1.
  - unfold states_seen. simpl. now rewrite S3, S2, F4.
  - rewrite S2, S1. now rewrite last_last.
Qed.

Lemma following_dispatches (fuel x : nat) (actions : list Action) (s : store) :
  quiet s -> following R x (erase s) ->
  exists s', run R (S fuel) (map Dispatch actions) s = Some s' /\ quiet s' /\
             following R x (erase s') /\
             replay_events s'
             = replay_events s ++ fold_states R (scan_acc s) actions.
Proof.
  revert s. induction actions as [|a actions IH]; intros s Hq Hf.
  - exists s. simpl. rewrite app_nil_r. auto.
  - simpl.
    destruct (following_dispatch fuel a Hq Hf) as (s1 & E1 & Hq1 & Hf1 & Hr1 & Ha1).
    destruct (IH s1 Hq1 Hf1) as (s' & E & Hq' & Hf' & Hr').
    exists s'. unfold run in *. cbn [map each]. rewrite E1.
    split; [exact E | split; [exact Hq' | split; [exact Hf'|]]].
    rewrite Hr', Hr1, Ha1, <- app_assoc. reflexivity.
Qed.

(** C1: with an effect that emits nothing, a subscriber that subscribes to
    the state stream and then sees the actions [a1..an] dispatched from
    outside is handed exactly the states obtained by folding [R] by hand
    from the seed [R(undefined, {type: '@@INIT/state'})] over
    [@@INIT, a1, .., an]; and the session completes. *)
Theorem state_stream_is_fold (fuel : nat) (eff : Effect State Mem)
  (actions : list Action) (x : nat) :
  silent eff ->
  exists s,
    session (S fuel) R (Some eff) (SubscribeState x :: map Dispatch actions)
    = Some s /\
    states_seen x s = fold_states R (R None INIT_STATE) (INIT :: actions).
Proof.
  intros Hs. unfold session.
  destruct (quiet_createStore (S fuel) Hs) as (s0 & E0 & Hq0 & Hb0). rewrite E0.
  destruct (following_subscribe (S fuel) x Hq0 Hb0) as (s1 & E1 & Hq1 & Hf1 & Hr1).
  destruct (following_dispatches fuel actions Hq1 Hf1) as (s2 & E2 & Hq2 & Hf2 & Hr2).
  exists s2. unfold run in *. cbn [each]. rewrite E1. split; [exact E2|].
  change (states_seen x s2) with (states_seen x (erase s2)).
  rewrite (f_seen Hf2). simpl. rewrite Hr2, Hr1.
  pose proof (f_acc Hf1) as Hacc. simpl in Hacc. rewrite Hr1 in Hacc. simpl in Hacc.
  now rewrite Hacc.
Qed.

(** *** Any session with a silent effect *)

Lemma quiet_step (fuel : nat) (ev : event) (s : store) :
  quiet s -> (connected s = false -> state_observers s = []) ->
  exists s', step R (S fuel) ev s = Some s' /\ quiet s' /\
             (connected s' = false -> state_observers s' = []) /\
             act_published s' = act_published s ++ dispatched [ev].
Proof.
  intros Hq Ht. destruct ev as [a|x|x|k n]; unfold step.
  - destruct (quiet_next_total R fuel a Hq) as (s' & E & Hq' & Her).
    exists s'. split; [exact E|]. split; [exact Hq'|].
    pose proof (quiet_fold_spec a 0 (act_observers (erase s)) (publish a (erase s)))
      as Hspec.
    cbn zeta in Hspec. fold (quiet_next R a (erase s)) in Hspec.
    rewrite <- Her in Hspec.
    destruct Hspec as (_ & _ & _ & S4 & _ & (W1 & W2 & W3)).
    simpl in *. split; [|exact S4]. rewrite W2, W3. exact Ht.
  - destruct (connected s) eqn:Hc.
    + rewrite subscribe_state_ext_joined by exact Hc.
      eexists. split; [reflexivity|]. repeat split.
      * eapply quiet_same; [|exact Hq].
        rewrite (@see_all_frame _ _ _ (@eff_running _ _)) by reflexivity.
        reflexivity.
      * rewrite (@see_all_frame _ _ _ (@connected _ _)) by reflexivity.
        simpl. congruence.
      * rewrite (@see_all_frame _ _ _ (@act_published _ _)) by reflexivity.
        simpl. now rewrite app_nil_r.
    + rewrite subscribe_state_ext_first by auto.
      eexists. split; [reflexivity|]. repeat split; simpl.
      * eapply quiet_same; [|exact Hq]. reflexivity.
      * discriminate.
      * now rewrite app_nil_r.
  - rewrite subscribe_action_ext. eexists. split; [reflexivity|].
    split; [exact Hq|]. split; [exact Ht|]. simpl. now rewrite app_nil_r.
  - destruct (quiet_to_effect (next R (S fuel)) k (InOther n) Hq)
      as (s' & E & Hq' & Her).
    exists s'. split; [exact E|]. split; [exact Hq'|].
    pose proof (f_equal (@connected _ _) Her) as E1.
    pose proof (f_equal (@state_observers _ _) Her) as E2.
    pose proof (f_equal (@act_published _ _) Her) as E3.
    simpl in *. rewrite E1, E2, E3, app_nil_r. auto.
Qed.

Lemma quiet_run (fuel : nat) (evs : list event) (s : store) :
  quiet s -> (connected s = false -> state_observers s = []) ->
  exists s', run R (S fuel) evs s = Some s' /\ quiet s' /\
             act_published s' = act_published s ++ dispatched evs.
Proof.
  revert s. induction evs as [|ev evs IH]; intros s Hq Ht.
  - exists s. simpl. now rewrite app_nil_r.
  - destruct (quiet_step fuel ev Hq Ht) as (s1 & E1 & Hq1 & Ht1 & Hp1).
    destruct (IH s1 Hq1 Ht1) as (s' & E & Hq' & Hp').
    exists s'. unfold run in *. cbn [each]. rewrite E1.
    repeat split; auto. rewrite Hp', Hp1, <- app_assoc.
    f_equal. destruct ev; reflexivity.
Qed.

(** With a silent effect every session completes, whatever the fuel, and
    the actions that reached the action stream are the ones the outside
    dispatched. *)
Lemma silent_session (fuel : nat) (eff : Effect State Mem) (evs : list event) :
  silent eff ->
  exists s, session (S fuel) R (Some eff) evs = Some s /\
            act_published s = dispatched evs.
Proof.
  intros Hs. unfold session.
  destruct (quiet_createStore (S fuel) Hs) as (s0 & E0 & Hq0 & Hb0). rewrite E0.
  destruct (@quiet_run fuel evs s0 Hq0) as (s & E & _ & Hp).
  - intros Hc. now destruct (b_idle Hb0 Hc).
  - exists s. split; [exact E|]. rewrite Hp.
    pose proof (b_published Hb0) as H0. simpl in H0. now rewrite H0.
Qed.

End QuietSessions.

(* --------------------------------------------------------------------- *)
(** ** [combineEffects] *)

Section Combined.

Variables State Mem : Type.

Lemma route_silent (effects : list (Effect State Mem)) (ms : list Mem)
  (k : nat) (i : input State) :
  Forall silent effects -> snd (route effects ms k i) = [].
Proof.
  intros Hall. revert ms k.
  induction Hall as [|eff effects Heff _ IH]; intros ms k; [reflexivity|].
  destruct ms as [|m ms]; [reflexivity|]. simpl.
  destruct (k <? List.length (eff_channels eff)).
  - specialize (Heff k i m). destruct (eff_handle eff k i m). exact Heff.
  - specialize (IH ms (k - List.length (eff_channels eff))).
    destruct (route effects ms _ i). exact IH.
Qed.

(** Composing silent effects gives a silent effect. *)
Lemma combineEffects_silent (effects : list (Effect State Mem)) :
  Forall silent effects -> silent (combineEffects effects).
Proof. intros Hall k i ms. now apply route_silent. Qed.

(** C10: [combineEffects()] is an effect that opens no channel and emits
    nothing on any delivery; a store built on it completes every session,
    and the only actions that ever reach its action stream are the ones
    dispatched from outside. *)
Theorem combineEffects_nil_emits_nothing (R : Reducer State) (fuel : nat)
  (evs : list event) :
  eff_channels (@combineEffects State Mem []) = [] /\
  (forall k i ms, eff_handle (@combineEffects State Mem []) k i ms = (ms, [])) /\
  exists s,
    session (S fuel) R (Some (@combineEffects State Mem [])) evs = Some s /\
    act_published s = dispatched evs.
Proof.
  split; [reflexivity|]. split; [reflexivity|].
  apply silent_session. apply combineEffects_silent. constructor.
Qed.

End Combined.

(** [combineEffects(e1, e2)] on a store: what [e1] emits is dispatched. *)
Example combineEffects_two :
  option_map (@act_published nat (list unit))
    (session 2 counter (Some (combineEffects [answering; ignoring]))
       [SubscribeState 1; Dispatch ACTION_A])
  = Some [ACTION_A; ACTION_B].
Proof. vm_compute. reflexivity. Qed.

(* --------------------------------------------------------------------- *)
(** ** The store: subscribers of [state$] share one fold *)

Section Sharing.

Variables State Mem : Type.
Variable R : Reducer State.

Local Abbreviation store := (store State Mem).

Lemma strip_see_state (x : nat) (v : State) (s : store) :
  strip (see (SawState x v) s) = strip s.
Proof.
  unfold strip. simpl. rewrite filter_app. simpl. now rewrite app_nil_r.
Qed.

Lemma strip_see_action (x : nat) (a : Action) (s : store) :
  strip (see (SawAction x a) s) = see (SawAction x a) (strip s).
Proof. unfold strip, see. simpl. now rewrite filter_app. Qed.

Lemma strip_see_states (x : nat) (l : list State) (s : store) :
  strip (see_all (map (SawState x) l) s) = strip s.
Proof.
  revert s. unfold see_all. induction l as [|v l IH]; intros s; simpl; auto.
  now rewrite IH, strip_see_state.
Qed.

Lemma strip_add_ext (x : nat) (s : store) :
  strip (add_state_observer (SExt x) s) = strip s.
Proof.
  unfold strip. simpl. rewrite filter_app. simpl. now rewrite app_nil_r.
Qed.

Lemma each_strip (X : Type) (f : X -> store -> option store) (l : list X) :
  (forall x s, option_map strip (f x s) = f x (strip s)) ->
  forall s, option_map strip (each f l s) = each f l (strip s).
Proof.
  intros Hf. induction l as [|x l IH]; intros s; simpl; [reflexivity|].
  rewrite <- Hf. destruct (f x s) as [s1|]; simpl; [apply IH | reflexivity].
Qed.

Section StripDelivery.

Variable dispatch : Action -> store -> option store.
Hypothesis dispatch_strip :
  forall a s, option_map strip (dispatch a s) = dispatch a (strip s).

Lemma to_effect_strip (k : nat) (i : input State) (s : store) :
  option_map strip (to_effect dispatch k i s) = to_effect dispatch k i (strip s).
Proof.
  unfold to_effect. simpl. destruct (eff_running s) as [[eff m]|]; [|reflexivity].
  destruct (eff_handle eff k i m) as [m' out]. unfold emit.
  now rewrite each_strip.
Qed.

Lemma notify_states_strip (v : State) (l : list state_observer) (s : store) :
  option_map strip (each (notify_state dispatch v) l s)
  = each (notify_state dispatch v) (filter is_chan l) (strip s).
Proof.
  revert s. induction l as [|[x|k] l IH]; intros s; simpl; [reflexivity| |].
  - rewrite IH. now rewrite strip_see_state.
  - rewrite <- to_effect_strip.
    destruct (to_effect dispatch k (InState v) s) as [s1|]; simpl;
      [apply IH | reflexivity].
Qed.

Lemma scan_next_strip (a : Action) (s : store) :
  option_map strip (scan_next R dispatch a s) = scan_next R dispatch a (strip s).
Proof. unfold scan_next. now rewrite notify_states_strip. Qed.

Lemma notify_action_strip (a : Action) (o : action_observer) (s : store) :
  option_map strip (notify_action R dispatch a o s)
  = notify_action R dispatch a o (strip s).
Proof.
  destruct o as [x| |k]; simpl.
  - now rewrite strip_see_action.
  - apply scan_next_strip.
  - apply to_effect_strip.
Qed.

Lemma next_body_strip (a : Action) (s : store) :
  option_map strip (next_body R dispatch a s) = next_body R dispatch a (strip s).
Proof.
  unfold next_body. rewrite each_strip; [reflexivity|].
  intros o t. apply notify_action_strip.
Qed.

End StripDelivery.

Lemma next_strip (fuel : nat) (a : Action) (s : store) :
  option_map strip (next R fuel a s) = next R fuel a (strip s).
Proof.
  revert a s. induction fuel as [|fuel IH]; intros a s; simpl; [reflexivity|].
  now apply next_body_strip.
Qed.

(** Once [state$] is shared, one more outside subscriber changes nothing
    but what that subscriber is handed. *)
Lemma step_strip (fuel : nat) (ev : event) (s : store) :
  connected s = true ->
  option_map strip (step R fuel ev s)
  = if is_state_subscription ev then Some (strip s) else step R fuel ev (strip s).
Proof.
  intros Hc. destruct ev as [a|x|x|k n]; unfold step; cbn [is_state_subscription].
  - apply next_strip.
  - rewrite subscribe_state_ext_joined by exact Hc. simpl.
    now rewrite strip_see_states, strip_add_ext.
  - rewrite !subscribe_action_ext. simpl. now rewrite strip_see_action.
  - apply to_effect_strip. apply next_strip.
Qed.

Lemma step_connected (fuel : nat) (ev : event) (s s' : store) :
  step R fuel ev s = Some s' -> connected s = true -> connected s' = true.
Proof.
  apply (@step_inv State Mem R (fun t => connected t = true)); simpl; auto;
    try congruence.
  intros x t Hc _. now rewrite (@see_all_frame _ _ _ (@connected _ _)).
Qed.

Lemma run_strip (fuel : nat) (evs : list event) (s : store) :
  connected s = true ->
  option_map strip (run R fuel evs s)
  = run R fuel (without_state_subscriptions evs) (strip s).
Proof.
  unfold run. revert s. induction evs as [|ev evs IH]; intros s Hc;
    [reflexivity|].
  pose proof (@step_strip fuel ev s Hc) as Hev.
  pose proof (@step_connected fuel ev s) as Hcon.
  cbn [each without_state_subscriptions filter].
  destruct (step R fuel ev s) as [s1|]; simpl in Hev.
  - specialize (IH s1 (Hcon s1 eq_refl Hc)). rewrite IH.
    destruct (is_state_subscription ev); simpl.
    + assert (E : strip s1 = strip s) by congruence. now rewrite E.
    + now rewrite <- Hev.
  - destruct (is_state_subscription ev); simpl; [discriminate|].
    now rewrite <- Hev.
Qed.

Lemma subscribed_is_connected (fuel x : nat) (s s' : store) :
  (connected s = false -> state_observers s = []) ->
  step R fuel (SubscribeState x) s = Some s' -> connected s' = true.
Proof.
  intros Ht. unfold step. destruct (connected s) eqn:Hc.
  - rewrite subscribe_state_ext_joined by exact Hc. intros E. injection E as <-.
    now rewrite (@see_all_frame _ _ _ (@connected _ _)).
  - rewrite subscribe_state_ext_first by auto. intros E. now injection E as <-.
Qed.

Lemma without_state_subscriptions_twice (evs : list event) :
  without_state_subscriptions (without_state_subscriptions evs)
  = without_state_subscriptions evs.
Proof.
  unfold without_state_subscriptions. induction evs as [|ev evs IH]; simpl; auto.
  destruct (is_state_subscription ev) eqn:E; simpl; [exact IH|].
  now rewrite E, IH.
Qed.

(** C3: after the first subscription to the state stream, whatever else
    happens, the reducer is called with the same arguments, the same
    number of times, whether or not the state stream is subscribed to
    again, any number of times, at any moment. *)
Theorem later_state_subscribers_fold_nothing (fuel : nat)
  (rootEffect : option (Effect State Mem)) (evs1 evs2 : list event) (x : nat) :
  option_map (@reducer_calls State Mem)
    (session fuel R rootEffect (evs1 ++ SubscribeState x :: evs2))
  = option_map (@reducer_calls State Mem)
      (session fuel R rootEffect
         (evs1 ++ SubscribeState x :: without_state_subscriptions evs2)).
Proof.
  unfold session.
  destruct (createStore fuel R rootEffect) as [s0|] eqn:E0; [|reflexivity].
  unfold run. rewrite !each_app.
  destruct (each (step R fuel) evs1 s0) as [s1|] eqn:E1; [|reflexivity].
  cbn [each].
  destruct (step R fuel (SubscribeState x) s1) as [s2|] eqn:E2; [|reflexivity].
  assert (Hsound : sound R s1).
  { apply (@session_sound _ _ R fuel rootEffect evs1). unfold session.
    now rewrite E0. }
  assert (Hc : connected s2 = true)
    by (eapply subscribed_is_connected; [apply (sound_tidy Hsound) | exact E2]).
  pose proof (@run_strip fuel evs2 s2 Hc) as H2.
  pose proof (@run_strip fuel (without_state_subscriptions evs2) s2 Hc) as H2'.
  rewrite without_state_subscriptions_twice, <- H2 in H2'.
  unfold run in H2'.
  destruct (each (step R fuel) evs2 s2) as [s3|],
           (each (step R fuel) (without_state_subscriptions evs2) s2) as [s3'|];
    simpl in *; try discriminate; auto.
  assert (E : strip s3' = strip s3) by congruence. f_equal.
  change (reducer_calls (strip s3) = reducer_calls (strip s3')).
  now rewrite E.
Qed.

End Sharing.

(** The test "should not recalculate state for each subscriber" of the
    repository: three subscribers, two calls of the reducer. *)
Example three_subscribers_two_calls :
  option_map (@reducer_calls nat unit)
    (session 1 counter (Some ignoring)
       [SubscribeState 1; SubscribeState 2; SubscribeState 3])
  = Some [(None, INIT_STATE); (Some 0, INIT)].
Proof. vm_compute. reflexivity. Qed.

Lemma state_stream_is_fold_witness :
  exists s,
    session 1 counter (Some ignoring)
      (SubscribeState 1 :: map Dispatch [ACTION_A; ACTION_B]) = Some s /\
    states_seen 1 s = fold_states counter (counter None INIT_STATE)
                                  (INIT :: [ACTION_A; ACTION_B]).
Proof.
  apply (@state_stream_is_fold nat unit counter 0 ignoring [ACTION_A; ACTION_B] 1).
  intros k i m. reflexivity.
Defined.

Example state_stream_counts :
  option_map (states_seen 1)
    (session 1 counter (Some ignoring)
       (SubscribeState 1 :: map Dispatch [ACTION_A; ACTION_B]))
  = Some [1; 2; 3].
Proof. vm_compute. reflexivity. Qed.

(** The test "should call reducer on each action" of the repository: the
    seed, the first subscription and the dispatched action make three
    calls, the third on the state reached and the action. *)
Example reducer_called_on_each_action :
  option_map (@reducer_calls nat unit)
    (session 1 counter (Some ignoring) [SubscribeState 1; Dispatch ACTION_A])
  = Some [(None, INIT_STATE); (Some 0, INIT); (Some 1, ACTION_A)].
Proof. vm_compute. reflexivity. Qed.

(** What an effect emits is published on the action stream and folded. *)
Example effect_output_is_dispatched :
  option_map (fun s => (act_published s, List.length (reducer_calls s)))
    (session 2 counter (Some answering) [SubscribeState 1; Dispatch ACTION_A])
  = Some ([ACTION_A; ACTION_B], 4).
Proof. vm_compute. reflexivity. Qed.

(* --------------------------------------------------------------------- *)
(** ** More on [select] *)

Section SelectMore.

Context {RT : Runtime}.

Lemma adjacent_distinct_snoc (out : list value) (v : value) :
  adjacent_distinct (out ++ [v]) <->
  adjacent_distinct out /\
  (forall k, last_emitted out = Some k -> strict_eq k v = false).
Proof.
  induction out as [|a out IH].
  - simpl. split; [intros _; split; [exact I | discriminate] | auto].
  - destruct out as [|b out].
    + simpl. unfold last_emitted. simpl. split.
      * intros [H _]. split; [exact I|]. intros k E. now injection E as <-.
      * intros [_ H]. split; [now apply H | exact I].
    + change ((a :: b :: out) ++ [v]) with (a :: (b :: out) ++ [v]).
      change (adjacent_distinct (a :: (b :: out) ++ [v]))
        with (strict_eq a b = false /\ adjacent_distinct ((b :: out) ++ [v])).
      change (adjacent_distinct (a :: b :: out))
        with (strict_eq a b = false /\ adjacent_distinct (b :: out)).
      assert (Hl : last_emitted (a :: b :: out) = last_emitted (b :: out)).
      { unfold last_emitted. simpl.
        destruct (rev out ++ [b]) as [|x l] eqn:E;
          [now destruct (rev out) | reflexivity]. }
      rewrite Hl. tauto.
Qed.

Lemma distinctUntilChanged_adjacent (src : list value) :
  adjacent_distinct (distinctUntilChanged src).
Proof.
  induction src as [|v src IH] using rev_ind; [exact I|].
  rewrite distinctUntilChanged_snoc.
  destruct (last_emitted (distinctUntilChanged src)) as [k|] eqn:Hk.
  - destruct (strict_eq k v) eqn:E.
    + now rewrite app_nil_r.
    + apply adjacent_distinct_snoc. split; [exact IH|].
      intros k' Hk'. rewrite Hk in Hk'. now injection Hk' as <-.
  - apply adjacent_distinct_snoc. split; [exact IH|]. intros k' Hk'.
    rewrite Hk in Hk'. discriminate.
Qed.

Lemma distinctUntilChanged_fixed (l : list value) :
  adjacent_distinct l -> distinctUntilChanged l = l.
Proof.
  induction l as [|v l IH] using rev_ind; [reflexivity|].
  intros H. apply adjacent_distinct_snoc in H as [Hl Hv].
  rewrite distinctUntilChanged_snoc, (IH Hl).
  destruct (last_emitted l) as [k|]; [|reflexivity].
  now rewrite (Hv k eq_refl).
Qed.

(** X1: a stream derived by [select] never emits two values in a row that
    are [===]. *)
Theorem select_never_repeats (h : heap) (sel : selector) (src : list value) :
  adjacent_distinct (select h sel src).
Proof. apply distinctUntilChanged_adjacent. Qed.

(** X2: piping the result of [select] through one more
    [distinctUntilChanged()], that is through [select(x => x)], changes
    nothing. *)
Theorem select_identity_after_select (h : heap) (sel : selector)
  (src : list value) :
  select h (Mapper (fun v => v)) (select h sel src) = select h sel src.
Proof.
  unfold select at 1. simpl. rewrite map_id.
  apply distinctUntilChanged_fixed, distinctUntilChanged_adjacent.
Qed.

Lemma subsequence_snoc_drop (out src : list value) (v : value) :
  subsequence out src -> subsequence out (src ++ [v]).
Proof.
  induction 1; simpl;
    [apply sub_drop, sub_nil | now apply sub_drop | now apply sub_keep].
Qed.

Lemma subsequence_snoc_keep (out src : list value) (v : value) :
  subsequence out src -> subsequence (out ++ [v]) (src ++ [v]).
Proof.
  induction 1; simpl;
    [apply sub_keep, sub_nil | now apply sub_drop | now apply sub_keep].
Qed.

Lemma distinctUntilChanged_subsequence (src : list value) :
  subsequence (distinctUntilChanged src) src.
Proof.
  induction src as [|v src IH] using rev_ind; [constructor|].
  rewrite distinctUntilChanged_snoc.
  destruct (last_emitted (distinctUntilChanged src)) as [k|].
  - destruct (strict_eq k v).
    + rewrite app_nil_r. now apply subsequence_snoc_drop.
    + now apply subsequence_snoc_keep.
  - now apply subsequence_snoc_keep.
Qed.

Lemma distinctUntilChanged_head (v : value) (src : list value) :
  hd_error (distinctUntilChanged (v :: src)) = Some v.
Proof.
  induction src as [|w src IH] using rev_ind; [reflexivity|].
  change (v :: src ++ [w]) with ((v :: src) ++ [w]).
  rewrite distinctUntilChanged_snoc.
  destruct (distinctUntilChanged (v :: src)) as [|x out]; [discriminate|].
  exact IH.
Qed.

(** X3: what [select] emits is the projections of the source values with
    some of them dropped, in the same order, and the projection of the
    first source value is always emitted. *)
Theorem select_drops_only (h : heap) (sel : selector) (src : list value) :
  subsequence (select h sel src) (map (projection h sel) src) /\
  hd_error (select h sel src) = hd_error (map (projection h sel) src).
Proof.
  split; [apply distinctUntilChanged_subsequence|].
  unfold select. destruct src as [|v src]; [reflexivity|].
  simpl map. apply distinctUntilChanged_head.
Qed.

Lemma plucker_undefined (h : heap) (props : list string) :
  plucker h props VUndefined = VUndefined.
Proof. now destruct props. Qed.

(** X4: descending along a path is descending along its first part and
    then, from the value reached, along the rest. *)
Theorem plucker_app (h : heap) (ps1 ps2 : list string) (x : value) :
  plucker h (ps1 ++ ps2) x = plucker h ps2 (plucker h ps1 x).
Proof.
  revert x. induction ps1 as [|p ps1 IH]; intros x; [reflexivity|].
  simpl.
  destruct (match x with VUndefined | VNull => VUndefined | _ => get_prop h x p end)
    eqn:E; try apply IH.
  now rewrite plucker_undefined.
Qed.

(** X5: when reading the next key from the value reached along the first
    part of a path gives [undefined] (the value is [null], [undefined], or
    has no such key), the whole projection is [undefined], whatever
    follows in the path. *)
Theorem plucker_missing_key (h : heap) (ps1 ps2 : list string) (p : string)
  (x : value) :
  get_prop h (plucker h ps1 x) p = VUndefined ->
  plucker h (ps1 ++ p :: ps2) x = VUndefined.
Proof.
  revert x. induction ps1 as [|q ps1 IH]; intros x H.
  - simpl in *. destruct x; simpl in *; try reflexivity; now rewrite H.
  - change ((q :: ps1) ++ p :: ps2) with (q :: ps1 ++ p :: ps2).
    cbn [plucker] in *.
    destruct (match x with VUndefined | VNull => VUndefined | _ => get_prop h x q end)
      eqn:E; try reflexivity; now apply IH.
Qed.

End SelectMore.

Section SelectMoreSamples.

#[local] Existing Instance sample_runtime.

Lemma plucker_missing_key_witness :
  plucker nested_heap (["a"%string] ++ "zz"%string :: ["b"%string]) (VRef 1)
  = VUndefined.
Proof.
  apply (@plucker_missing_key sample_runtime nested_heap ["a"%string]
           ["b"%string] "zz"%string (VRef 1)).
  reflexivity.
Defined.

End SelectMoreSamples.

(* --------------------------------------------------------------------- *)
(** ** More on [combineReducers] *)

Section CombineMore.

Context {RT : Runtime}.

Lemma combine_run_inv (reducers : list (string * FieldReducer)) (h : heap)
  (prev : loc) (action : Action) :
  prev < List.length h ->
  NoDup (map fst reducers) ->
  (forall f r, In (f, r) reducers -> allocates_only r) ->
  combine_inv h prev reducers (combine_run reducers h (Some prev) action).
Proof.
  intros Hprev Hnd Hall.
  exact (@combine_inv_fold _ h prev action reducers [] _
           (@combine_inv_start _ h prev Hprev) Hall Hnd).
Qed.

(** X6: keys of the previous aggregate for which the mapping has no
    reducer are carried over to the result unchanged. *)
Theorem combineReducers_keeps_other_keys
  (reducers : list (string * FieldReducer)) (h : heap) (prev : loc)
  (action : Action) (f : string) :
  prev < List.length h ->
  NoDup (map fst reducers) ->
  (forall f' r, In (f', r) reducers -> allocates_only r) ->
  ~ In f (map fst reducers) ->
  get_prop (snd (combineReducers reducers h (Some prev) action))
           (VRef (fst (combineReducers reducers h (Some prev) action))) f
  = get_prop h (VRef prev) f.
Proof.
  intros Hprev Hnd Hall Hf.
  exact (ci_rest (@combine_run_inv reducers h prev action Hprev Hnd Hall) f Hf).
Qed.

(** X7: called without a previous state, the composed reducer allocates
    the empty object of the default parameter and calls every field
    reducer on what that object holds for the field, which is what
    [Object.prototype] holds for it: [undefined] for a key the prototype
    does not have. The result holds for every field what its reducer
    returned; it is the empty object itself if every reducer returned a
    value [===] to what it was given, and an object allocated after it if
    one of them did not. *)
Theorem combineReducers_initial_state
  (reducers : list (string * FieldReducer)) (h : heap) (action : Action) :
  NoDup (map fst reducers) ->
  (forall f r, In (f, r) reducers -> allocates_only r) ->
  let start := h ++ [[]] in
  let res := fst (combineReducers reducers h None action) in
  let h' := snd (combineReducers reducers h None action) in
  (exists ext, h' = start ++ ext) /\
  List.length h <= res /\ res < List.length h' /\
  (forall f r, In (f, r) reducers ->
     exists ext,
       get_prop h' (VRef res) f
       = fst (r (start ++ ext) (inherited f) action)) /\
  (Forall (fun e => forall ext,
             strict_eq (inherited (fst e))
                       (fst (snd e (start ++ ext) (inherited (fst e)) action))
             = true) reducers ->
   res = List.length h /\ obj_at h' res = []) /\
  (Exists (fun e => forall ext,
             strict_eq (inherited (fst e))
                       (fst (snd e (start ++ ext) (inherited (fst e)) action))
             = false) reducers ->
   List.length h < res).
Proof.
  intros Hnd Hall start.
  assert (Hlen : List.length start = S (List.length h))
    by (unfold start; rewrite length_app; simpl; lia).
  assert (Hstart : List.length h < List.length start) by lia.
  destruct (@combine_outcome _ start (List.length h) action reducers Hstart Hnd Hall)
    as ([ext Hext] & Hacc & Hbound & Hsame & Hother & Hfields).
  unfold combineReducers, combine_run, alloc. cbv beta iota zeta. cbn [fst snd].
  fold start.
  set (st := fold_left (combine_step action) reducers _) in *.
  split; [now exists ext|]. split; [lia|]. split; [exact Hacc|].
  split; [|split].
  - intros f r Hin. destruct (Hfields f r Hin) as (ext' & E).
    exists ext'. rewrite E. unfold start. now rewrite get_prop_empty.
  - intros Hall'. assert (E : cs_acc st = List.length h).
    { apply Hsame. apply Forall_forall. intros e He ext'.
      rewrite Forall_forall in Hall'. specialize (Hall' e He ext').
      unfold start. now rewrite get_prop_empty. }
    split; [exact E|]. rewrite Hext, E.
    rewrite obj_at_old by exact Hstart. apply obj_at_new.
  - intros Hex. assert (H : List.length start <= cs_acc st); [|lia].
    apply Hother. apply Exists_exists in Hex as (e & He & Hex).
    apply Exists_exists. exists e. split; [exact He|]. intros ext'.
    unfold start. rewrite get_prop_empty. apply Hex.
Qed.

Lemma strict_eq_to_NaN (a : value) : strict_eq a VNaN = false.
Proof. now destruct a. Qed.

(** X8: a field reducer that returns [NaN] makes the composed reducer
    return a new aggregate, even when the previous sub-state was [NaN]
    too: [NaN !== NaN]. *)
Theorem combineReducers_NaN_is_always_new
  (reducers : list (string * FieldReducer)) (h : heap) (prev : loc)
  (action : Action) (f : string) (r : FieldReducer) :
  prev < List.length h ->
  NoDup (map fst reducers) ->
  (forall f' r', In (f', r') reducers -> allocates_only r') ->
  In (f, r) reducers ->
  (forall ext, fst (r (h ++ ext) (get_prop h (VRef prev) f) action) = VNaN) ->
  let res := fst (combineReducers reducers h (Some prev) action) in
  let h' := snd (combineReducers reducers h (Some prev) action) in
  List.length h <= res /\ res <> prev /\ get_prop h' (VRef res) f = VNaN.
Proof.
  intros Hprev Hnd Hall Hin Hnan.
  unfold combineReducers, combine_run. cbn [fst snd].
  destruct (@combine_outcome _ h prev action reducers Hprev Hnd Hall)
    as (_ & _ & _ & _ & Hother & Hfields).
  assert (Hfresh : List.length h
                   <= cs_acc (fold_left (combine_step action) reducers
                                {| cs_heap := h; cs_acc := prev; cs_calls := [] |})).
  { apply Hother. apply Exists_exists. exists (f, r). split; [exact Hin|].
    intros ext. cbn [fst snd]. rewrite (Hnan ext). apply strict_eq_to_NaN. }
  split; [exact Hfresh|]. split; [lia|].
  destruct (Hfields f r Hin) as (ext & E). now rewrite E, (Hnan ext).
Qed.

(** The calls a mapping of pure reducers makes. *)
Lemma pure_calls (gs : list (string * (value -> Action -> value)))
  (action : Action) (st : combine_state) (c : field_call) :
  In c (cs_calls (fold_left (combine_step action) (pure_mapping gs) st)) ->
  In c (cs_calls st) \/
  exists g, In (c_field c, g) gs /\ c_next c = g (c_prev c) action.
Proof.
  revert st. induction gs as [|[f g] gs IH]; intros st Hc; [now left|].
  simpl in Hc. apply IH in Hc as [Hc|(g' & Hin & E)].
  - assert (Hcalls : cs_calls (combine_step action st (f, pure_field g))
                     = cs_calls st
                       ++ [mkCall f (get_prop (cs_heap st) (VRef (cs_acc st)) f)
                             (g (get_prop (cs_heap st) (VRef (cs_acc st)) f) action)]).
    { unfold combine_step, pure_field, alloc. cbn [fst snd].
      now destruct (strict_neq _ _). }
    rewrite Hcalls in Hc. apply in_app_or in Hc as [Hc|[<-|[]]]; [now left|].
    right. exists g. split; [now left | reflexivity].
  - right. exists g'. split; [now right | exact E].
Qed.

Lemma pure_mapping_keys (gs : list (string * (value -> Action -> value))) :
  map fst (pure_mapping gs) = map fst gs.
Proof. unfold pure_mapping. rewrite map_map. reflexivity. Qed.

Lemma pure_mapping_allocates
  (gs : list (string * (value -> Action -> value))) (f : string)
  (r : FieldReducer) :
  In (f, r) (pure_mapping gs) -> allocates_only r.
Proof.
  unfold pure_mapping. intros H. apply in_map_iff in H as ([f' g] & E & _).
  injection E as _ <-. intros h v a. exists []. simpl. now rewrite app_nil_r.
Qed.

Lemma NoDup_keys_functional (X : Type) (l : list (string * X)) (f : string)
  (x y : X) :
  NoDup (map fst l) -> In (f, x) l -> In (f, y) l -> x = y.
Proof.
  induction l as [|[f' z] l IH]; intros Hnd Hx Hy; [contradiction|].
  simpl in Hnd. inversion Hnd as [|? ? Hnot Hnd']. subst.
  destruct Hx as [Ex|Hx], Hy as [Ey|Hy].
  - congruence.
  - injection Ex as -> ->. exfalso. apply Hnot.
    change f with (fst (f, y)). now apply in_map.
  - injection Ey as -> ->. exfalso. apply Hnot.
    change f with (fst (f, x)). now apply in_map.
  - now apply IH.
Qed.

(** What a mapping of pure reducers computes, field by field. *)
Lemma combine_pure_fields (gs : list (string * (value -> Action -> value)))
  (h : heap) (prev : loc) (action : Action) (f : string)
  (g : value -> Action -> value) :
  prev < List.length h ->
  NoDup (map fst gs) ->
  In (f, g) gs ->
  get_prop (snd (combineReducers (pure_mapping gs) h (Some prev) action))
           (VRef (fst (combineReducers (pure_mapping gs) h (Some prev) action))) f
  = g (get_prop h (VRef prev) f) action.
Proof.
  intros Hprev Hnd Hin.
  assert (Hnd' : NoDup (map fst (pure_mapping gs)))
    by (now rewrite pure_mapping_keys).
  pose proof (@combine_run_inv (pure_mapping gs) h prev action Hprev Hnd'
                (@pure_mapping_allocates gs)) as Hinv.
  assert (Hf : In f (map c_field
                       (cs_calls (combine_run (pure_mapping gs) h (Some prev) action)))).
  { rewrite (ci_fields Hinv), pure_mapping_keys.
    change f with (fst (f, g)). now apply in_map. }
  apply in_map_iff in Hf as (c & Ef & Hc). subst f.
  unfold combineReducers. cbn [fst snd]. rewrite (ci_next Hinv c Hc).
  pose proof Hc as Hc'. unfold combine_run in Hc'.
  apply pure_calls in Hc' as [[]|(g' & Hin' & E)].
  rewrite E, (ci_prev Hinv c Hc).
  now rewrite (@NoDup_keys_functional _ gs (c_field c) g g' Hnd Hin Hin').
Qed.

Lemma combine_pure_other_keys (gs : list (string * (value -> Action -> value)))
  (h : heap) (prev : loc) (action : Action) (f : string) :
  prev < List.length h ->
  NoDup (map fst gs) ->
  ~ In f (map fst gs) ->
  get_prop (snd (combineReducers (pure_mapping gs) h (Some prev) action))
           (VRef (fst (combineReducers (pure_mapping gs) h (Some prev) action))) f
  = get_prop h (VRef prev) f.
Proof.
  intros Hprev Hnd Hf.
  assert (Hnd' : NoDup (map fst (pure_mapping gs)))
    by (now rewrite pure_mapping_keys).
  apply (ci_rest (@combine_run_inv (pure_mapping gs) h prev action Hprev Hnd'
                    (@pure_mapping_allocates gs))).
  now rewrite pure_mapping_keys.
Qed.

(** X9: with pure field reducers, every mapped field of the result holds
    its reducer applied to that field of the previous aggregate and to the
    action: no field reducer sees what another one returned. *)
Theorem combineReducers_fieldwise
  (gs : list (string * (value -> Action -> value)))
  (h : heap) (prev : loc) (action : Action) (f : string)
  (g : value -> Action -> value) :
  prev < List.length h ->
  NoDup (map fst gs) ->
  In (f, g) gs ->
  get_prop (snd (combineReducers (pure_mapping gs) h (Some prev) action))
           (VRef (fst (combineReducers (pure_mapping gs) h (Some prev) action))) f
  = g (get_prop h (VRef prev) f) action.
Proof. apply combine_pure_fields. Qed.

(** X10: with pure field reducers, the order of the keys in the mapping
    does not change the value of any key of the result. *)
Theorem combineReducers_order_irrelevant
  (gs gs' : list (string * (value -> Action -> value)))
  (h : heap) (prev : loc) (action : Action) (f : string) :
  prev < List.length h ->
  NoDup (map fst gs) ->
  Permutation gs gs' ->
  get_prop (snd (combineReducers (pure_mapping gs) h (Some prev) action))
           (VRef (fst (combineReducers (pure_mapping gs) h (Some prev) action))) f
  = get_prop (snd (combineReducers (pure_mapping gs') h (Some prev) action))
             (VRef (fst (combineReducers (pure_mapping gs') h (Some prev) action))) f.
Proof.
  intros Hprev Hnd Hperm.
  assert (Hnd' : NoDup (map fst gs'))
    by (eapply Permutation_NoDup; [apply Permutation_map; exact Hperm | exact Hnd]).
  destruct (in_dec string_dec f (map fst gs)) as [Hin|Hout].
  - apply in_map_iff in Hin as ([f' g] & E & Hin). simpl in E. subst f'.
    rewrite (@combine_pure_fields gs h prev action f g Hprev Hnd Hin).
    symmetry. apply combine_pure_fields; auto.
    eapply Permutation_in; eassumption.
  - rewrite (@combine_pure_other_keys gs h prev action f Hprev Hnd Hout).
    symmetry. apply combine_pure_other_keys; auto.
    intros Hin. apply Hout.
    eapply Permutation_in; [apply Permutation_sym, Permutation_map; exact Hperm|].
    exact Hin.
Qed.

End CombineMore.

Section CombineMoreSamples.

#[local] Existing Instance sample_runtime.

Lemma sample_mapping_NoDup : NoDup (map fst sample_mapping).
Proof. simpl. repeat constructor; simpl; intuition discriminate. Qed.

Lemma prototype_reducers_NoDup : NoDup (map fst prototype_reducers).
Proof. simpl. repeat constructor; simpl; intuition discriminate. Qed.

Lemma prototype_reducers_allocate (f : string) (r : FieldReducer) :
  In (f, r) prototype_reducers -> allocates_only r.
Proof.
  intros [E|[E|[]]]; inversion E; intros h v a; exists []; simpl;
    now rewrite app_nil_r.
Qed.

Lemma combineReducers_keeps_other_keys_witness :
  get_prop (snd (combineReducers sample_reducers wide_heap (Some 0) TICK))
           (VRef (fst (combineReducers sample_reducers wide_heap (Some 0) TICK)))
           "z"
  = get_prop wide_heap (VRef 0) "z".
Proof.
  apply (@combineReducers_keeps_other_keys sample_runtime sample_reducers
           wide_heap 0 TICK "z").
  - simpl. lia.
  - exact sample_reducers_NoDup.
  - exact sample_reducers_allocate.
  - simpl. intuition discriminate.
Defined.

(** The mapping [{constructor: keep, b: bump}] on no previous state: the
    reducer of [constructor] is called on [Object], the one of [b] on
    [undefined], and the result is a new object. *)
Lemma combineReducers_initial_state_witness :
  let start := wide_heap ++ [[]] in
  let res := fst (combineReducers prototype_reducers wide_heap None TICK) in
  let h' := snd (combineReducers prototype_reducers wide_heap None TICK) in
  List.length wide_heap < res /\
  (exists ext,
     get_prop h' (VRef res) "constructor"
     = fst (keep_field (start ++ ext) (inherited "constructor") TICK)) /\
  (exists ext,
     get_prop h' (VRef res) "b"
     = fst (bump_field (start ++ ext) (inherited "b") TICK)).
Proof.
  destruct (@combineReducers_initial_state sample_runtime prototype_reducers
              wide_heap TICK prototype_reducers_NoDup prototype_reducers_allocate)
    as (_ & _ & _ & Hfields & _ & Hother).
  split; [|split].
  - apply Hother. apply Exists_cons_tl, Exists_cons_hd. intros ext. reflexivity.
  - apply (Hfields "constructor"%string keep_field). simpl. now left.
  - apply (Hfields "b"%string bump_field). simpl. now right; left.
Defined.

Example combineReducers_initial_state_values :
  combineReducers prototype_reducers wide_heap None TICK
  = (2, wide_heap ++ [[]; [("b"%string, VNum 0)]]) /\
  inherited "constructor" = VNative "Object" /\
  inherited "b" = VUndefined.
Proof. repeat split. Qed.

Lemma combineReducers_NaN_is_always_new_witness :
  let res := fst (combineReducers (pure_mapping [("n"%string, nan_field)])
                                  [[("n"%string, VNaN)]] (Some 0) TICK) in
  let h' := snd (combineReducers (pure_mapping [("n"%string, nan_field)])
                                 [[("n"%string, VNaN)]] (Some 0) TICK) in
  List.length [[("n"%string, VNaN)]] <= res /\ res <> 0 /\
  get_prop h' (VRef res) "n" = VNaN.
Proof.
  apply (@combineReducers_NaN_is_always_new sample_runtime
           (pure_mapping [("n"%string, nan_field)]) [[("n"%string, VNaN)]] 0 TICK
           "n"%string (pure_field nan_field)).
  - simpl. lia.
  - simpl. repeat constructor. simpl. intuition.
  - apply pure_mapping_allocates.
  - simpl. now left.
  - intros ext. reflexivity.
Defined.

Lemma combineReducers_fieldwise_witness :
  get_prop (snd (combineReducers (pure_mapping sample_mapping) wide_heap (Some 0) TICK))
           (VRef (fst (combineReducers (pure_mapping sample_mapping) wide_heap
                                       (Some 0) TICK))) "b"
  = count_field (get_prop wide_heap (VRef 0) "b") TICK.
Proof.
  apply (@combineReducers_fieldwise sample_runtime sample_mapping wide_heap 0
           TICK "b" count_field).
  - simpl. lia.
  - exact sample_mapping_NoDup.
  - simpl. now right; left.
Defined.

Lemma combineReducers_order_irrelevant_witness :
  get_prop (snd (combineReducers (pure_mapping sample_mapping) wide_heap (Some 0) TICK))
           (VRef (fst (combineReducers (pure_mapping sample_mapping) wide_heap
                                       (Some 0) TICK))) "b"
  = get_prop (snd (combineReducers (pure_mapping (rev sample_mapping)) wide_heap
                                   (Some 0) TICK))
             (VRef (fst (combineReducers (pure_mapping (rev sample_mapping)) wide_heap
                                         (Some 0) TICK))) "b".
Proof.
  apply (@combineReducers_order_irrelevant sample_runtime sample_mapping
           (rev sample_mapping) wide_heap 0 TICK "b").
  - simpl. lia.
  - exact sample_mapping_NoDup.
  - apply Permutation_rev.
Defined.

Example combineReducers_wide :
  combineReducers sample_reducers wide_heap (Some 0) TICK
  = (1, wide_heap ++ [[("a"%string, VNum 1); ("z"%string, VStr "kept");
                       ("b"%string, VNum 3)]]).
Proof. reflexivity. Qed.

End CombineMoreSamples.

(* --------------------------------------------------------------------- *)
(** ** More on [combineEffects] *)

Section Routing.

Variables State Mem : Type.

Lemma channel_count_cons (eff : Effect State Mem)
  (effects : list (Effect State Mem)) :
  channel_count (eff :: effects)
  = List.length (eff_channels eff) + channel_count effects.
Proof. unfold channel_count. simpl. now rewrite length_app. Qed.

(** X11: a delivery on a channel of the composed effect reaches the one
    effect that opened that channel, under the number the channel has for
    that effect; the composed effect emits what that effect emits, and the
    memories of the other effects are left alone. *)
Theorem combineEffects_routes_to_owner
  (before after : list (Effect State Mem)) (eff : Effect State Mem)
  (ms_before ms_after : list Mem) (m : Mem) (j : nat) (i : input State) :
  List.length ms_before = List.length before ->
  j < List.length (eff_channels eff) ->
  eff_handle (combineEffects (before ++ eff :: after))
             (channel_count before + j) i (ms_before ++ m :: ms_after)
  = (ms_before ++ fst (eff_handle eff j i m) :: ms_after,
     snd (eff_handle eff j i m)).
Proof.
  intros Hlen Hj. cbn [combineEffects eff_handle].
  revert ms_before Hlen.
  induction before as [|e before IH]; intros ms_before Hlen.
  - destruct ms_before; [|discriminate]. simpl.
    apply Nat.ltb_lt in Hj. rewrite Hj. now destruct (eff_handle eff j i m).
  - destruct ms_before as [|m0 ms_before]; [discriminate|].
    injection Hlen as Hlen. rewrite channel_count_cons. simpl.
    assert (E : (List.length (eff_channels e) + channel_count before + j
                 <? List.length (eff_channels e)) = false)
      by (apply Nat.ltb_ge; lia).
    rewrite E.
    replace (List.length (eff_channels e) + channel_count before + j
             - List.length (eff_channels e))
      with (channel_count before + j) by lia.
    now rewrite (IH ms_before Hlen).
Qed.

End Routing.

Lemma combineEffects_routes_to_owner_witness :
  eff_handle (combineEffects ([watching] ++ tallying :: [watching]))
             (channel_count [watching] + 0) (InAction ACTION_A)
             ([5] ++ 7 :: [9])
  = ([5] ++ fst (eff_handle tallying 0 (InAction ACTION_A) 7) :: [9],
     snd (eff_handle tallying 0 (@InAction nat ACTION_A) 7)).
Proof.
  apply (@combineEffects_routes_to_owner nat nat [watching] [watching] tallying
           [5] [9] 7 0 (InAction ACTION_A)).
  - reflexivity.
  - simpl. lia.
Defined.

Example combineEffects_routing :
  eff_handle (combineEffects [watching; tallying]) 2 (@InAction nat ACTION_A) [5; 7]
  = ([5; 8], [ACTION_B]).
Proof. reflexivity. Qed.

(* --------------------------------------------------------------------- *)
(** ** More on [createStore]: one fold, started late *)

Section OneFold.

Variables State Mem : Type.
Variable R : Reducer State.

Local Abbreviation store := (store State Mem).

Lemma calls_of_snoc (acc : State) (l : list Action) (a : Action) :
  calls_of R acc (l ++ [a])
  = calls_of R acc l ++ [(Some (last (fold_states R acc l) acc), a)].
Proof.
  revert acc. induction l as [|b l IH]; intros acc; [reflexivity|].
  simpl calls_of. rewrite IH. cbn [fold_states]. now rewrite last_cons.
Qed.

Lemma fold_states_snoc (acc : State) (l : list Action) (a : Action) :
  fold_states R acc (l ++ [a])
  = fold_states R acc l ++ [R (Some (last (fold_states R acc l) acc)) a].
Proof.
  revert acc. induction l as [|b l IH]; intros acc; [reflexivity|].
  simpl fold_states. rewrite IH. cbn [app]. f_equal. f_equal.
  fold (fold_states R (R (Some acc) b) l). now rewrite last_cons.
Qed.

Lemma computed_calls_of (acc : State) (l : list Action) :
  map (fun c => R (fst c) (snd c)) (calls_of R acc l) = fold_states R acc l.
Proof.
  revert acc. induction l as [|a l IH]; intros acc; [reflexivity|].
  simpl. now rewrite IH.
Qed.

Lemma chained_same (s s' : store) :
  reducer_calls s' = reducer_calls s -> scan_acc s' = scan_acc s ->
  chained R s -> chained R s'.
Proof.
  intros E1 E2 [H1 H2]. split; unfold folded_actions in *; now rewrite ?E1, ?E2.
Qed.

Lemma chained_scan_push (a : Action) (s : store) :
  chained R s -> chained R (scan_push R a s).
Proof.
  intros [H1 H2].
  assert (Hf : folded_actions (scan_push R a s) = folded_actions s ++ [a]).
  { unfold folded_actions. simpl. rewrite H1. simpl. now rewrite map_app. }
  split; rewrite Hf.
  - simpl. rewrite H1 at 1. rewrite calls_of_snoc, <- H2. reflexivity.
  - simpl. rewrite fold_states_snoc, last_last, <- H2. reflexivity.
Qed.

Lemma chained_start_sharing (o : state_observer) (s : store) :
  chained R s -> chained R (start_sharing R o s).
Proof.
  intros H. unfold start_sharing.
  apply (@chained_same (scan_push R (act_value s) s)); [reflexivity .. |].
  now apply chained_scan_push.
Qed.

Lemma chained_see_all (os : list (observation State)) (s : store) :
  chained R s -> chained R (see_all os s).
Proof.
  apply chained_same.
  - now apply (@see_all_frame _ _ _ (@reducer_calls _ _)).
  - now apply (@see_all_frame _ _ _ (@scan_acc _ _)).
Qed.

Lemma session_chained (fuel : nat) (rootEffect : option (Effect State Mem))
  (evs : list event) (s : store) :
  session fuel R rootEffect evs = Some s -> sound R s /\ chained R s.
Proof.
  apply (@session_inv State Mem R (fun t => sound R t /\ chained R t)).
  - intros a t [H1 H2]. split; [now apply sound_publish|].
    revert H2. now apply chained_same.
  - intros x a t [H1 H2]. split; [now apply sound_see_action|].
    revert H2. now apply chained_same.
  - intros x v t Hin [H1 H2]. split; [now apply sound_see_state|].
    revert H2. now apply chained_same.
  - intros eff m m' t _ [H1 H2]. split; [now apply sound_remember|].
    revert H2. now apply chained_same.
  - intros a t Hin [H1 H2]. split; [now apply sound_scan_push|].
    now apply chained_scan_push.
  - intros o t Ho [H1 H2]. split; [now apply sound_listen|].
    revert H2. now apply chained_same.
  - intros k t Hc [H1 H2]. split; [now apply sound_join_chan|].
    revert H2. now apply chained_same.
  - intros x t Hc [H1 H2]. split; [now apply sound_join_ext|].
    apply chained_see_all. revert H2. now apply chained_same.
  - intros k t Hc [H1 H2]. split; [now apply sound_share_chan|].
    now apply chained_start_sharing.
  - intros x t Hc [H1 H2]. split; [now apply sound_share_ext|].
    apply (@chained_same (start_sharing R (SExt x) t)); [reflexivity .. |].
    now apply chained_start_sharing.
  - intros t [H1 _]. exact (sound_tidy H1).
  - intros eff. split; [apply sound_started | now split].
  - split; [apply sound_failed | now split].
Qed.

(** X12: whatever the effect does, nested deliveries included, the calls
    of the reducer are those of one fold: the first call is on
    [undefined] and [@@INIT/state], every later call is on the state the
    call before it returned, and the states the state stream holds for
    replay are exactly the results of the later calls. *)
Theorem reducer_calls_are_one_fold (fuel : nat)
  (rootEffect : option (Effect State Mem)) (evs : list event) (s : store) :
  session fuel R rootEffect evs = Some s ->
  reducer_calls s
  = (None, INIT_STATE) :: calls_of R (R None INIT_STATE) (folded_actions s) /\
  replay_events s = fold_states R (R None INIT_STATE) (folded_actions s).
Proof.
  intros Hs. destruct (session_chained _ _ _ Hs) as [Hsound [H1 H2]].
  split; [exact H1|].
  rewrite (w_replay Hsound). unfold computed_states.
  rewrite H1 at 1. simpl. apply computed_calls_of.
Qed.

(** *** Before the first subscription to [state$] *)

Lemma next_wiring (fuel : nat) (a : Action) (s s' : store) :
  next R fuel a s = Some s' -> same_wiring s s'.
Proof.
  intros H. apply (@next_keeps State Mem R (fun _ => True)) in H; auto. tauto.
Qed.

Lemma to_effect_wiring (fuel k : nat) (i : input State) (s s' : store) :
  to_effect (next R fuel) k i s = Some s' -> same_wiring s s'.
Proof.
  intros H.
  apply (@to_effect_keeps State Mem (fun _ => True)) in H; auto; [tauto|].
  intros a t t' Ht. split; [eapply next_wiring; eassumption | auto].
Qed.

Lemma open_channels_idle (fuel : nat) (cs : list channel) (k : nat)
  (s s' : store) :
  existsb (fun c => match c with ChState => true | _ => false end) cs = false ->
  open_channels R (next R fuel) k cs s = Some s' ->
  connected s' = connected s.
Proof.
  revert k s. induction cs as [|c cs IH]; intros k s Hcs Hrun; simpl in Hrun.
  - now injection Hrun as <-.
  - simpl in Hcs. apply orb_false_iff in Hcs as [Hc Hcs].
    destruct (open_channel R (next R fuel) k c s) as [s1|] eqn:E; [|discriminate].
    rewrite (IH (S k) s1 Hcs Hrun). destruct c; try discriminate; unfold open_channel in E.
    + unfold subscribe_action in E. cbn [notify_action] in E.
      apply to_effect_wiring in E as (_ & _ & E). exact E.
    + now injection E as <-.
Qed.

Lemma run_idle (fuel : nat) (evs : list event) (s s' : store) :
  without_state_subscriptions evs = evs ->
  run R fuel evs s = Some s' ->
  connected s' = connected s.
Proof.
  unfold run. revert s. induction evs as [|ev evs IH]; intros s Hevs Hrun;
    simpl in Hrun.
  - now injection Hrun as <-.
  - destruct (step R fuel ev s) as [s1|] eqn:E; [|discriminate].
    unfold without_state_subscriptions in Hevs. simpl in Hevs.
    destruct (is_state_subscription ev) eqn:Hev; simpl in Hevs.
    + exfalso.
      assert (Hlen : List.length (filter (fun ev0 => negb (is_state_subscription ev0)) evs)
                     <= List.length evs) by apply filter_length_le.
      rewrite Hevs in Hlen. simpl in Hlen. lia.
    + injection Hevs as Hevs. rewrite (IH s1 Hevs Hrun).
      destruct ev as [a|x|x|k n]; try discriminate; unfold step in E.
      * apply next_wiring in E as (_ & _ & E). exact E.
      * rewrite subscribe_action_ext in E. now injection E as <-.
      * apply to_effect_wiring in E as (_ & _ & E). exact E.
Qed.

Lemma session_idle (fuel : nat) (eff : Effect State Mem) (evs : list event)
  (s : store) :
  listens_to_state eff = false ->
  without_state_subscriptions evs = evs ->
  session fuel R (Some eff) evs = Some s ->
  connected s = false.
Proof.
  intros Heff Hevs. unfold session, createStore, register.
  destruct (open_channels _ _ _ _ _) as [s0|] eqn:E0; [|discriminate].
  intros Hrun. rewrite (@run_idle fuel evs s0 s Hevs Hrun).
  now rewrite (@open_channels_idle fuel (eff_channels eff) 0 _ s0 Heff E0).
Qed.

(** X13: as long as nobody has subscribed to the state stream, neither
    the outside nor the effect, the reducer is not called again after the
    seed, whatever is dispatched and whatever the effect emits. *)
Theorem no_fold_before_first_subscription (fuel : nat)
  (eff : Effect State Mem) (evs : list event) (s : store) :
  listens_to_state eff = false ->
  without_state_subscriptions evs = evs ->
  session fuel R (Some eff) evs = Some s ->
  reducer_calls s = [(None, INIT_STATE)] /\
  replay_events s = [] /\
  scan_acc s = R None INIT_STATE.
Proof.
  intros Heff Hevs Hs.
  pose proof (session_sound _ _ _ _ Hs) as Hsound.
  pose proof (@session_idle fuel eff evs s Heff Hevs Hs) as Hc.
  destruct (w_idle Hsound Hc) as (_ & H1 & H2).
  repeat split; auto. now apply (sound_idle_replay Hsound).
Qed.

Lemma session_snoc (fuel : nat) (rootEffect : option (Effect State Mem))
  (evs : list event) (ev : event) :
  session fuel R rootEffect (evs ++ [ev])
  = match session fuel R rootEffect evs with
    | Some s => step R fuel ev s
    | None => None
    end.
Proof.
  unfold session. destruct (createStore fuel R rootEffect) as [s0|]; [|reflexivity].
  unfold run. rewrite each_app.
  destruct (each (step R fuel) evs s0) as [s1|]; [|reflexivity].
  simpl. now destruct (step R fuel ev s1).
Qed.

(** X14: the first subscriber of the state stream is handed one state:
    the reducer applied to the seed and to the action published last
    before it subscribed ([@@INIT] if there was none). Whatever was
    published earlier is never folded. *)
Theorem first_subscription_folds_latest_only (fuel : nat)
  (eff : Effect State Mem) (evs : list event) (x : nat) (s : store) :
  listens_to_state eff = false ->
  without_state_subscriptions evs = evs ->
  session fuel R (Some eff) (evs ++ [SubscribeState x]) = Some s ->
  states_seen x s = [R (Some (R None INIT_STATE)) (last (act_published s) INIT)] /\
  reducer_calls s
  = [(None, INIT_STATE);
     (Some (R None INIT_STATE), last (act_published s) INIT)].
Proof.
  intros Heff Hevs. rewrite session_snoc.
  destruct (session fuel R (Some eff) evs) as [s1|] eqn:E1; [|discriminate].
  pose proof (session_sound _ _ _ _ E1) as Hsound.
  pose proof (@session_idle fuel eff evs s1 Heff Hevs E1) as Hc.
  destruct (w_idle Hsound Hc) as (Hso & Hcalls & Hacc).
  unfold step. rewrite subscribe_state_ext_first by auto.
  intros E. injection E as <-. split.
  - rewrite states_seen_see_state, Nat.eqb_refl.
    change (states_seen x (start_sharing R (SExt x) s1)) with (states_seen x s1).
    rewrite (sound_idle_unseen x Hsound Hc). simpl.
    now rewrite Hacc, (w_value Hsound).
  - simpl. now rewrite Hcalls, Hacc, (w_value Hsound).
Qed.

End OneFold.

(* --------------------------------------------------------------------- *)
(** ** More on [createStore]: sessions with a silent effect, event by
       event *)

Section SilentSessions.

Variables State Mem : Type.
Variable R : Reducer State.

Local Abbreviation store := (store State Mem).

Lemma actions_of_notes (x : nat) (v : State) (l : list state_observer) :
  actions_of x (state_notes v l) = [].
Proof. induction l as [|[y|k] l IH]; simpl; auto. Qed.

Lemma actions_of_replayed (x y : nat) (l : list State) :
  actions_of x (map (SawState y) l) = [].
Proof. induction l as [|v l IH]; simpl; auto. Qed.

Lemma actions_seen_see_all (x : nat) (os : list (observation State)) (s : store) :
  actions_seen x (see_all os s) = actions_seen x s ++ actions_of x os.
Proof. unfold actions_seen. now rewrite seen_see_all, actions_of_app. Qed.

Lemma actions_seen_see_action (x y : nat) (a : Action) (s : store) :
  actions_seen x (see (SawAction y a) s)
  = actions_seen x s ++ (if Nat.eqb y x then [a] else []).
Proof. unfold actions_seen. simpl. now rewrite actions_of_app. Qed.

Lemma actions_seen_see_state (x y : nat) (v : State) (s : store) :
  actions_seen x (see (SawState y v) s) = actions_seen x s.
Proof.
  unfold actions_seen. simpl. rewrite actions_of_app. simpl. apply app_nil_r.
Qed.

Lemma quiet_fold_actions (a : Action) (x : nat) (l : list action_observer)
  (t : store) :
  actions_seen x (fold_left (quiet_notify R a) l t)
  = actions_seen x t ++ repeat a (List.length (filter (is_aext x) l)).
Proof.
  revert t. induction l as [|o l IH]; intros t; simpl.
  - now rewrite app_nil_r.
  - rewrite IH. destruct o as [y| |k]; simpl.
    + rewrite actions_seen_see_action. destruct (Nat.eqb y x); simpl.
      * now rewrite <- app_assoc.
      * now rewrite app_nil_r.
    + unfold quiet_scan. rewrite actions_seen_see_all, actions_of_notes.
      now rewrite app_nil_r.
    + reflexivity.
Qed.

Lemma flat_map_repeat_0 (X Y : Type) (l : list X) (f : X -> Y) :
  flat_map (fun a => repeat (f a) 0) l = [].
Proof. induction l; simpl; auto. Qed.

Lemma flat_map_repeat_1 (X : Type) (l : list X) :
  flat_map (fun a => repeat a 1) l = l.
Proof. induction l as [|a l IH]; simpl; [reflexivity | f_equal; exact IH]. Qed.

(** What one event does to a sound store whose effect is silent. *)
Lemma quiet_step_facts (fuel : nat) (ev : event) (s : store) :
  quiet s -> sound R s ->
  exists s',
    step R (S fuel) ev s = Some s' /\ quiet s' /\ sound R s' /\
    act_published s' = act_published s ++ dispatched [ev] /\
    (forall x, listeners x s' = listeners x s + subscriptions x [ev]) /\
    (forall x, action_listeners x s'
               = action_listeners x s + action_subscriptions x [ev]) /\
    (tuned s -> tuned s') /\
    (forall x, action_subscriptions x [ev] = 0 ->
               actions_seen x s'
               = actions_seen x s
                 ++ flat_map (fun a => repeat a (action_listeners x s))
                             (dispatched [ev])) /\
    (connected s = true ->
     connected s' = true /\
     replay_events s'
     = replay_events s ++ fold_states R (scan_acc s) (dispatched [ev]) /\
     scan_acc s' = last (fold_states R (scan_acc s) (dispatched [ev])) (scan_acc s)).
Proof.
  intros Hq Hsound.
  assert (Hstep : forall s', step R (S fuel) ev s = Some s' -> sound R s')
    by (intros s' E; eapply step_sound; eassumption).
  destruct ev as [a|y|y|k n]; unfold step in *.
  - (* a dispatch *)
    destruct (quiet_next_total R fuel a Hq) as (s' & E & Hq' & Her).
    exists s'. split; [exact E|]. split; [exact Hq'|]. split; [now apply Hstep|].
    set (vs := fold_states R (scan_acc s)
                 (repeat a (if connected s then 1 else 0))).
    assert (Hspec : forall x,
               scan_acc s' = last vs (scan_acc s) /\
               replay_events s' = replay_events s ++ vs /\
               states_seen x s'
               = states_seen x s ++ flat_map (fun v => repeat v (listeners x s)) vs /\
               act_published s' = act_published s ++ [a] /\
               same_wiring s s').
    { intros x.
      pose proof (quiet_fold_spec R a x (act_observers (erase s)) (publish a (erase s)))
        as Hspec.
      cbn zeta in Hspec. fold (quiet_next R a (erase s)) in Hspec.
      rewrite <- Her in Hspec. unfold states_seen in Hspec. simpl in Hspec.
      rewrite (w_one_scan Hsound) in Hspec.
      destruct Hspec as (S1 & S2 & S3 & S4 & _ & (W1 & W2 & W3)).
      repeat split; auto. }
    assert (Hact : forall x,
               actions_seen x s' = actions_seen x s ++ repeat a (action_listeners x s)).
    { intros x. change (actions_seen x s') with (actions_seen x (erase s')).
      rewrite Her. unfold quiet_next. rewrite quiet_fold_actions. reflexivity. }
    destruct (Hspec 0) as (Hacc & Hrep & _ & Hpub & (W1 & W2 & W3)).
    split; [exact Hpub|].
    split; [intros x; unfold listeners; rewrite W2; simpl; lia|].
    split; [intros x; unfold action_listeners; rewrite W1; simpl; lia|].
    split; [|split].
    + intros Ht x. destruct (Hspec x) as (_ & _ & Hseen & _).
      assert (Hl : listeners x s' = listeners x s)
        by (unfold listeners; now rewrite W2).
      rewrite Hl, Hseen, Hrep. destruct (Ht x) as [T0 T1].
      unfold vs. destruct (connected s); simpl.
      * split; intros E0; rewrite E0; simpl;
          [now rewrite (T0 E0) | now rewrite (T1 E0)].
      * rewrite !app_nil_r. split; auto.
    + intros x _. rewrite Hact. simpl. now rewrite app_nil_r.
    + intros Hc. rewrite W3, Hacc, Hrep. unfold vs. rewrite Hc. simpl. auto.
  - (* a subscription to state$ *)
    destruct (connected s) eqn:Hc.
    + rewrite subscribe_state_ext_joined in * by exact Hc.
      eexists. split; [reflexivity|].
      set (s' := see_all _ _) in *.
      assert (Hf : forall (X : Type) (f : store -> X),
                 (forall o u, f (see o u) = f u) ->
                 f s' = f (add_state_observer (SExt y) s)).
      { intros X f Hf. unfold s'. now apply see_all_frame. }
      split; [eapply quiet_same; [|exact Hq];
              now rewrite (Hf _ (@eff_running _ _)) by reflexivity|].
      split; [now apply Hstep|].
      split; [rewrite (Hf _ (@act_published _ _)) by reflexivity; simpl;
              now rewrite app_nil_r|].
      assert (Hl : forall x, listeners x s'
                             = listeners x s + (if Nat.eqb y x then 1 else 0)).
      { intros x. unfold listeners.
        rewrite (Hf _ (@state_observers _ _)) by reflexivity. simpl.
        rewrite filter_app, length_app. simpl. now destruct (Nat.eqb y x). }
      split; [intros x; rewrite Hl; simpl; lia|].
      split; [intros x; unfold action_listeners;
              rewrite (Hf _ (@act_observers _ _)) by reflexivity; simpl; lia|].
      split; [|split].
      * intros Ht x. rewrite Hl.
        rewrite (Hf _ (@replay_events _ _)) by reflexivity.
        unfold s'. rewrite states_seen_see_all, states_of_replayed.
        change (states_seen x (add_state_observer (SExt y) s)) with (states_seen x s).
        change (replay_events (add_state_observer (SExt y) s)) with (replay_events s).
        destruct (Ht x) as [T0 T1]. destruct (Nat.eqb y x).
        -- split; intros E0; [lia|].
           assert (E1 : listeners x s = 0) by lia. now rewrite (T0 E1).
        -- rewrite Nat.add_0_r, app_nil_r. split; auto.
      * intros x _. unfold s'.
        rewrite actions_seen_see_all, actions_of_replayed. reflexivity.
      * intros _. rewrite (Hf _ (@connected _ _)), (Hf _ (@replay_events _ _)),
          (Hf _ (@scan_acc _ _)) by reflexivity. simpl.
        now rewrite app_nil_r.
    + pose proof (sound_tidy Hsound Hc) as Hso.
      rewrite subscribe_state_ext_first in * by auto.
      eexists. split; [reflexivity|].
      split; [eapply quiet_same; [|exact Hq]; reflexivity|].
      split; [now apply Hstep|].
      split; [simpl; now rewrite app_nil_r|].
      assert (Hl : forall x,
                 listeners x (see (SawState y (R (Some (scan_acc s)) (act_value s)))
                                  (start_sharing R (SExt y) s))
                 = listeners x s + (if Nat.eqb y x then 1 else 0)).
      { intros x. unfold listeners. simpl. rewrite Hso. simpl.
        now destruct (Nat.eqb y x). }
      split; [intros x; rewrite Hl; simpl; lia|].
      split; [intros x; unfold action_listeners; simpl;
              rewrite filter_app, length_app; simpl; lia|].
      split; [|split].
      * intros _ x. rewrite Hl. rewrite states_seen_see_state.
        change (states_seen x (start_sharing R (SExt y) s)) with (states_seen x s).
        rewrite (sound_idle_unseen x Hsound Hc). simpl.
        rewrite (sound_idle_replay Hsound Hc).
        unfold listeners. rewrite Hso. simpl.
        destruct (Nat.eqb y x); simpl; split; auto; discriminate.
      * intros x _. rewrite actions_seen_see_state. simpl.
        now rewrite app_nil_r.
      * discriminate.
  - (* a subscription to action$ *)
    rewrite subscribe_action_ext in *. eexists. split; [reflexivity|].
    split; [exact Hq|]. split; [now apply Hstep|].
    split; [simpl; now rewrite app_nil_r|].
    split; [intros x; unfold listeners; simpl; lia|].
    split; [intros x; unfold action_listeners; simpl;
            rewrite filter_app, length_app; simpl;
            destruct (Nat.eqb y x); simpl; lia|].
    split; [|split].
    + intros Ht x. rewrite states_seen_see_action. exact (Ht x).
    + intros x Hx. rewrite actions_seen_see_action. simpl in *.
      destruct (Nat.eqb y x); [discriminate | reflexivity].
    + intros Hc. simpl. now rewrite app_nil_r.
  - (* the effect's own source fires *)
    destruct (quiet_to_effect (next R (S fuel)) k (InOther n) Hq)
      as (s' & E & Hq' & Her).
    exists s'. split; [exact E|]. split; [exact Hq'|]. split; [now apply Hstep|].
    pose proof (f_equal (@connected _ _) Her) as E1.
    pose proof (f_equal (@state_observers _ _) Her) as E2.
    pose proof (f_equal (@act_published _ _) Her) as E3.
    pose proof (f_equal (@act_observers _ _) Her) as E4.
    pose proof (f_equal (@seen _ _) Her) as E5.
    pose proof (f_equal (@replay_events _ _) Her) as E6.
    pose proof (f_equal (@scan_acc _ _) Her) as E7.
    simpl in E1, E2, E3, E4, E5, E6, E7.
    assert (Hl : forall x, listeners x s' = listeners x s)
      by (intros x; unfold listeners; now rewrite E2).
    assert (Hss : forall x, states_seen x s' = states_seen x s)
      by (intros x; unfold states_seen; now rewrite E5).
    split; [rewrite E3; simpl; now rewrite app_nil_r|].
    split; [intros x; rewrite Hl; simpl; lia|].
    split; [intros x; unfold action_listeners; rewrite E4; simpl; lia|].
    split; [|split].
    + intros Ht x. rewrite Hl, Hss, E6. exact (Ht x).
    + intros x _. unfold actions_seen. rewrite E5. simpl. now rewrite app_nil_r.
    + intros Hc. rewrite E1, E6, E7. simpl. now rewrite app_nil_r.
Qed.

Lemma dispatched_cons (ev : event) (evs : list event) :
  dispatched (ev :: evs) = dispatched [ev] ++ dispatched evs.
Proof. now destruct ev. Qed.

Lemma subscriptions_cons (x : nat) (ev : event) (evs : list event) :
  subscriptions x (ev :: evs) = subscriptions x [ev] + subscriptions x evs.
Proof. destruct ev; simpl; lia. Qed.

Lemma action_subscriptions_cons (x : nat) (ev : event) (evs : list event) :
  action_subscriptions x (ev :: evs)
  = action_subscriptions x [ev] + action_subscriptions x evs.
Proof. destruct ev; simpl; lia. Qed.

Lemma last_app_default (X : Type) (l l' : list X) (d : X) :
  last (l ++ l') d = last l' (last l d).
Proof.
  revert d. induction l as [|a l IH]; intros d; [reflexivity|].
  change ((a :: l) ++ l') with (a :: l ++ l'). now rewrite !last_cons, IH.
Qed.

Lemma fold_states_app (acc : State) (l1 l2 : list Action) :
  fold_states R acc (l1 ++ l2)
  = fold_states R acc l1
    ++ fold_states R (last (fold_states R acc l1) acc) l2.
Proof.
  revert acc. induction l1 as [|a l1 IH]; intros acc; [reflexivity|].
  change ((a :: l1) ++ l2) with (a :: l1 ++ l2). cbn [fold_states].
  now rewrite IH, last_cons.
Qed.

(** What a list of events does to a sound store whose effect is silent. *)
Lemma quiet_run_facts (fuel : nat) (evs : list event) (s : store) :
  quiet s -> sound R s ->
  exists s',
    run R (S fuel) evs s = Some s' /\ quiet s' /\ sound R s' /\
    act_published s' = act_published s ++ dispatched evs /\
    (forall x, listeners x s' = listeners x s + subscriptions x evs) /\
    (forall x, action_listeners x s'
               = action_listeners x s + action_subscriptions x evs) /\
    (tuned s -> tuned s') /\
    (forall x, action_subscriptions x evs = 0 ->
               actions_seen x s'
               = actions_seen x s
                 ++ flat_map (fun a => repeat a (action_listeners x s))
                             (dispatched evs)) /\
    (connected s = true ->
     connected s' = true /\
     replay_events s'
     = replay_events s ++ fold_states R (scan_acc s) (dispatched evs) /\
     scan_acc s' = last (fold_states R (scan_acc s) (dispatched evs)) (scan_acc s)).
Proof.
  revert s. induction evs as [|ev evs IH]; intros s Hq Hsound.
  - exists s. cbn [run each dispatched subscriptions action_subscriptions].
    split; [reflexivity|]. split; [exact Hq|]. split; [exact Hsound|].
    split; [now rewrite app_nil_r|].
    split; [intros x; simpl; lia|]. split; [intros x; simpl; lia|].
    split; [auto|]. split; [intros x _; simpl; now rewrite app_nil_r|].
    intros Hc. simpl. now rewrite app_nil_r.
  - destruct (quiet_step_facts fuel ev Hq Hsound)
      as (s1 & E1 & Hq1 & Hs1 & P1 & L1 & A1 & T1 & S1 & C1).
    destruct (IH s1 Hq1 Hs1) as (s' & E & Hq' & Hs' & P & L & A & T & Sn & C).
    exists s'. unfold run in *. cbn [each]. rewrite E1.
    split; [exact E|]. split; [exact Hq'|]. split; [exact Hs'|].
    split; [now rewrite P, P1, <- app_assoc, (dispatched_cons ev evs)|].
    split; [intros x; rewrite L, L1, (subscriptions_cons x ev evs); lia|].
    split; [intros x; rewrite A, A1, (action_subscriptions_cons x ev evs); lia|].
    split; [auto|]. split.
    + intros x Hx. rewrite (action_subscriptions_cons x ev evs) in Hx.
      assert (H1 : action_subscriptions x [ev] = 0) by lia.
      assert (H2 : action_subscriptions x evs = 0) by lia.
      rewrite (Sn x H2), (S1 x H1), A1, H1, Nat.add_0_r.
      now rewrite (dispatched_cons ev evs), flat_map_app, <- app_assoc.
    + intros Hc. destruct (C1 Hc) as (C1a & C1b & C1c).
      destruct (C C1a) as (Ca & Cb & Cc).
      split; [exact Ca|]. rewrite Cb, Cc, C1b, C1c, (dispatched_cons ev evs).
      rewrite fold_states_app, last_app_default, <- app_assoc. auto.
Qed.

Lemma open_channels_unheard (fuel : nat) (cs : list channel) (k : nat)
  (s s' : store) (x : nat) :
  open_channels R (next R fuel) k cs s = Some s' ->
  action_listeners x s' = action_listeners x s.
Proof.
  revert k s. induction cs as [|c cs IH]; intros k t Hrun; simpl in Hrun.
  - now injection Hrun as <-.
  - destruct (open_channel R (next R fuel) k c t) as [t1|] eqn:E; [|discriminate].
    rewrite (IH _ _ Hrun). destruct c; unfold open_channel in E.
    + unfold subscribe_action in E. cbn [notify_action] in E.
      apply to_effect_wiring in E as (E & _ & _).
      unfold action_listeners. rewrite E. simpl.
      rewrite filter_app, length_app. simpl. lia.
    + destruct (connected t) eqn:Hc.
      * unfold subscribe_state in E. rewrite Hc in E.
        assert (W : same_wiring (add_state_observer (SChan k) t) t1).
        { apply (@each_keeps State Mem (fun _ => True) _
                   (fun v => notify_state (next R fuel) v (SChan k))
                   (replay_events (add_state_observer (SChan k) t))
                   (add_state_observer (SChan k) t)) in E;
            [tauto | | apply same_wiring_refl].
          intros v u u' _ _ Hu. cbn [notify_state] in Hu.
          split; [eapply to_effect_wiring; eassumption | auto]. }
        destruct W as (W & _ & _). unfold action_listeners. now rewrite W.
      * rewrite subscribe_state_first in E by exact Hc.
        assert (W : same_wiring (start_sharing R (SChan k) t) t1).
        { apply (@each_keeps State Mem (fun _ => True) _
                   (notify_state (next R fuel) (R (Some (scan_acc t)) (act_value t)))
                   (state_observers t ++ [SChan k])
                   (start_sharing R (SChan k) t)) in E;
            [tauto | | apply same_wiring_refl].
          intros o u u' _ _ Hu. destruct o as [y|j]; cbn [notify_state] in Hu.
          - injection Hu as <-. split; [repeat split | auto].
          - split; [eapply to_effect_wiring; eassumption | auto]. }
        destruct W as (W & _ & _). unfold action_listeners. rewrite W. simpl.
        rewrite filter_app, length_app. simpl. lia.
    + now injection E as <-.
Qed.

Lemma createStore_unheard (fuel : nat) (eff : Effect State Mem) (s : store)
  (x : nat) :
  createStore fuel R (Some eff) = Some s -> action_listeners x s = 0.
Proof.
  unfold createStore, register. intros H.
  now rewrite (open_channels_unheard _ _ _ _ x H).
Qed.

Lemma quiet_created (fuel : nat) (eff : Effect State Mem) :
  silent eff ->
  exists s0,
    createStore (S fuel) R (Some eff) = Some s0 /\ quiet s0 /\ sound R s0 /\
    act_published s0 = [] /\ seen s0 = [] /\
    (forall x, listeners x s0 = 0) /\ (forall x, action_listeners x s0 = 0).
Proof.
  intros Hs. destruct (quiet_createStore R (S fuel) Hs) as (s0 & E0 & Hq0 & Hb0).
  exists s0. split; [exact E0|]. split; [exact Hq0|].
  split.
  { apply (@session_sound _ _ R (S fuel) (Some eff) []). unfold session.
    now rewrite E0. }
  split; [exact (b_published Hb0)|]. split; [exact (b_seen Hb0)|].
  split.
  - intros x. unfold listeners.
    change (state_observers s0) with (state_observers (erase s0)).
    now rewrite (no_ext_among_chans x _ (b_chans Hb0)).
  - intros x. eapply createStore_unheard; eassumption.
Qed.

(** X15: with an effect that emits nothing, every session completes, and
    at its end every subscriber that subscribed to the state stream once,
    at whatever moment, has been handed all the states computed since the
    seed, in order: all subscribers have seen the same sequence. Who never
    subscribed has been handed nothing. *)
Theorem subscribers_see_the_same_states (fuel : nat) (eff : Effect State Mem)
  (evs : list event) :
  silent eff ->
  exists s,
    session (S fuel) R (Some eff) evs = Some s /\
    forall x,
      (subscriptions x evs = 0 -> states_seen x s = []) /\
      (subscriptions x evs = 1 -> states_seen x s = computed_states R s).
Proof.
  intros Hs. unfold session.
  destruct (quiet_created fuel Hs) as (s0 & E0 & Hq0 & Hs0 & _ & Hseen & Hl & _).
  rewrite E0.
  destruct (quiet_run_facts fuel evs Hq0 Hs0)
    as (s & E & _ & Hsound & _ & L & _ & T & _).
  exists s. split; [exact E|]. intros x.
  assert (Ht0 : tuned s0).
  { intros y. unfold states_seen. rewrite Hseen, Hl. split; [auto | discriminate]. }
  destruct (T Ht0 x) as [T0 T1]. rewrite L, Hl in T0, T1. simpl in T0, T1.
  split; [exact T0|]. intros H1. rewrite (T1 H1). exact (w_replay Hsound).
Qed.

(** X16: with an effect that emits nothing, a subscriber of the action
    stream that subscribes once, after the events [pre] and before the
    events [post], is handed the action dispatched last in [pre]
    ([@@INIT] if there is none) and then every action dispatched in
    [post], in order. *)
Theorem action_subscriber_sees_later_dispatches (fuel : nat)
  (eff : Effect State Mem) (pre post : list event) (x : nat) :
  silent eff ->
  action_subscriptions x pre = 0 ->
  action_subscriptions x post = 0 ->
  exists s,
    session (S fuel) R (Some eff) (pre ++ SubscribeAction x :: post) = Some s /\
    actions_seen x s = last (dispatched pre) INIT :: dispatched post.
Proof.
  intros Hs Hpre Hpost. unfold session.
  destruct (quiet_created fuel Hs) as (s0 & E0 & Hq0 & Hs0 & Hp0 & Hseen & _ & Hl).
  rewrite E0.
  destruct (quiet_run_facts fuel pre Hq0 Hs0)
    as (s1 & E1 & Hq1 & Hs1 & P1 & _ & A1 & _ & S1 & _).
  destruct (quiet_step_facts fuel (SubscribeAction x) Hq1 Hs1)
    as (s2 & E2 & Hq2 & Hs2 & _ & _ & A2 & _).
  destruct (quiet_run_facts fuel post Hq2 Hs2)
    as (s3 & E3 & _ & _ & _ & _ & _ & _ & S3 & _).
  exists s3. unfold run in *. rewrite each_app, E1. cbn [each]. rewrite E2.
  split; [exact E3|].
  rewrite (S3 x Hpost), A2, A1, Hl, Hpre. simpl.
  rewrite Nat.eqb_refl. simpl. rewrite flat_map_repeat_1.
  unfold step in E2. rewrite subscribe_action_ext in E2. injection E2 as <-.
  rewrite actions_seen_see_action, Nat.eqb_refl.
  change (actions_seen x (add_action_observer (AExt x) s1)) with (actions_seen x s1).
  rewrite (S1 x Hpre), Hl, (flat_map_repeat_0 (dispatched pre) (fun a => a)).
  unfold actions_seen at 1. rewrite Hseen. cbn [actions_of app].
  now rewrite (w_value Hs1), P1, Hp0.
Qed.

(** X17: with an effect that emits nothing and does not listen to the
    state stream, the states computed by the end of a session are the fold
    of the reducer from the seed over the action dispatched last before
    the first subscription to the state stream ([@@INIT] if there is
    none), then over every action dispatched after it: the earlier
    dispatches are lost to the state. *)
Theorem states_start_at_first_subscription (fuel : nat)
  (eff : Effect State Mem) (pre post : list event) (x : nat) :
  silent eff ->
  listens_to_state eff = false ->
  without_state_subscriptions pre = pre ->
  exists s,
    session (S fuel) R (Some eff) (pre ++ SubscribeState x :: post) = Some s /\
    computed_states R s
    = fold_states R (R None INIT_STATE)
        (last (dispatched pre) INIT :: dispatched post).
Proof.
  intros Hs Heff Hpre. unfold session.
  destruct (quiet_created fuel Hs) as (s0 & E0 & Hq0 & Hs0 & Hp0 & _).
  rewrite E0.
  destruct (quiet_run_facts fuel pre Hq0 Hs0)
    as (s1 & E1 & Hq1 & Hs1 & P1 & _).
  assert (Hc1 : connected s1 = false).
  { apply (@session_idle _ _ R (S fuel) eff pre s1 Heff Hpre).
    unfold session. now rewrite E0. }
  destruct (quiet_step_facts fuel (SubscribeState x) Hq1 Hs1)
    as (s2 & E2 & Hq2 & Hs2 & _).
  destruct (quiet_run_facts fuel post Hq2 Hs2)
    as (s3 & E3 & _ & Hs3 & _ & _ & _ & _ & _ & C3).
  exists s3. unfold run in *. rewrite each_app, E1. cbn [each]. rewrite E2.
  split; [exact E3|].
  destruct (w_idle Hs1 Hc1) as (Hso & Hcalls & Hacc).
  pose proof (sound_idle_replay Hs1 Hc1) as Hrep.
  unfold step in E2. rewrite subscribe_state_ext_first in E2 by auto.
  injection E2 as <-.
  destruct (C3 eq_refl) as (_ & Hr3 & _).
  rewrite <- (w_replay Hs3), Hr3. simpl.
  now rewrite Hrep, Hacc, (w_value Hs1), P1, Hp0.
Qed.


End SilentSessions.

Lemma reducer_calls_are_one_fold_witness :
  reducer_calls answered_store
  = (None, INIT_STATE)
    :: calls_of counter (counter None INIT_STATE) (folded_actions answered_store) /\
  replay_events answered_store
  = fold_states counter (counter None INIT_STATE) (folded_actions answered_store).
Proof.
  apply (@reducer_calls_are_one_fold nat unit counter 2 (Some answering)
           [Dispatch ACTION_A; SubscribeState 1; Dispatch ACTION_A] answered_store).
  vm_compute. reflexivity.
Defined.

Example answered_store_folds :
  folded_actions answered_store = [ACTION_B; ACTION_B; ACTION_A].
Proof. vm_compute. reflexivity. Qed.

Lemma no_fold_before_first_subscription_witness :
  reducer_calls unheard_store = [(None, INIT_STATE)] /\
  replay_events unheard_store = [] /\
  scan_acc unheard_store = counter None INIT_STATE.
Proof.
  apply (@no_fold_before_first_subscription nat unit counter 2 answering
           [Dispatch ACTION_A; SubscribeAction 3; Dispatch ACTION_B] unheard_store);
    vm_compute; reflexivity.
Defined.

Lemma first_subscription_folds_latest_only_witness :
  states_seen 1 late_store
  = [counter (Some (counter None INIT_STATE)) (last (act_published late_store) INIT)] /\
  reducer_calls late_store
  = [(None, INIT_STATE);
     (Some (counter None INIT_STATE), last (act_published late_store) INIT)].
Proof.
  apply (@first_subscription_folds_latest_only nat unit counter 2 answering
           [Dispatch ACTION_A; Dispatch ACTION_B] 1 late_store);
    vm_compute; reflexivity.
Defined.

Example late_store_published :
  act_published late_store = [ACTION_A; ACTION_B; ACTION_B].
Proof. vm_compute. reflexivity. Qed.

Lemma subscribers_see_the_same_states_witness :
  exists s,
    session 1 counter (Some ignoring)
      [SubscribeState 1; Dispatch ACTION_A; SubscribeState 2; Dispatch ACTION_B]
    = Some s /\
    forall x,
      (subscriptions x [SubscribeState 1; Dispatch ACTION_A; SubscribeState 2;
                        Dispatch ACTION_B] = 0 -> states_seen x s = []) /\
      (subscriptions x [SubscribeState 1; Dispatch ACTION_A; SubscribeState 2;
                        Dispatch ACTION_B] = 1 ->
       states_seen x s = computed_states counter s).
Proof.
  apply (@subscribers_see_the_same_states nat unit counter 0 ignoring
           [SubscribeState 1; Dispatch ACTION_A; SubscribeState 2; Dispatch ACTION_B]).
  intros k i m. reflexivity.
Defined.

Lemma action_subscriber_sees_later_dispatches_witness :
  exists s,
    session 1 counter (Some ignoring)
      ([Dispatch ACTION_A] ++ SubscribeAction 3 :: [Dispatch ACTION_B; Dispatch ACTION_A])
    = Some s /\
    actions_seen 3 s
    = last (dispatched [Dispatch ACTION_A]) INIT
      :: dispatched [Dispatch ACTION_B; Dispatch ACTION_A].
Proof.
  apply (@action_subscriber_sees_later_dispatches nat unit counter 0 ignoring
           [Dispatch ACTION_A] [Dispatch ACTION_B; Dispatch ACTION_A] 3).
  - intros k i m. reflexivity.
  - reflexivity.
  - reflexivity.
Defined.

Lemma states_start_at_first_subscription_witness :
  exists s,
    session 1 counter (Some ignoring)
      ([Dispatch ACTION_A; Dispatch ACTION_B] ++ SubscribeState 1 :: [Dispatch ACTION_A])
    = Some s /\
    computed_states counter s
    = fold_states counter (counter None INIT_STATE)
        (last (dispatched [Dispatch ACTION_A; Dispatch ACTION_B]) INIT
         :: dispatched [Dispatch ACTION_A]).
Proof.
  apply (@states_start_at_first_subscription nat unit counter 0 ignoring
           [Dispatch ACTION_A; Dispatch ACTION_B] [Dispatch ACTION_A] 1).
  - intros k i m. reflexivity.
  - reflexivity.
  - reflexivity.
Defined.

Section SilentComposition.

Variables State Mem : Type.
Variable R : Reducer State.

(** X18: a composition of effects that emit nothing emits nothing: a
    store built on it completes every session, the only actions that
    reach its action stream are the ones dispatched from outside, and all
    subscribers of the state stream that subscribed once have seen the
    same states. *)
Theorem combineEffects_of_silent_effects (fuel : nat)
  (effects : list (Effect State Mem)) (evs : list event) :
  Forall silent effects ->
  exists s,
    session (S fuel) R (Some (combineEffects effects)) evs = Some s /\
    act_published s = dispatched evs /\
    forall x, subscriptions x evs = 1 -> states_seen x s = computed_states R s.
Proof.
  intros Hall.
  pose proof (combineEffects_silent Hall) as Hs. unfold session.
  destruct (quiet_created R fuel Hs) as (s0 & E0 & Hq0 & Hs0 & Hp0 & Hseen & Hl & _).
  rewrite E0.
  destruct (quiet_run_facts fuel evs Hq0 Hs0)
    as (s & E & _ & Hsound & P & L & _ & T & _).
  exists s. split; [exact E|]. split; [now rewrite P, Hp0|].
  intros x H1.
  assert (Ht0 : tuned s0).
  { intros y. unfold states_seen. rewrite Hseen, Hl. split; [auto | discriminate]. }
  destruct (T Ht0 x) as [_ T1]. rewrite L, Hl in T1.
  rewrite (T1 H1). exact (w_replay Hsound).
Qed.

End SilentComposition.

Lemma combineEffects_of_silent_effects_witness :
  exists s,
    session 1 counter (Some (combineEffects [ignoring; ignoring]))
      [SubscribeState 1; Dispatch ACTION_A] = Some s /\
    act_published s = dispatched [SubscribeState 1; Dispatch ACTION_A] /\
    forall x, subscriptions x [SubscribeState 1; Dispatch ACTION_A] = 1 ->
              states_seen x s = computed_states counter s.
Proof.
  apply (@combineEffects_of_silent_effects nat unit counter 0 [ignoring; ignoring]
           [SubscribeState 1; Dispatch ACTION_A]).
  repeat constructor.
Defined.

(* --------------------------------------------------------------------- *)
(** ** [createStore]: the first state, whatever the effect does *)

Section FirstState.

Variables State Mem : Type.
Variable R : Reducer State.

Local Abbreviation store := (store State Mem).

(** *** The second call of the reducer stays the second call *)

Section Anchored.

Variable c : option State * Action.

Lemma anchored_idle (s : store) (X : Prop) :
  connected s = false -> anchored R c s -> X.
Proof.
  intros Hc [Hs Hn]. destruct (w_idle Hs Hc) as (_ & Hcalls & _).
  rewrite Hcalls in Hn. discriminate.
Qed.

Lemma anchored_publish (a : Action) (s : store) :
  anchored R c s -> anchored R c (publish a s).
Proof. intros [Hs Hn]. split; [now apply sound_publish | exact Hn]. Qed.

Lemma anchored_see_action (x : nat) (a : Action) (s : store) :
  anchored R c s -> anchored R c (see (SawAction x a) s).
Proof. intros [Hs Hn]. split; [now apply sound_see_action | exact Hn]. Qed.

Lemma anchored_see_state (x : nat) (v : State) (s : store) :
  In (SExt x) (state_observers s) ->
  anchored R c s -> anchored R c (see (SawState x v) s).
Proof. intros Hx [Hs Hn]. split; [now apply sound_see_state | exact Hn]. Qed.

Lemma anchored_remember (eff : Effect State Mem) (m m' : Mem) (s : store) :
  eff_running s = Some (eff, m) ->
  anchored R c s -> anchored R c (remember eff m' s).
Proof. intros _ [Hs Hn]. split; [now apply sound_remember | exact Hn]. Qed.

Lemma anchored_scan_push (a : Action) (s : store) :
  In AScan (act_observers s) ->
  anchored R c s -> anchored R c (scan_push R a s).
Proof.
  intros Hin [Hs Hn]. split; [now apply sound_scan_push|].
  cbn [scan_push reducer_calls]. rewrite nth_error_app1; [exact Hn|].
  apply nth_error_Some. now rewrite Hn.
Qed.

Lemma anchored_listen (o : action_observer) (s : store) :
  o <> AScan -> anchored R c s -> anchored R c (add_action_observer o s).
Proof. intros Ho [Hs Hn]. split; [now apply sound_listen | exact Hn]. Qed.

Lemma anchored_join_chan (k : nat) (s : store) :
  connected s = true ->
  anchored R c s -> anchored R c (add_state_observer (SChan k) s).
Proof. intros Hc [Hs Hn]. split; [now apply sound_join_chan | exact Hn]. Qed.

Lemma anchored_join_ext (x : nat) (s : store) :
  connected s = true ->
  anchored R c s ->
  anchored R c (see_all (map (SawState x) (replay_events s))
                        (add_state_observer (SExt x) s)).
Proof.
  intros Hc [Hs Hn]. split; [now apply sound_join_ext|].
  rewrite (@see_all_frame _ _ _ (@reducer_calls State Mem)) by reflexivity.
  exact Hn.
Qed.

Lemma anchored_tidy (s : store) :
  anchored R c s -> connected s = false -> state_observers s = [].
Proof. intros [Hs _] Hc. exact (sound_tidy Hs Hc). Qed.

Lemma next_anchored (fuel : nat) (a : Action) :
  @keeps State Mem (anchored R c) (next R fuel a).
Proof.
  apply next_keeps.
  - apply anchored_publish.
  - apply anchored_see_action.
  - apply anchored_see_state.
  - apply anchored_remember.
  - apply anchored_scan_push.
Qed.

Lemma run_anchored (fuel : nat) (evs : list event) (s s' : store) :
  run R fuel evs s = Some s' -> anchored R c s -> anchored R c s'.
Proof.
  apply run_inv.
  - apply anchored_publish.
  - apply anchored_see_action.
  - apply anchored_see_state.
  - apply anchored_remember.
  - apply anchored_scan_push.
  - apply anchored_listen.
  - apply anchored_join_ext.
  - intros x s0 Hc H. eapply anchored_idle; eassumption.
  - apply anchored_tidy.
Qed.

Lemma open_channels_anchored (fuel : nat) (cs : list channel) (k : nat)
  (s s' : store) :
  open_channels R (next R fuel) k cs s = Some s' ->
  anchored R c s -> anchored R c s'.
Proof.
  apply open_channels_inv.
  - apply anchored_see_state.
  - apply anchored_remember.
  - apply anchored_listen.
  - apply anchored_join_chan.
  - intros k0 s0 Hc H. eapply anchored_idle; eassumption.
  - apply next_anchored.
Qed.

Lemma notify_states_anchored (fuel : nat) (v : State) (s s' : store) :
  each (notify_state (next R fuel) v) (state_observers s) s = Some s' ->
  anchored R c s -> anchored R c s'.
Proof.
  intros Hrun.
  apply (@notify_all_states_keeps State Mem (anchored R c)
           anchored_see_state anchored_remember (next R fuel)
           (next_anchored fuel) v s s' Hrun).
Qed.

End Anchored.

Lemma anchored_first_value (a0 : Action) (s : store) (x : nat) (v : State) :
  anchored R (Some (R None INIT_STATE), a0) s ->
  hd_error (states_seen x s) = Some v ->
  v = R (Some (R None INIT_STATE)) a0.
Proof.
  intros [Hs Hn] Hv. pose proof (w_first Hs _ Hv) as Hrep.
  rewrite (w_replay Hs) in Hrep. unfold computed_states in Hrep.
  destruct (reducer_calls s) as [|c0 [|c1 rest]]; try discriminate.
  simpl in Hn, Hrep. injection Hn as ->. now injection Hrep as <-.
Qed.

(** *** The store when [state$] is first subscribed *)

Lemma open_channels_app (dispatch : Action -> store -> option store)
  (cs1 cs2 : list channel) (k : nat) (s : store) :
  open_channels R dispatch k (cs1 ++ cs2) s
  = match open_channels R dispatch k cs1 s with
    | Some s' => open_channels R dispatch (k + List.length cs1) cs2 s'
    | None => None
    end.
Proof.
  revert k s. induction cs1 as [|c cs1 IH]; intros k s; simpl.
  - now rewrite Nat.add_0_r.
  - destruct (open_channel R dispatch k c s) as [s1|]; [|reflexivity].
    rewrite IH. now rewrite Nat.add_succ_r.
Qed.

Lemma open_channels_sound (fuel : nat) (cs : list channel) (k : nat)
  (s s' : store) :
  open_channels R (next R fuel) k cs s = Some s' -> sound R s -> sound R s'.
Proof.
  apply open_channels_inv.
  - apply sound_see_state.
  - intros eff m m' s0 _. apply sound_remember.
  - apply sound_listen.
  - apply sound_join_chan.
  - apply sound_share_chan.
  - apply next_keeps.
    + apply sound_publish.
    + apply sound_see_action.
    + apply sound_see_state.
    + intros eff m m' s0 _. apply sound_remember.
    + apply sound_scan_push.
Qed.

(** When [state$] is subscribed for the first time the reducer is called
    for the second time, on the seed and on the action [action$] holds. *)
Lemma first_subscription_anchors (fuel : nat)
  (rootEffect : option (Effect State Mem)) (evs : list event) (s1 s : store) :
  session fuel R rootEffect evs = Some s ->
  first_subscription fuel R rootEffect evs s1 ->
  sound R s1 /\
  anchored R (Some (R None INIT_STATE), act_value s1) s.
Proof.
  intros Hs [pre post x Hevs Hpre Hc | eff cs1 cs2 Heff Hcs Hcs1 Hopen].
  - pose proof (session_sound _ _ _ _ Hpre) as Hs1. split; [exact Hs1|].
    subst evs. unfold session in Hs, Hpre.
    destruct (createStore fuel R rootEffect) as [s0|]; [|discriminate].
    unfold run in Hs, Hpre. rewrite each_app, Hpre in Hs. cbn [each] in Hs.
    destruct (step R fuel (SubscribeState x) s1) as [s2|] eqn:E2; [|discriminate].
    refine (@run_anchored _ fuel post s2 s Hs _).
    split; [exact (@step_sound _ _ R fuel _ s1 s2 E2 Hs1)|].
    destruct (w_idle Hs1 Hc) as (Hso & Hcalls & Hacc).
    unfold step in E2. rewrite subscribe_state_ext_first in E2 by assumption.
    injection E2 as <-. cbn. now rewrite Hcalls, Hacc.
  - subst rootEffect. unfold session, createStore, register in Hs.
    rewrite Hcs, open_channels_app, Hopen in Hs. cbn [open_channels] in Hs.
    assert (Hs1 : sound R s1)
      by (apply (@open_channels_sound fuel cs1 0 _ s1 Hopen), sound_started).
    split; [exact Hs1|].
    assert (Hc : connected s1 = false)
      by (now rewrite (@open_channels_idle _ _ R fuel cs1 0 _ s1 Hcs1 Hopen)).
    destruct (w_idle Hs1 Hc) as (Hso & Hcalls & Hacc).
    destruct (open_channel R (next R fuel) (0 + List.length cs1) ChState s1)
      as [s2|] eqn:E2; [|discriminate].
    destruct (open_channels R (next R fuel) (S (0 + List.length cs1)) cs2 s2)
      as [s0|] eqn:E0; [|discriminate].
    refine (@run_anchored _ fuel evs s0 s Hs _).
    refine (@open_channels_anchored _ fuel cs2 _ s2 s0 E0 _).
    unfold open_channel in E2. rewrite subscribe_state_first in E2 by exact Hc.
    change (state_observers s1 ++ [SChan (0 + List.length cs1)])
      with (state_observers (start_sharing R (SChan (0 + List.length cs1)) s1))
      in E2.
    refine (@notify_states_anchored _ fuel _ _ s2 E2 _).
    split; [now apply sound_share_chan|]. cbn. now rewrite Hcalls, Hacc.
Qed.

Lemma split_at_first_subscription (evs : list event) :
  without_state_subscriptions evs = evs \/
  exists pre x post,
    evs = pre ++ SubscribeState x :: post /\
    without_state_subscriptions pre = pre.
Proof.
  induction evs as [|ev evs IH]; [now left|].
  destruct ev as [a|x|x|k n];
    try (destruct IH as [IH|(pre & y & post & E & Hpre)];
         [left; unfold without_state_subscriptions in *; simpl; now rewrite IH
         | right; eexists (_ :: pre), y, post; split;
           [now rewrite E
           | unfold without_state_subscriptions in *; simpl; now rewrite Hpre]]).
  right. exists [], x, evs. now split.
Qed.

Lemma split_at_first_state_channel (cs : list channel) :
  opens_state cs = true ->
  exists cs1 cs2, cs = cs1 ++ ChState :: cs2 /\ opens_state cs1 = false.
Proof.
  induction cs as [|c cs IH]; [discriminate|]. intros H.
  destruct c.
  - destruct (IH H) as (cs1 & cs2 & E & H1).
    exists (ChAction :: cs1), cs2. split; [now rewrite E | exact H1].
  - exists [], cs. now split.
  - destruct (IH H) as (cs1 & cs2 & E & H1).
    exists (ChOther :: cs1), cs2. split; [now rewrite E | exact H1].
Qed.

(** Whenever somebody has been handed a state, there is a moment at which
    [state$] was subscribed for the first time. *)
Lemma first_subscription_exists (fuel : nat)
  (rootEffect : option (Effect State Mem)) (evs : list event) (s : store)
  (x : nat) (v : State) :
  session fuel R rootEffect evs = Some s ->
  hd_error (states_seen x s) = Some v ->
  exists s1, first_subscription fuel R rootEffect evs s1.
Proof.
  intros Hs Hv. pose proof (session_sound _ _ _ _ Hs) as Hsound.
  assert (Hc : connected s = true).
  { destruct (connected s) eqn:Hc; [reflexivity|].
    rewrite (sound_idle_unseen x Hsound Hc) in Hv. discriminate. }
  pose proof Hs as Hrun. unfold session in Hrun.
  destruct (createStore fuel R rootEffect) as [s0|] eqn:E0; [|discriminate].
  destruct (connected s0) eqn:Hc0.
  - (* the effect subscribed while the store was created *)
    destruct rootEffect as [eff|];
      [|unfold createStore, register in E0; injection E0 as <-; discriminate].
    unfold createStore, register in E0.
    destruct (opens_state (eff_channels eff)) eqn:Hopens.
    + destruct (split_at_first_state_channel _ Hopens) as (cs1 & cs2 & Hcs & H1).
      rewrite Hcs, open_channels_app in E0.
      destruct (open_channels R (next R fuel) 0 cs1 _) as [s1|] eqn:E1;
        [|discriminate].
      exists s1. now apply (@first_by_effect _ _ fuel R (Some eff) evs s1 eff cs1 cs2).
    + rewrite (@open_channels_idle _ _ R fuel _ 0 _ s0 Hopens E0) in Hc0.
      discriminate.
  - (* an outside subscriber was the first *)
    destruct (split_at_first_subscription evs) as [Hnone|(pre & y & post & E & Hpre)].
    + rewrite (@run_idle _ _ R fuel evs s0 s Hnone Hrun) in Hc. congruence.
    + subst evs. unfold run in Hrun. rewrite each_app in Hrun.
      destruct (each (step R fuel) pre s0) as [s1|] eqn:E1; [|discriminate].
      exists s1. apply (@first_outside _ _ fuel R rootEffect _ s1 pre post y).
      * reflexivity.
      * unfold session. now rewrite E0.
      * now rewrite (@run_idle _ _ R fuel pre s0 s1 Hpre E1).
Qed.

(** C4, amended: the first value any subscriber of the state stream is
    handed is the reducer applied to the seed
    [R(undefined, {type: '@@INIT/state'})] and to the action the action
    stream held at the moment the state stream was subscribed for the
    first time, by the outside or by the effect: the action published
    last before that moment, [@@INIT] if nothing had been published. That
    action is the action of the second call of the reducer. The seed
    itself is never handed out. *)
Theorem first_state_is_first_fold (fuel : nat)
  (rootEffect : option (Effect State Mem)) (evs : list event) (s : store)
  (x : nat) (v : State) :
  session fuel R rootEffect evs = Some s ->
  hd_error (states_seen x s) = Some v ->
  (exists s1, first_subscription fuel R rootEffect evs s1) /\
  (forall s1, first_subscription fuel R rootEffect evs s1 ->
     v = R (Some (R None INIT_STATE)) (act_value s1) /\
     act_value s1 = last (act_published s1) INIT /\
     nth_error (reducer_calls s) 1
     = Some (Some (R None INIT_STATE), act_value s1)).
Proof.
  intros Hs Hv. split; [exact (first_subscription_exists _ _ _ _ Hs Hv)|].
  intros s1 Hfirst.
  destruct (first_subscription_anchors Hs Hfirst) as [Hs1 Ha].
  split; [exact (@anchored_first_value _ s x v Ha Hv)|].
  split; [exact (w_value Hs1) | exact (proj2 Ha)].
Qed.

End FirstState.

(* --------------------------------------------------------------------- *)
(** ** [createStore]: replay and later states, whatever the effect does *)

Section Replay.

Variables State Mem : Type.
Variable R : Reducer State.
Variable x : nat.

Local Abbreviation store := (store State Mem).

Lemma delivers_same (s s' : store) :
  state_observers s' = state_observers s ->
  replay_events s' = replay_events s ->
  states_seen x s' = states_seen x s ->
  delivers x s s'.
Proof.
  intros Ho Hr Hx. split; [unfold listeners; now rewrite Ho|].
  exists [], []. rewrite !app_nil_r. repeat split; auto.
Qed.

Lemma delivers_trans (s1 s2 s3 : store) :
  delivers x s1 s2 -> delivers x s2 s3 -> delivers x s1 s3.
Proof.
  intros (L1 & a1 & g1 & R1 & S1 & P1) (L2 & a2 & g2 & R2 & S2 & P2).
  split; [congruence|]. exists (a1 ++ a2), (g1 ++ g2).
  rewrite R2, R1, S2, S1, <- !app_assoc. repeat split.
  rewrite flat_map_app. apply Permutation_app; [exact P1|]. now rewrite <- L1.
Qed.

Lemma each_delivers (X : Type) (f : X -> store -> option store) (l : list X) :
  (forall y t t', f y t = Some t' -> delivers x t t') ->
  forall s s', each f l s = Some s' -> delivers x s s'.
Proof.
  intros Hf. induction l as [|y l IH]; intros s s' Hrun; simpl in Hrun.
  - injection Hrun as <-. now apply delivers_same.
  - destruct (f y s) as [t|] eqn:Hy; [|discriminate].
    eapply delivers_trans; [eapply Hf; eassumption | now apply IH].
Qed.

Section DeliveryDelivers.

Variable dispatch : Action -> store -> option store.
Hypothesis dispatch_delivers :
  forall a s s', dispatch a s = Some s' -> delivers x s s'.

Lemma to_effect_delivers (k : nat) (i : input State) (s s' : store) :
  to_effect dispatch k i s = Some s' -> delivers x s s'.
Proof.
  unfold to_effect. destruct (eff_running s) as [[eff m]|].
  - destruct (eff_handle eff k i m) as [m' out]. intros Hrun.
    apply delivers_trans with (s2 := remember eff m' s);
      [now apply delivers_same|].
    unfold emit in Hrun. eapply each_delivers; [|eassumption].
    exact dispatch_delivers.
  - intros E. injection E as <-. now apply delivers_same.
Qed.

(** Handing [v] to the observers [l]: [x] gets it once for each time it
    is among them, besides what the effect sets off. *)
Lemma notify_states_delivers (v : State) (l : list state_observer)
  (s s' : store) :
  each (notify_state dispatch v) l s = Some s' ->
  listeners x s' = listeners x s /\
  exists added got,
    replay_events s' = replay_events s ++ added /\
    states_seen x s' = states_seen x s ++ got /\
    Permutation got
      (repeat v (List.length (filter (is_ext x) l))
       ++ flat_map (fun w => repeat w (listeners x s)) added).
Proof.
  revert s. induction l as [|o l IH]; intros s Hrun; simpl in Hrun.
  - injection Hrun as <-. split; [reflexivity|]. exists [], [].
    rewrite !app_nil_r. repeat split. constructor.
  - destruct (notify_state dispatch v o s) as [t|] eqn:Ho; [|discriminate].
    destruct (IH t Hrun) as (L2 & a2 & g2 & R2 & S2 & P2).
    destruct o as [y|k]; cbn [notify_state] in Ho.
    + injection Ho as <-.
      change (listeners x (see (SawState y v) s)) with (listeners x s) in *.
      change (replay_events (see (SawState y v) s)) with (replay_events s) in R2.
      rewrite states_seen_see_state in S2.
      split; [exact L2|]. exists a2, ((if Nat.eqb y x then [v] else []) ++ g2).
      split; [exact R2|]. split; [now rewrite S2, <- app_assoc|].
      cbn [filter is_ext]. destruct (Nat.eqb y x); simpl; [now constructor | exact P2].
    + apply to_effect_delivers in Ho as (L1 & a1 & g1 & R1 & S1 & P1).
      split; [congruence|]. exists (a1 ++ a2), (g1 ++ g2).
      rewrite R2, R1, S2, S1, <- !app_assoc. repeat split.
      cbn [filter is_ext]. rewrite flat_map_app, L1 in *.
      rewrite Permutation_app_swap_app. now apply Permutation_app.
Qed.

Lemma scan_next_delivers (a : Action) (s s' : store) :
  scan_next R dispatch a s = Some s' -> delivers x s s'.
Proof.
  unfold scan_next. intros Hrun.
  apply notify_states_delivers in Hrun as (L & added & got & Hr & Hg & Hp).
  split; [exact L|].
  exists (R (Some (scan_acc s)) a :: added), got.
  split; [cbn in Hr |- *; now rewrite Hr, <- app_assoc|].
  split; [exact Hg | exact Hp].
Qed.

Lemma notify_action_delivers (a : Action) (o : action_observer) (s s' : store) :
  notify_action R dispatch a o s = Some s' -> delivers x s s'.
Proof.
  destruct o as [y| |k]; cbn [notify_action].
  - intros E. injection E as <-. apply delivers_same; try reflexivity.
    apply states_seen_see_action.
  - apply scan_next_delivers.
  - apply to_effect_delivers.
Qed.

Lemma next_body_delivers (a : Action) (s s' : store) :
  next_body R dispatch a s = Some s' -> delivers x s s'.
Proof.
  unfold next_body. intros Hrun.
  apply delivers_trans with (s2 := publish a s); [now apply delivers_same|].
  eapply each_delivers; [|eassumption]. intros o t t'.
  apply notify_action_delivers.
Qed.

End DeliveryDelivers.

Lemma next_delivers (fuel : nat) (a : Action) (s s' : store) :
  next R fuel a s = Some s' -> delivers x s s'.
Proof.
  revert a s s'. induction fuel as [|fuel IH]; intros a s s' Hrun;
    simpl in Hrun; [discriminate|].
  eapply next_body_delivers; [exact IH | eassumption].
Qed.

End Replay.

Section ReplayTheorem.

Variables State Mem : Type.
Variable R : Reducer State.
Variable x : nat.

Local Abbreviation store := (store State Mem).

(** *** Who has not subscribed has seen nothing *)

Lemma listeners_app (l1 l2 : list state_observer) :
  List.length (filter (is_ext x) (l1 ++ l2))
  = List.length (filter (is_ext x) l1) + List.length (filter (is_ext x) l2).
Proof. now rewrite filter_app, length_app. Qed.

Lemma listeners_member (l : list state_observer) :
  In (SExt x) l -> List.length (filter (is_ext x) l) <> 0.
Proof.
  induction l as [|o l IH]; [contradiction|]. intros [->|Hin]; simpl.
  - now rewrite Nat.eqb_refl.
  - destruct (is_ext x o); simpl; auto.
Qed.

Lemma nothing_handed (X : Type) (got added : list X) :
  Permutation got (flat_map (fun v => repeat v 0) added) -> got = [].
Proof.
  intros H. rewrite (flat_map_repeat_0 added (fun v => v)) in H.
  now apply Permutation_sym, Permutation_nil in H.
Qed.

(** [createStore] subscribes nobody from outside and hands out nothing. *)
Lemma createStore_nobody (fuel : nat) (rootEffect : option (Effect State Mem))
  (s : store) :
  createStore fuel R rootEffect = Some s ->
  listeners x s = 0 /\ states_seen x s = [].
Proof.
  apply (@createStore_inv State Mem R
           (fun t => listeners x t = 0 /\ states_seen x t = [])).
  - intros a t H. exact H.
  - intros y a t [H1 H2]. split; [exact H1|]. now rewrite states_seen_see_action.
  - intros y v t Hin [H1 H2]. split; [exact H1|].
    rewrite states_seen_see_state, H2.
    destruct (Nat.eqb y x) eqn:E; [|reflexivity].
    apply Nat.eqb_eq in E. subst y. now apply listeners_member in Hin.
  - intros eff m m' t _ H. exact H.
  - intros a t _ H. exact H.
  - intros o t _ H. exact H.
  - intros k t _ [H1 H2]. split; [|exact H2].
    unfold listeners in *. cbn. rewrite listeners_app, H1. reflexivity.
  - intros k t _ [H1 H2]. split; [|exact H2].
    unfold listeners in *. cbn. rewrite listeners_app, H1. reflexivity.
  - intros eff. now split.
  - now split.
Qed.

(** *** Events that do not subscribe [x] *)

Lemma step_delivers (fuel : nat) (ev : event) (s s' : store) :
  sound R s ->
  subscriptions x [ev] = 0 ->
  step R fuel ev s = Some s' ->
  delivers x s s'.
Proof.
  intros Hs Hev Hrun. destruct ev as [a|y|y|k n]; unfold step in Hrun.
  - eapply next_delivers; eassumption.
  - assert (Hy : Nat.eqb y x = false)
      by (simpl in Hev; destruct (Nat.eqb y x); [discriminate | reflexivity]).
    destruct (connected s) eqn:Hc.
    + rewrite subscribe_state_ext_joined in Hrun by exact Hc.
      injection Hrun as <-. split.
      * unfold listeners.
        rewrite (@see_all_frame _ _ _ (@state_observers State Mem)) by reflexivity.
        cbn [add_state_observer state_observers].
        rewrite listeners_app. simpl. rewrite Hy. simpl. lia.
      * exists [], []. rewrite !app_nil_r.
        rewrite (@see_all_frame _ _ _ (@replay_events State Mem)) by reflexivity.
        rewrite states_seen_see_all, states_of_replayed, Hy, app_nil_r.
        repeat split. constructor.
    + pose proof (sound_tidy Hs Hc) as Hso.
      rewrite subscribe_state_ext_first in Hrun by assumption.
      injection Hrun as <-. split.
      * unfold listeners. cbn. rewrite listeners_app. simpl. rewrite Hy.
        simpl. lia.
      * exists [R (Some (scan_acc s)) (act_value s)], [].
        rewrite states_seen_see_state, Hy, !app_nil_r.
        split; [reflexivity|]. split; [reflexivity|].
        unfold listeners. rewrite Hso. simpl. constructor.
  - rewrite subscribe_action_ext in Hrun. injection Hrun as <-.
    apply delivers_same; try reflexivity.
    now rewrite states_seen_see_action.
  - eapply to_effect_delivers; [|eassumption]. intros a t t'.
    apply next_delivers.
Qed.

Lemma run_delivers (fuel : nat) (evs : list event) (s s' : store) :
  sound R s ->
  subscriptions x evs = 0 ->
  run R fuel evs s = Some s' ->
  delivers x s s'.
Proof.
  unfold run. revert s. induction evs as [|ev evs IH]; intros s Hs Hevs Hrun;
    simpl in Hrun.
  - injection Hrun as <-. now apply delivers_same.
  - destruct (step R fuel ev s) as [t|] eqn:E; [|discriminate].
    rewrite (subscriptions_cons x ev evs) in Hevs.
    apply delivers_trans with (s2 := t).
    + apply (step_delivers fuel ev Hs); [lia | exact E].
    + apply IH; [exact (@step_sound _ _ R fuel ev s t E Hs) | lia | exact Hrun].
Qed.

(** *** The subscription of [x] itself *)

Lemma subscribe_replays (fuel : nat) (s1 s2 : store) :
  sound R s1 ->
  listeners x s1 = 0 ->
  states_seen x s1 = [] ->
  step R fuel (SubscribeState x) s1 = Some s2 ->
  listeners x s2 = 1 /\
  states_seen x s2 = computed_states R s2 /\
  (connected s1 = true -> computed_states R s2 = computed_states R s1).
Proof.
  intros Hs1 Hl Hx Hrun.
  pose proof (@step_sound _ _ R fuel _ s1 s2 Hrun Hs1) as Hs2.
  rewrite <- (w_replay Hs2). unfold step in Hrun.
  destruct (connected s1) eqn:Hc.
  - rewrite subscribe_state_ext_joined in Hrun by exact Hc.
    injection Hrun as <-. split; [|split].
    + unfold listeners in *.
      rewrite (@see_all_frame _ _ _ (@state_observers State Mem)) by reflexivity.
      cbn [add_state_observer state_observers]. rewrite listeners_app, Hl.
      simpl. now rewrite Nat.eqb_refl.
    + rewrite states_seen_see_all, states_of_replayed, Nat.eqb_refl.
      rewrite (@see_all_frame _ _ _ (@replay_events State Mem)) by reflexivity.
      change (states_seen x (add_state_observer (SExt x) s1))
        with (states_seen x s1).
      now rewrite Hx.
    + intros _.
      rewrite (@see_all_frame _ _ _ (@replay_events State Mem)) by reflexivity.
      exact (w_replay Hs1).
  - pose proof (sound_tidy Hs1 Hc) as Hso.
    rewrite subscribe_state_ext_first in Hrun by assumption.
    injection Hrun as <-. split; [|split; [|discriminate]].
    + unfold listeners. cbn. rewrite Hso. simpl. now rewrite Nat.eqb_refl.
    + rewrite states_seen_see_state, Nat.eqb_refl.
      change (states_seen x (start_sharing R (SExt x) s1))
        with (states_seen x s1).
      rewrite Hx. cbn. now rewrite (sound_idle_replay Hs1 Hc).
Qed.

(** C6, amended: the state stream replays its whole history. A subscriber
    that subscribes after [k] states have been computed is handed all [k]
    of them at once, in the order they were computed, and after that
    every state computed later, each of them once. *)
Theorem state_subscriber_gets_history (fuel : nat)
  (rootEffect : option (Effect State Mem)) (pre post : list event) (s : store) :
  subscriptions x pre = 0 ->
  subscriptions x post = 0 ->
  session fuel R rootEffect (pre ++ SubscribeState x :: post) = Some s ->
  exists s1 s2 later got,
    session fuel R rootEffect pre = Some s1 /\
    states_seen x s1 = [] /\
    step R fuel (SubscribeState x) s1 = Some s2 /\
    states_seen x s2 = computed_states R s2 /\
    (connected s1 = true -> computed_states R s2 = computed_states R s1) /\
    computed_states R s = computed_states R s2 ++ later /\
    states_seen x s = computed_states R s2 ++ got /\
    Permutation got later.
Proof.
  intros Hpre Hpost Hs. pose proof (session_sound _ _ _ _ Hs) as Hsound.
  unfold session in *.
  destruct (createStore fuel R rootEffect) as [s0|] eqn:E0; [|discriminate].
  unfold run in Hs. rewrite each_app in Hs.
  destruct (each (step R fuel) pre s0) as [s1|] eqn:E1; [|discriminate].
  cbn [each] in Hs.
  destruct (step R fuel (SubscribeState x) s1) as [s2|] eqn:E2; [|discriminate].
  assert (Hs0 : sound R s0).
  { apply (@session_sound _ _ R fuel rootEffect []). unfold session.
    now rewrite E0. }
  pose proof (@run_sound _ _ R fuel pre s0 s1 E1 Hs0) as Hs1.
  pose proof (@step_sound _ _ R fuel _ s1 s2 E2 Hs1) as Hs2.
  destruct (createStore_nobody _ _ E0) as [Hl0 Hx0].
  destruct (@run_delivers fuel pre s0 s1 Hs0 Hpre E1)
    as (Hl1 & a1 & g1 & _ & Hx1 & Hp1).
  rewrite Hl0 in Hl1, Hp1. apply nothing_handed in Hp1. subst g1.
  rewrite Hx0 in Hx1. simpl in Hx1.
  destruct (subscribe_replays fuel Hs1 Hl1 Hx1 E2) as (Hl2 & Hx2 & Hk).
  destruct (@run_delivers fuel post s2 s Hs2 Hpost Hs)
    as (_ & later & got & Hr & Hx & Hp).
  rewrite Hl2, flat_map_repeat_1 in Hp.
  exists s1, s2, later, got.
  split; [exact E1|]. split; [exact Hx1|]. split; [exact E2|].
  split; [exact Hx2|]. split; [exact Hk|].
  rewrite <- (w_replay Hsound), <- (w_replay Hs2).
  split; [exact Hr|]. split; [|exact Hp].
  now rewrite Hx, Hx2, (w_replay Hs2).
Qed.

End ReplayTheorem.

(** When subscriber 1 comes, [answering] has answered the dispatched [A]
    with [B]: the first state is the fold of [B], and [@@INIT] and [A] are
    never folded. *)
Lemma first_state_is_first_fold_witness :
  1 = counter (Some (counter None INIT_STATE)) (act_value early_store) /\
  act_value early_store = last (act_published early_store) INIT /\
  nth_error (reducer_calls answered_store) 1
  = Some (Some (counter None INIT_STATE), act_value early_store).
Proof.
  refine (proj2 (@first_state_is_first_fold nat unit counter 2 (Some answering)
                   [Dispatch ACTION_A; SubscribeState 1; Dispatch ACTION_A]
                   answered_store 1 1 _ _) early_store _).
  - vm_compute. reflexivity.
  - vm_compute. reflexivity.
  - apply (@first_outside nat unit 2 counter (Some answering) _ early_store
             [Dispatch ACTION_A] [Dispatch ACTION_A] 1);
      vm_compute; reflexivity.
Defined.

Example early_store_holds_B :
  act_published early_store = [ACTION_A; ACTION_B] /\
  act_value early_store = ACTION_B.
Proof. split; vm_compute; reflexivity. Qed.

(** An effect that subscribes to the state stream is the first
    subscriber: the first state is the fold of [@@INIT] whatever is
    dispatched before an outside subscriber comes. *)
Example first_state_with_listening_effect :
  first_subscription 3 counter (Some echoing)
    [Dispatch ACTION_A; SubscribeState 1]
    (remember echoing tt (count_registration (initial unit counter))) /\
  option_map (states_seen 1)
    (session 3 counter (Some echoing) [Dispatch ACTION_A; SubscribeState 1])
  = Some [1; 2; 3].
Proof.
  split; [|vm_compute; reflexivity].
  now apply (@first_by_effect nat unit 3 counter (Some echoing) _ _ echoing [] []).
Qed.

(** Subscriber 2 joins after three states: it is handed the three, then
    the two computed later. *)
Lemma state_subscriber_gets_history_witness :
  exists s1 s2 later got,
    session 2 counter (Some answering) [SubscribeState 1; Dispatch ACTION_A]
    = Some s1 /\
    states_seen 2 s1 = [] /\
    step counter 2 (SubscribeState 2) s1 = Some s2 /\
    states_seen 2 s2 = computed_states counter s2 /\
    (connected s1 = true -> computed_states counter s2 = computed_states counter s1) /\
    computed_states counter joined_store = computed_states counter s2 ++ later /\
    states_seen 2 joined_store = computed_states counter s2 ++ got /\
    Permutation got later.
Proof.
  apply (@state_subscriber_gets_history nat unit counter 2 2 (Some answering)
           [SubscribeState 1; Dispatch ACTION_A] [Dispatch ACTION_A] joined_store).
  - reflexivity.
  - reflexivity.
  - vm_compute. reflexivity.
Defined.

Example joined_store_values :
  states_seen 2 joined_store = [1; 2; 3; 4; 5] /\
  computed_states counter joined_store = [1; 2; 3; 4; 5].
Proof. split; vm_compute; reflexivity. Qed.

(** An effect that dispatches while a state is being handed out: the
    state it sets off reaches the subscribers after it in the list before
    the state that set it off does. Subscriber 1 is handed every state
    once, but not in the order of computation. *)
Example states_out_of_order :
  option_map (fun s => (states_seen 1 s, computed_states counter s))
    (session 3 counter (Some echoing) [SubscribeState 1; Dispatch ACTION_A])
  = Some ([1; 3; 2], [1; 2; 3]).
Proof. vm_compute. reflexivity. Qed.
